(** * Gerador de audio TTS: audio framing and playback sequencing

    A shallow embedding of [src/utils/audioUtils.ts] (codec, WAV framer,
    PCM decoder, archive packaging, track concatenation) and of the block
    list and playback handlers of [src/App.tsx], with the properties of the
    specification stated and proved over them.

    Conventions of the embedding.
    - A [Uint8Array] is a [list byte]; every array the program builds owns
      its whole [ArrayBuffer] ([new Uint8Array(len)]), so [data.buffer] is
      the same byte sequence.
    - JavaScript numbers that the program uses as sizes and indices are
      [nat]; numbers written into the header are [Z], and the modular
      conversion performed by [DataView.setUintN] is written out.
    - A thrown exception or a rejected promise is the [Throw] branch of
      [result].
    - The platform primitives the program calls ([DataView], [Blob],
      [btoa], [atob], [Int16Array], [AudioContext.createBuffer], [JSZip])
      are modelled after their standards, each next to its first use.
    - The screen variants of [App.tsx] share the handlers embedded here;
      the key-selection state of the later variants plays no part in them
      and is left out. *)

From Stdlib Require Import ZArith NArith String Ascii Bool Lia QArith.
From Stdlib Require Import Strings.Byte Numbers.DecimalString.
From Stdlib Require Import Numbers.DecimalNat Lists.Finite List.
Import ListNotations.

Open Scope Z_scope.

(** ** Exceptions of the platform *)

Inductive JsError : Type :=
| RangeError
| NotSupportedError
| InvalidCharacterError.

Inductive result (A : Type) : Type :=
| Ok (a : A)
| Throw (e : JsError).

Arguments Ok {A} a.
Arguments Throw {A} e.

Definition bind {A B : Type} (r : result A) (k : A -> result B) : result B :=
  match r with
  | Ok a => k a
  | Throw e => Throw e
  end.

Notation "'do' x <- r ; k" := (bind r (fun x => k))
  (at level 10, x name, r at level 100, k at level 200).

(** ** Bytes *)

(** Storing a number into a [Uint8Array] or through [setUint8] keeps its
    low eight bits. *)
Definition u8 (z : Z) : byte :=
  match Byte.of_N (Z.to_N (z mod 256)) with
  | Some b => b
  | None => x00
  end.

Definition byteval (b : byte) : Z := Z.of_N (Byte.to_N b).

(** [new ArrayBuffer(n)] and [new Uint8Array(n)] are zero filled. *)
Definition zeroed (n : nat) : list byte := repeat x00 n.

(** [s.charCodeAt(i)] for the characters of a string literal. *)
Definition charCodes (s : string) : list Z :=
  map (fun c => Z.of_N (N_of_ascii c)) (list_ascii_of_string s).

(** ** DataView over an ArrayBuffer *)

Module DataView.

(** Overwrite [src] into [buf] starting at [off]; out of range is a
    [RangeError], as for every [DataView] setter. *)
Definition store (buf : list byte) (off : nat) (src : list byte)
  : result (list byte) :=
  if (off + length src <=? length buf)%nat
  then Ok (firstn off buf ++ src ++ skipn (off + length src) buf)
  else Throw RangeError.

Definition le16 (v : Z) : list byte := [u8 v; u8 (v / 256)].

Definition le32 (v : Z) : list byte :=
  [u8 v; u8 (v / 256); u8 (v / 65536); u8 (v / 16777216)].

Definition setUint8 (view : list byte) (off : nat) (v : Z) :=
  store view off [u8 v].

(** [view.setUint16(off, v, true)] *)
Definition setUint16 (view : list byte) (off : nat) (v : Z) :=
  store view off (le16 v).

(** [view.setUint32(off, v, true)] *)
Definition setUint32 (view : list byte) (off : nat) (v : Z) :=
  store view off (le32 v).

(** [view.getUint16(off, true)] and [view.getUint32(off, true)], used to
    read a header back. *)
Definition getUint16 (view : list byte) (off : nat) : option Z :=
  match skipn off view with
  | b0 :: b1 :: _ => Some (byteval b0 + 256 * byteval b1)
  | _ => None
  end.

Definition getUint32 (view : list byte) (off : nat) : option Z :=
  match skipn off view with
  | b0 :: b1 :: b2 :: b3 :: _ =>
      Some (byteval b0 + 256 * byteval b1
            + 65536 * byteval b2 + 16777216 * byteval b3)
  | _ => None
  end.

End DataView.

(** [writeString(view, offset, string)]: one [setUint8] per character. *)
Fixpoint writeCodes (view : list byte) (offset : nat) (codes : list Z)
  : result (list byte) :=
  match codes with
  | [] => Ok view
  | c :: rest =>
      do view' <- DataView.setUint8 view offset c;
      writeCodes view' (S offset) rest
  end.

Definition writeString (view : list byte) (offset : nat) (s : string)
  : result (list byte) :=
  writeCodes view offset (charCodes s).

(** ** Blob *)

Record Blob : Type := mkBlob {
  blob_bytes : list byte;
  blob_type : string
}.

(** [new Blob(parts, { type })] *)
Definition newBlob (parts : list (list byte)) (type : string) : Blob :=
  mkBlob (concat parts) type.

Definition blob_size (b : Blob) : nat := length (blob_bytes b).

(** ** createWavBlob *)

Definition defaultSampleRate : Z := 24000.

Definition wavHeader (pcmLength : nat) (sampleRate : Z) : result (list byte) :=
  let header := zeroed 44 in
  do view <- writeString header 0 "RIFF";
  do view <- DataView.setUint32 view 4 (36 + Z.of_nat pcmLength);
  do view <- writeString view 8 "WAVE";
  do view <- writeString view 12 "fmt ";
  do view <- DataView.setUint32 view 16 16;
  do view <- DataView.setUint16 view 20 1;
  do view <- DataView.setUint16 view 22 1;
  do view <- DataView.setUint32 view 24 sampleRate;
  do view <- DataView.setUint32 view 28 (sampleRate * 2);
  do view <- DataView.setUint16 view 32 2;
  do view <- DataView.setUint16 view 34 16;
  do view <- writeString view 36 "data";
  do view <- DataView.setUint32 view 40 (Z.of_nat pcmLength);
  Ok view.

Definition createWavBlob (pcmData : list byte) (sampleRate : Z) : result Blob :=
  do header <- wavHeader (length pcmData) sampleRate;
  Ok (newBlob [header; pcmData] "audio/wav").


(** ** Base64 primitives of the platform: [btoa] and [atob]

    The two built-ins follow the HTML standard (forgiving-base64 encode and
    decode). A binary string is the list of its code units; the transport
    text is a [string]. *)

Module Base64.

Definition alphabet : list ascii :=
  list_ascii_of_string
    "ABCDEFGHIJKLMNOPQRSTUVWXYZabcdefghijklmnopqrstuvwxyz0123456789+/".

Definition pad : ascii := "="%char.

Definition sextetChar (s : Z) : ascii := nth (Z.to_nat s) alphabet pad.

Fixpoint position (c : ascii) (l : list ascii) (i : Z) : option Z :=
  match l with
  | [] => None
  | x :: rest => if Ascii.eqb c x then Some i else position c rest (i + 1)
  end.

Definition charSextet (c : ascii) : option Z := position c alphabet 0.

(** Three bytes give four characters; one or two trailing bytes are
    completed with zero bits and padded with [=]. *)
Fixpoint encodeBytes (bs : list Z) : list ascii :=
  match bs with
  | [] => []
  | [a] =>
      [sextetChar (a / 4); sextetChar ((a mod 4) * 16); pad; pad]
  | [a; b] =>
      [sextetChar (a / 4); sextetChar ((a mod 4) * 16 + b / 16);
       sextetChar ((b mod 16) * 4); pad]
  | a :: b :: c :: rest =>
      sextetChar (a / 4) :: sextetChar ((a mod 4) * 16 + b / 16)
      :: sextetChar ((b mod 16) * 4 + c / 64) :: sextetChar (c mod 64)
      :: encodeBytes rest
  end.

(** [btoa(data)]: throws when a code unit is above U+00FF. *)
Definition btoa (data : list Z) : result string :=
  if forallb (fun c => c <=? 255) data
  then Ok (string_of_list_ascii (encodeBytes data))
  else Throw InvalidCharacterError.

Definition isAsciiWhitespace (c : ascii) : bool :=
  let n := N_of_ascii c in
  (N.eqb n 9 || N.eqb n 10 || N.eqb n 12 || N.eqb n 13 || N.eqb n 32)%bool.

(** Remove one or two [=] from the end. *)
Definition stripPadding (l : list ascii) : list ascii :=
  match rev l with
  | p1 :: p2 :: rest =>
      if Ascii.eqb p1 pad
      then if Ascii.eqb p2 pad then rev rest else rev (p2 :: rest)
      else l
  | [p1] => if Ascii.eqb p1 pad then [] else l
  | [] => l
  end.

Fixpoint sextets (l : list ascii) : option (list Z) :=
  match l with
  | [] => Some []
  | c :: rest =>
      match charSextet c, sextets rest with
      | Some s, Some ss => Some (s :: ss)
      | _, _ => None
      end
  end.

(** Every four sextets give three bytes; of a rest of two or three
    sextets the last 4 or 2 bits are discarded. *)
Fixpoint decodeSextets (ss : list Z) : list Z :=
  match ss with
  | s1 :: s2 :: s3 :: s4 :: rest =>
      (s1 * 4 + s2 / 16) :: ((s2 mod 16) * 16 + s3 / 4)
      :: ((s3 mod 4) * 64 + s4) :: decodeSextets rest
  | [s1; s2; s3] => [s1 * 4 + s2 / 16; (s2 mod 16) * 16 + s3 / 4]
  | [s1; s2] => [s1 * 4 + s2 / 16]
  | _ => []
  end.

(** [atob(data)] *)
Definition atob (data : string) : result (list Z) :=
  let d := filter (fun c => negb (isAsciiWhitespace c))
                  (list_ascii_of_string data) in
  let d := if (length d mod 4 =? 0)%nat then stripPadding d else d in
  if (length d mod 4 =? 1)%nat then Throw InvalidCharacterError
  else match sextets d with
       | None => Throw InvalidCharacterError
       | Some ss => Ok (decodeSextets ss)
       end.

End Base64.

(** ** encode and decode *)

(** [binary += String.fromCharCode(bytes[i])] for every byte, then [btoa]. *)
Definition encode (bytes : list byte) : result string :=
  let binary := fold_left (fun acc b => acc ++ [byteval b]) bytes [] in
  Base64.btoa binary.

(** [atob], then [bytes[i] = binaryString.charCodeAt(i)] into a fresh
    [Uint8Array(len)]. *)
Definition decode (base64 : string) : result (list byte) :=
  do binaryString <- Base64.atob base64;
  Ok (map u8 binaryString).

(** ** decodeAudioToBuffer *)

(** A JavaScript number as stored in a [Float32Array]: the quotients
    [v / 32768] with [v] a 16-bit integer are exact in single and double
    precision, so a rational carries them without rounding. *)
Inductive JsNumber : Type :=
| Num (q : Q)
| NaN.

(** What an [AudioContext] accepts in [createBuffer]. The Web Audio
    standard requires at least 32 channels and the rates 8000..96000. *)
Record AudioContext : Type := mkAudioContext {
  maxChannelCount : nat;
  minSampleRate : Z;
  maxSampleRate : Z
}.

Record AudioBuffer : Type := mkAudioBuffer {
  numberOfChannels : nat;
  frames : nat;
  bufferRate : Z;
  channels : list (list JsNumber)
}.

(** [ctx.createBuffer(numberOfChannels, length, sampleRate)]: a silent
    buffer; [NotSupportedError] when an argument is zero or outside its
    nominal range. *)
Definition createBuffer (ctx : AudioContext) (nch len : nat) (rate : Z)
  : result AudioBuffer :=
  if ((1 <=? nch)%nat && (nch <=? maxChannelCount ctx)%nat && (1 <=? len)%nat
      && (minSampleRate ctx <=? rate) && (rate <=? maxSampleRate ctx))%bool
  then Ok (mkAudioBuffer nch len rate (repeat (repeat (Num 0) len) nch))
  else Throw NotSupportedError.

Definition toInt16 (u : Z) : Z := if u <? 32768 then u else u - 65536.

Fixpoint int16Elements (buffer : list byte) : list Z :=
  match buffer with
  | lo :: hi :: rest =>
      toInt16 (byteval lo + 256 * byteval hi) :: int16Elements rest
  | _ => []
  end.

(** [new Int16Array(buffer)]: a [RangeError] unless the byte length is a
    multiple of 2. Elements are little-endian, the byte order of the
    platforms the program runs on. *)
Definition newInt16Array (buffer : list byte) : result (list Z) :=
  if Nat.even (length buffer) then Ok (int16Elements buffer)
  else Throw RangeError.

(** [a[i] = v] on a typed array: ignored when [i] is out of range. *)
Fixpoint setIndex {A : Type} (a : list A) (i : nat) (v : A) : list A :=
  match a, i with
  | [], _ => []
  | _ :: rest, O => v :: rest
  | x :: rest, S j => x :: setIndex rest j v
  end.

(** [dataInt16[k] / 32768.0]; reading past the end gives [undefined],
    whose quotient is [NaN]. *)
Definition normalized (dataInt16 : list Z) (k : nat) : JsNumber :=
  match nth_error dataInt16 k with
  | Some v => Num (v # 32768)
  | None => NaN
  end.

(** The inner loop [for (i = 0; i < frameCount; i++)], given the values of
    [i] it runs through. *)
Definition fillChannel (dataInt16 : list Z) (numChannels channel : nat)
    (indices : list nat) (channelData : list JsNumber) : list JsNumber :=
  fold_left
    (fun cd i => setIndex cd i (normalized dataInt16 (i * numChannels + channel)))
    indices channelData.

(** [frameCount = dataInt16.length / numChannels] is a real quotient:
    [createBuffer] receives its integer part, and the loop over
    [i < frameCount] runs for every [i] below its ceiling. *)
Definition decodeAudioToBuffer (data : list byte) (ctx : AudioContext)
    (sampleRate : Z) (numChannels : nat) : result AudioBuffer :=
  do dataInt16 <- newInt16Array data;
  let samples := length dataInt16 in
  do buffer <- createBuffer ctx numChannels (samples / numChannels) sampleRate;
  let indices := seq 0 ((samples + numChannels - 1) / numChannels) in
  let filled :=
    fold_left
      (fun chans channel =>
         match nth_error chans channel with
         | Some channelData =>
             setIndex chans channel
               (fillChannel dataInt16 numChannels channel indices channelData)
         | None => chans
         end)
      (seq 0 numChannels) (channels buffer) in
  Ok (mkAudioBuffer (numberOfChannels buffer) (frames buffer)
        (bufferRate buffer) filled).

(** ** Segments *)

Record AudioBlock : Type := mkAudioBlock {
  id : string;
  text : string;
  audioData : option (list byte);
  audioUrl : option string;
  isGenerating : bool;
  isPlaying : bool;
  error : option string
}.

(** ** generateZip *)

(** The file table of a [JSZip] instance, in insertion order. *)
Definition Zip : Type := list (string * Blob).

(** [zip.file(name, data)]: adds the entry, or replaces the one that has
    this name. *)
Fixpoint zipFile (zip : Zip) (name : string) (data : Blob) : Zip :=
  match zip with
  | [] => [(name, data)]
  | (n, d) :: rest =>
      if String.eqb n name then (name, data) :: rest
      else (n, d) :: zipFile rest name data
  end.

(** The text of a non-negative integer in a template literal. *)
Definition numberToString (n : nat) : string :=
  NilZero.string_of_uint (Nat.to_uint n).

(** The callback of [blocks.forEach((block, index) => ...)], threading the
    file table and the index. *)
Definition zipBlock (acc : result Zip * nat) (block : AudioBlock)
  : result Zip * nat :=
  let '(rzip, index) := acc in
  (match audioData block with
   | Some pcm =>
       do zip <- rzip;
       do wavBlob <- createWavBlob pcm defaultSampleRate;
       Ok (zipFile zip ("audio_" ++ numberToString (index + 1) ++ ".wav")
             wavBlob)
   | None => rzip
   end, S index).

(** The archive as the entries handed to [JSZip]; [generateAsync] then
    serialises them. *)
Definition generateZip (blocks : list AudioBlock) : result Zip :=
  fst (fold_left zipBlock blocks (Ok [], O)).

(** ** concatenateToSingleWav *)

(** [target.set(source, offset)] on a [Uint8Array]. *)
Definition typedArraySet (target source : list byte) (offset : nat)
  : result (list byte) :=
  DataView.store target offset source.

(** [(acc, b) => acc + (b.audioData?.length || 0)] *)
Definition addLength (acc : nat) (b : AudioBlock) : nat :=
  (acc + match audioData b with
         | Some d => length d
         | None => 0
         end)%nat.

(** The callback of [blocks.forEach(block => ...)], threading [result] and
    [offset]. *)
Definition copyBlock (acc : result (list byte * nat)) (block : AudioBlock)
  : result (list byte * nat) :=
  do st <- acc;
  match audioData block with
  | Some d =>
      do res <- typedArraySet (fst st) d (snd st);
      Ok (res, (snd st + length d)%nat)
  | None => Ok st
  end.

Definition concatenateToSingleWav (blocks : list AudioBlock) : result Blob :=
  let totalLength := fold_left addLength blocks O in
  let result0 := zeroed totalLength in
  do final <- fold_left copyBlock blocks (Ok (result0, O));
  createWavBlob (fst final) defaultSampleRate.

(** ** The application state of [App.tsx]

    The component keeps the block list, the settings and [isPlayingAll] as
    React state and the active [AudioBufferSourceNode] in a ref. The audio
    nodes live on the platform side: a node is identified by the order in
    which it was created, and its [ended] event is dispatched once, after it
    finished on its own or after [stop()].

    Handlers run to completion: an [await] on a promise that is already
    settled ([decodeAudioToBuffer] awaits nothing) resumes before the next
    event is dispatched, so a click handler or an [ended] callback together
    with the continuation it resumes is one transition. State updaters
    ([setBlocks(prev => ...)]) are applied in the order they are issued. *)

Record GlobalSettings : Type := mkSettings {
  voice : string;
  speed : Q;
  temperature : Q;
  style : string;
  accent : string;
  seed : Z
}.

(** The closure installed as [source.onended]. *)
Inductive OnEnded : Type :=
| NoHandler
    (* playPreview installs none *)
| PlayBlockEnded (blockId : string)
    (* playBlock: clears the flag of the block *)
| PlayAllEnded (blockId : string) (rest : list AudioBlock)
    (* playAllSequentially: clears the flag, resolves [playPromise]; the
       loop resumes with the blocks still to be played *).

Inductive SourceStatus : Type :=
| Playing     (* started *)
| Stopping    (* [stop()] was called, [ended] not yet dispatched *)
| Finished    (* [ended] was dispatched *).

Record SourceNode : Type := mkSource {
  clip : string;            (* id of the block whose buffer it plays *)
  onended : OnEnded;
  status : SourceStatus
}.

Record State : Type := mkState {
  blocks : list AudioBlock;
  settings : GlobalSettings;
  isPlayingAll : bool;
  currentAudioSource : option nat;
  sources : list SourceNode
}.

Definition newBlock (newId : string) : AudioBlock :=
  mkAudioBlock newId "" None None false false None.

Definition initialSettings : GlobalSettings :=
  mkSettings "Kore" 1 1 "" "" 42.

(** The state of the first render; [id0] is the value of [uuidv4()]. *)
Definition initialState (id0 : string) : State :=
  mkState [newBlock id0] initialSettings false None [].

Definition setBlocks (f : list AudioBlock -> list AudioBlock) (st : State)
  : State :=
  mkState (f (blocks st)) (settings st) (isPlayingAll st)
    (currentAudioSource st) (sources st).

Definition setIsPlayingAll (v : bool) (st : State) : State :=
  mkState (blocks st) (settings st) v (currentAudioSource st) (sources st).

Definition withIsPlaying (v : bool) (b : AudioBlock) : AudioBlock :=
  mkAudioBlock (id b) (text b) (audioData b) (audioUrl b) (isGenerating b)
    v (error b).

(** [prev.map(b => b.id === id ? { ...b, isPlaying: v } : b)] *)
Definition markPlaying (blockId : string) (v : bool) (prev : list AudioBlock)
  : list AudioBlock :=
  map (fun b => if String.eqb (id b) blockId then withIsPlaying v b else b)
    prev.

Definition hasAudio (b : AudioBlock) : bool :=
  match audioData b with
  | Some _ => true
  | None => false
  end.

(** [source.stop()] on a started node. *)
Definition stopSource (s : nat) (nodes : list SourceNode) : list SourceNode :=
  match nth_error nodes s with
  | Some n =>
      match status n with
      | Playing => setIndex nodes s (mkSource (clip n) (onended n) Stopping)
      | _ => nodes
      end
  | None => nodes
  end.

Definition stopAllPlayback (st : State) : State :=
  let nodes :=
    match currentAudioSource st with
    | Some s => stopSource s (sources st)
    | None => sources st
    end in
  mkState (map (withIsPlaying false) (blocks st)) (settings st) false None
    nodes.

(** [createBufferSource], [onended = h], [start()] and, for [playBlock]
    and [playAllSequentially], [currentAudioSource.current = source]. *)
Definition startSource (blockId : string) (h : OnEnded) (intoRef : bool)
    (st : State) : State :=
  mkState (blocks st) (settings st) (isPlayingAll st)
    (if intoRef then Some (length (sources st)) else currentAudioSource st)
    (sources st ++ [mkSource blockId h Playing]).

Definition playBlock (ctx : AudioContext) (blockId : string) (st : State)
  : State :=
  let st1 := stopAllPlayback st in
  match find (fun b => String.eqb (id b) blockId) (blocks st) with
  | Some block =>
      match audioData block with
      | Some pcm =>
          match decodeAudioToBuffer pcm ctx defaultSampleRate 1 with
          | Ok _ =>
              startSource blockId (PlayBlockEnded blockId) true
                (setBlocks (markPlaying blockId true) st1)
          | Throw _ => st1
          end
      | None => st1
      end
  | None => st1
  end.

(** The loop of [playAllSequentially] from the head of [queue] up to its
    next [await playPromise]. A rejected decode ends the call with
    [isPlayingAll] left as it is. *)
Fixpoint playLoop (ctx : AudioContext) (queue : list AudioBlock) (st : State)
  : State :=
  match queue with
  | [] => setIsPlayingAll false st
  | block :: rest =>
      match audioData block with
      | None => playLoop ctx rest st
      | Some pcm =>
          match decodeAudioToBuffer pcm ctx defaultSampleRate 1 with
          | Ok _ =>
              startSource (id block) (PlayAllEnded (id block) rest) true
                (setBlocks (markPlaying (id block) true) st)
          | Throw _ => st
          end
      end
  end.

Definition playAllSequentially (ctx : AudioContext) (st : State) : State :=
  if isPlayingAll st then stopAllPlayback st
  else
    let playableBlocks := filter hasAudio (blocks st) in
    match playableBlocks with
    | [] => st
    | _ => playLoop ctx playableBlocks (setIsPlayingAll true st)
    end.

(** Dispatch of the [ended] event of node [s]. *)
Definition ended (ctx : AudioContext) (s : nat) (st : State) : State :=
  match nth_error (sources st) s with
  | None => st
  | Some n =>
      match status n with
      | Finished => st
      | _ =>
          let st1 :=
            mkState (blocks st) (settings st) (isPlayingAll st)
              (currentAudioSource st)
              (setIndex (sources st) s
                 (mkSource (clip n) (onended n) Finished)) in
          match onended n with
          | NoHandler => st1
          | PlayBlockEnded blockId =>
              setBlocks (markPlaying blockId false) st1
          | PlayAllEnded blockId rest =>
              let st2 := setBlocks (markPlaying blockId false) st1 in
              match currentAudioSource st2 with
              | None => setIsPlayingAll false st2
              | Some _ => playLoop ctx rest st2
              end
          end
      end
  end.

(** [findIndex] *)
Fixpoint findIndex {A : Type} (p : A -> bool) (l : list A) : option nat :=
  match l with
  | [] => None
  | x :: rest =>
      if p x then Some O
      else match findIndex p rest with
           | Some i => Some (S i)
           | None => None
           end
  end.

(** [addBlock(afterId)]; [newId] is the value of [uuidv4()]. An absent or
    empty [afterId] appends; an id that is not found makes [index + 1]
    zero, and [splice] inserts at the front. *)
Definition addBlock (afterId : option string) (newId : string) (st : State)
  : State :=
  let fresh := newBlock newId in
  let append := setBlocks (fun prev => prev ++ [fresh]) st in
  match afterId with
  | None => append
  | Some a =>
      if String.eqb a "" then append
      else
        setBlocks
          (fun prev =>
             let at_ := match findIndex (fun b => String.eqb (id b) a) prev with
                        | Some index => S index
                        | None => O
                        end in
             firstn at_ prev ++ fresh :: skipn at_ prev)
          st
  end.

Definition removeBlock (blockId : string) (st : State) : State :=
  setBlocks
    (fun prev =>
       if (1 <? length prev)%nat
       then filter (fun b => negb (String.eqb (id b) blockId)) prev
       else prev)
    st.

Definition updateBlockText (blockId newText : string) (st : State) : State :=
  setBlocks
    (map (fun b =>
            if String.eqb (id b) blockId
            then mkAudioBlock (id b) newText None None (isGenerating b)
                   (isPlaying b) (error b)
            else b))
    st.

Definition clearAll (newId : string) (st : State) : State :=
  setBlocks (fun _ => [newBlock newId]) (stopAllPlayback st).

(** The three state updates of [generateBlockAudio], issued when its guard
    passes: before the request, after its success, after its failure. *)
Definition generationStarted (blockId : string) (st : State) : State :=
  setBlocks
    (map (fun b =>
            if String.eqb (id b) blockId
            then mkAudioBlock (id b) (text b) (audioData b) (audioUrl b) true
                   (isPlaying b) None
            else b))
    st.

Definition generationSucceeded (blockId : string) (pcmData : list byte)
    (url : string) (st : State) : State :=
  setBlocks
    (map (fun b =>
            if String.eqb (id b) blockId
            then mkAudioBlock (id b) (text b) (Some pcmData) (Some url) false
                   (isPlaying b) (error b)
            else b))
    st.

Definition generationFailed (blockId message : string) (st : State) : State :=
  setBlocks
    (map (fun b =>
            if String.eqb (id b) blockId
            then mkAudioBlock (id b) (text b) (audioData b) (audioUrl b) false
                   (isPlaying b) (Some message)
            else b))
    st.

Definition previewText : string := "Olá, esta é uma prévia da minha voz.".

(** [playPreview] up to its [await generateTTS(...)]. *)
Definition previewStarted (st : State) : State :=
  setBlocks
    (fun prev =>
       prev ++ [mkAudioBlock "preview" previewText None None true false None])
    st.

(** [playPreview] once the request has settled: on success the clip is
    decoded and started, without handler and outside the ref; the
    [finally] block then drops the preview block. *)
Definition previewSettled (ctx : AudioContext) (response : result (list byte))
    (st : State) : State :=
  let st1 :=
    match response with
    | Ok pcmData =>
        match decodeAudioToBuffer pcmData ctx defaultSampleRate 1 with
        | Ok _ => startSource "preview" NoHandler false st
        | Throw _ => st
        end
    | Throw _ => st
    end in
  setBlocks (filter (fun b => negb (String.eqb (id b) "preview"))) st1.

(** What can happen to the component: the user's actions, the completion
    of a request, the [ended] event of a node. *)
Inductive Event : Type :=
| Ended (s : nat)
| StopAll
| PlayBlock (blockId : string)
| PlayAll
| AddBlock (afterId : option string) (newId : string)
| RemoveBlock (blockId : string)
| UpdateBlockText (blockId newText : string)
| ClearAll (newId : string)
| GenerationStarted (blockId : string)
| GenerationSucceeded (blockId : string) (pcmData : list byte) (url : string)
| GenerationFailed (blockId message : string)
| PreviewStarted
| PreviewSettled (response : result (list byte)).

Definition step (ctx : AudioContext) (st : State) (ev : Event) : State :=
  match ev with
  | Ended s => ended ctx s st
  | StopAll => stopAllPlayback st
  | PlayBlock blockId => playBlock ctx blockId st
  | PlayAll => playAllSequentially ctx st
  | AddBlock afterId newId => addBlock afterId newId st
  | RemoveBlock blockId => removeBlock blockId st
  | UpdateBlockText blockId newText => updateBlockText blockId newText st
  | ClearAll newId => clearAll newId st
  | GenerationStarted blockId => generationStarted blockId st
  | GenerationSucceeded blockId pcmData url =>
      generationSucceeded blockId pcmData url st
  | GenerationFailed blockId message => generationFailed blockId message st
  | PreviewStarted => previewStarted st
  | PreviewSettled response => previewSettled ctx response st
  end.

Definition run (ctx : AudioContext) (st : State) (evs : list Event) : State :=
  fold_left (step ctx) evs st.

(** An event that asks for a new playback. *)
Definition startsPlayback (ev : Event) : bool :=
  match ev with
  | PlayBlock _ | PlayAll | PreviewSettled _ => true
  | _ => false
  end.

(** An event that cancels playback. *)
Definition stopsPlayback (ev : Event) : bool :=
  match ev with
  | StopAll | ClearAll _ => true
  | _ => false
  end.

(** The clips started so far, in the order of their start. *)
Definition clipsStarted (st : State) : list string := map clip (sources st).

Definition isFinished (n : SourceNode) : bool :=
  match status n with
  | Finished => true
  | _ => false
  end.

(** The number of clips whose [ended] event has been dispatched. *)
Definition finishedCount (st : State) : nat :=
  length (filter isFinished (sources st)).

(** ** Reading a container back *)

Definition slice {A : Type} (l : list A) (off n : nat) : list A :=
  firstn n (skipn off l).

Definition asciiBytes (s : string) : list byte :=
  map byte_of_ascii (list_ascii_of_string s).

(** ** Notions used in the statements *)

Definition isSextet (s : Z) : Prop := 0 <= s < 64.
Definition isOctet (a : Z) : Prop := 0 <= a < 256.

(** The [k]-th sample of a PCM buffer in the specification's words: the
    signed 16-bit little-endian integer held by bytes [2k] and [2k+1]. *)
Definition int16At (data : list byte) (k : nat) : option Z :=
  match nth_error data (2 * k), nth_error data (2 * k + 1) with
  | Some lo, Some hi =>
      let u := byteval lo + 256 * byteval hi in
      Some (if u <? 32768 then u else u - 65536)
  | _, _ => None
  end.

(** The buffers of the segments that carry one, in the order of the
    segments. *)
Definition presentBuffers (blocks : list AudioBlock) : list (list byte) :=
  flat_map (fun b => match audioData b with
                     | Some d => [d]
                     | None => []
                     end) blocks.

(** The context accepts a buffer of [nch] channels at [rate]. *)
Definition supports (ctx : AudioContext) (nch : nat) (rate : Z) : Prop :=
  (1 <= nch <= maxChannelCount ctx)%nat
  /\ minSampleRate ctx <= rate <= maxSampleRate ctx.

(** No playback is under way as far as the component can tell: the ref is
    empty, [isPlayingAll] is false and no segment is flagged as playing. *)
Definition silent (st : State) : Prop :=
  currentAudioSource st = None
  /\ isPlayingAll st = false
  /\ Forall (fun b => isPlaying b = false) (blocks st).

(** An event that neither asks for a new playback nor cancels one: an
    [ended] event, an edit of the composition, progress of a generation. *)
Definition bystander (ev : Event) : bool :=
  negb (startsPlayback ev) && negb (stopsPlayback ev).

(** The buffer of a block, if any, is accepted by the decoder. *)
Definition decodable (ctx : AudioContext) (b : AudioBlock) : Prop :=
  forall pcm, audioData b = Some pcm ->
    exists buffer, decodeAudioToBuffer pcm ctx defaultSampleRate 1 = Ok buffer.

(** A block the loop of [playAllSequentially] will play: it carries a
    buffer and the buffer decodes. *)
Definition playable (ctx : AudioContext) (b : AudioBlock) : Prop :=
  hasAudio b = true /\ decodable ctx b.

(** Where a call of [playAllSequentially] stands: either its last clip is
    playing, every earlier node has finished, and the handler of the clip
    holds the blocks still to come; or every node has finished and the call
    has returned. [target] lists the clips started before the call followed
    by the ids of the snapshot; [base] is the number of nodes that existed
    before the call. *)
Inductive sequencing (ctx : AudioContext) (base : nat) (target : list string)
    (st : State) : Prop :=
| Running (done : list SourceNode) (c : string) (rest : list AudioBlock) :
    sources st = done ++ [mkSource c (PlayAllEnded c rest) Playing] ->
    forallb isFinished done = true ->
    currentAudioSource st = Some (length done) ->
    isPlayingAll st = true ->
    Forall (playable ctx) rest ->
    map clip done ++ c :: map id rest = target ->
    (base <= length done)%nat ->
    sequencing ctx base target st
| Complete :
    forallb isFinished (sources st) = true ->
    isPlayingAll st = false ->
    clipsStarted st = target ->
    (base <= length (sources st))%nat ->
    sequencing ctx base target st.

(** ** Sample data *)

(** A context with the limits every implementation of the Web Audio
    standard supports. *)
Definition standardContext : AudioContext := mkAudioContext 32 8000 96000.

Definition segment (blockId : string) (pcm : option (list byte)) : AudioBlock :=
  mkAudioBlock blockId "" pcm None false false None.

Definition stateOf (segments : list AudioBlock) : State :=
  mkState segments initialSettings false None [].

(** Three segments of one sample each. *)
Definition threeClips : State :=
  stateOf [segment "a" (Some [x00; x00]); segment "b" (Some [xff; x7f]);
           segment "c" (Some [x00; x80])].

(** A first segment whose buffer lost its last byte. *)
Definition truncatedClip : State :=
  stateOf [segment "a" (Some [x01]); segment "b" (Some [x00; x00])].

(** The header table of section 4.2 of the specification, field after
    field: tag, chunk size, format tag, subchunk id, subchunk size, audio
    format, channel count, sample rate, byte rate, block align, bits per
    sample, data tag, data size. *)
Definition headerTable (payloadLength : nat) (sampleRate : Z) : list byte :=
  asciiBytes "RIFF" ++ DataView.le32 (36 + Z.of_nat payloadLength)
  ++ asciiBytes "WAVE" ++ asciiBytes "fmt "
  ++ DataView.le32 16 ++ DataView.le16 1 ++ DataView.le16 1
  ++ DataView.le32 sampleRate ++ DataView.le32 (sampleRate * 2)
  ++ DataView.le16 2 ++ DataView.le16 16
  ++ asciiBytes "data" ++ DataView.le32 (Z.of_nat payloadLength).

(** ** The download handlers of [App.tsx]

    Both handlers filter the generated blocks first and do nothing when
    there is none ([None]); otherwise they build the file that is offered
    for download. *)

Definition downloadZip (st : State) : option (result Zip) :=
  let generated := filter hasAudio (blocks st) in
  match generated with
  | [] => None
  | _ => Some (generateZip generated)
  end.

Definition downloadSingleTrack (st : State) : option (result Blob) :=
  let generated := filter hasAudio (blocks st) in
  match generated with
  | [] => None
  | _ => Some (concatenateToSingleWav generated)
  end.

(** ** The tail of [generateTTS]

    The request itself belongs to the remote service; what it answers is
    the optional inline data of the first part of the first candidate.
    [generateTTS] throws its own error when that is absent or the empty
    string, and decodes it otherwise. *)

Inductive TtsFailure : Type :=
| NoVoiceData                  (* the model returned no audio *)
| Rejected (e : JsError)       (* [decode] threw *).

Definition generateTTS (base64Audio : option string)
  : TtsFailure + list byte :=
  match base64Audio with
  | None => inl NoVoiceData
  | Some data =>
      if String.eqb data "" then inl NoVoiceData
      else match decode data with
           | Ok bytes => inr bytes
           | Throw e => inl (Rejected e)
           end
  end.

(** ** Further notions used in the statements *)

(** The name [generateZip] gives to the block at position [index]. *)
Definition entryName (index : nat) : string :=
  "audio_" ++ numberToString (index + 1) ++ ".wav".

(** The positions, counted from [index], of the blocks that carry a
    buffer, each with its buffer. *)
Fixpoint audioAt (index : nat) (blocks : list AudioBlock)
  : list (nat * list byte) :=
  match blocks with
  | [] => []
  | b :: rest =>
      match audioData b with
      | Some pcm => (index, pcm) :: audioAt (S index) rest
      | None => audioAt (S index) rest
      end
  end.

(** A sample a playback device accepts without clipping. *)
Definition inUnitRange (x : JsNumber) : Prop :=
  match x with
  | Num q => (-1 <= q /\ q < 1)%Q
  | NaN => False
  end.

(** Node [n] was started for the block [blockId] by [playBlock] or by
    [playAllSequentially], and has neither been stopped nor ended. *)
Definition playingFor (blockId : string) (n : SourceNode) : Prop :=
  status n = Playing
  /\ clip n = blockId
  /\ (onended n = PlayBlockEnded blockId
      \/ exists rest, onended n = PlayAllEnded blockId rest).

(** Every segment flagged as playing has such a node. *)
Definition flagsBacked (st : State) : Prop :=
  forall b, In b (blocks st) -> isPlaying b = true ->
    exists n, In n (sources st) /\ playingFor (id b) n.

(** The ref, when set, names a node that exists. *)
Definition refValid (st : State) : Prop :=
  forall s, currentAudioSource st = Some s -> (s < length (sources st))%nat.

(** The state in which the handler of node [s] runs: the node, [n]
    before, has finished. *)
Definition finishNode (s : nat) (n : SourceNode) (st : State) : State :=
  mkState (blocks st) (settings st) (isPlayingAll st) (currentAudioSource st)
    (setIndex (sources st) s (mkSource (clip n) (onended n) Finished)).

(** * Properties *)

Ltac Zify.zify_post_hook ::= Z.to_euclidean_division_equations.

(** ** Bytes and little-endian fields *)

Lemma byteval_range (b : byte) : 0 <= byteval b < 256.
Proof.
  unfold byteval. pose proof (Byte.to_N_bounded b). lia.
Qed.

Lemma byteval_u8 (z : Z) : byteval (u8 z) = z mod 256.
Proof.
  unfold byteval, u8.
  destruct (Byte.of_N (Z.to_N (z mod 256))) as [b|] eqn:E.
  - apply Byte.to_of_N in E. rewrite E. lia.
  - apply Byte.of_N_None_iff in E. lia.
Qed.

Lemma u8_byteval (b : byte) : u8 (byteval b) = b.
Proof.
  unfold u8. pose proof (byteval_range b) as R.
  rewrite Z.mod_small by exact R.
  unfold byteval. rewrite N2Z.id, Byte.of_to_N. reflexivity.
Qed.

Lemma getUint32_le32 (v : Z) (rest : list byte) :
  DataView.getUint32 (DataView.le32 v ++ rest) 0 = Some (v mod 4294967296).
Proof.
  unfold DataView.getUint32, DataView.le32. cbn [skipn app].
  rewrite !byteval_u8. f_equal. lia.
Qed.

Lemma getUint16_le16 (v : Z) (rest : list byte) :
  DataView.getUint16 (DataView.le16 v ++ rest) 0 = Some (v mod 65536).
Proof.
  unfold DataView.getUint16, DataView.le16. cbn [skipn app].
  rewrite !byteval_u8. f_equal. lia.
Qed.

(** ** The container framer *)

(** The thirteen writes of [createWavBlob] fill the 44 bytes without gap
    or overlap: the header is the table. *)
Lemma wavHeader_layout (pcmLength : nat) (sampleRate : Z) :
  wavHeader pcmLength sampleRate = Ok (headerTable pcmLength sampleRate).
Proof.
  reflexivity.
Qed.

Lemma headerTable_length (n : nat) (sampleRate : Z) :
  length (headerTable n sampleRate) = 44%nat.
Proof.
  reflexivity.
Qed.

Lemma headerTable_bytes (n : nat) (r : Z) :
  headerTable n r =
  let size := 36 + Z.of_nat n in
  let len := Z.of_nat n in
  [x52; x49; x46; x46;
   u8 size; u8 (size / 256); u8 (size / 65536); u8 (size / 16777216);
   x57; x41; x56; x45;
   x66; x6d; x74; x20;
   u8 16; u8 (16 / 256); u8 (16 / 65536); u8 (16 / 16777216);
   u8 1; u8 (1 / 256);
   u8 1; u8 (1 / 256);
   u8 r; u8 (r / 256); u8 (r / 65536); u8 (r / 16777216);
   u8 (r * 2); u8 (r * 2 / 256); u8 (r * 2 / 65536); u8 (r * 2 / 16777216);
   u8 2; u8 (2 / 256);
   u8 16; u8 (16 / 256);
   x64; x61; x74; x61;
   u8 len; u8 (len / 256); u8 (len / 65536); u8 (len / 16777216)].
Proof.
  reflexivity.
Qed.

Lemma le32_value (v : Z) :
  byteval (u8 v) + 256 * byteval (u8 (v / 256))
  + 65536 * byteval (u8 (v / 65536)) + 16777216 * byteval (u8 (v / 16777216))
  = v mod 4294967296.
Proof.
  rewrite !byteval_u8. lia.
Qed.

Lemma createWavBlob_bytes (pcmData : list byte) (sampleRate : Z) :
  createWavBlob pcmData sampleRate
  = Ok (mkBlob (headerTable (length pcmData) sampleRate ++ pcmData)
          "audio/wav").
Proof.
  unfold createWavBlob. rewrite wavHeader_layout.
  unfold bind, newBlob. cbn [concat]. rewrite app_nil_r. reflexivity.
Qed.

Arguments u8 : simpl never.
Arguments byteval : simpl never.

(** The four variable fields of a framed payload, read back. *)
Lemma headerTable_variable_fields (n : nat) (r : Z) (payload : list byte) :
  DataView.getUint32 (headerTable n r ++ payload) 4
  = Some ((36 + Z.of_nat n) mod 4294967296)
  /\ DataView.getUint32 (headerTable n r ++ payload) 24
     = Some (r mod 4294967296)
  /\ DataView.getUint32 (headerTable n r ++ payload) 28
     = Some ((r * 2) mod 4294967296)
  /\ DataView.getUint32 (headerTable n r ++ payload) 40
     = Some (Z.of_nat n mod 4294967296).
Proof.
  rewrite headerTable_bytes. cbv zeta. unfold DataView.getUint32.
  cbn [app skipn]. rewrite !le32_value. repeat split.
Qed.

(** C1, as the code has it. For every payload and every integer sample
    rate [createWavBlob] returns a blob of 44 + payload length bytes of
    type audio/wav: bytes 0-3 RIFF, 8-11 WAVE, 12-15 fmt, 36-39 data, the
    16-bit fields 1, 1, 2, 16, the subchunk size 16, and the four variable
    32-bit fields holding 36 + payload length, the rate, the rate times 2
    and the payload length, each reduced modulo 2^32 by [setUint32]; the
    payload follows unchanged. *)
Theorem createWavBlob_header_fields (pcmData : list byte) (sampleRate : Z) :
  exists blob,
    createWavBlob pcmData sampleRate = Ok blob
    /\ blob_type blob = "audio/wav"%string
    /\ blob_size blob = (44 + length pcmData)%nat
    /\ slice (blob_bytes blob) 0 4 = asciiBytes "RIFF"
    /\ DataView.getUint32 (blob_bytes blob) 4
       = Some ((36 + Z.of_nat (length pcmData)) mod 4294967296)
    /\ slice (blob_bytes blob) 8 4 = asciiBytes "WAVE"
    /\ slice (blob_bytes blob) 12 4 = asciiBytes "fmt "
    /\ DataView.getUint32 (blob_bytes blob) 16 = Some 16
    /\ DataView.getUint16 (blob_bytes blob) 20 = Some 1
    /\ DataView.getUint16 (blob_bytes blob) 22 = Some 1
    /\ DataView.getUint32 (blob_bytes blob) 24
       = Some (sampleRate mod 4294967296)
    /\ DataView.getUint32 (blob_bytes blob) 28
       = Some ((sampleRate * 2) mod 4294967296)
    /\ DataView.getUint16 (blob_bytes blob) 32 = Some 2
    /\ DataView.getUint16 (blob_bytes blob) 34 = Some 16
    /\ slice (blob_bytes blob) 36 4 = asciiBytes "data"
    /\ DataView.getUint32 (blob_bytes blob) 40
       = Some (Z.of_nat (length pcmData) mod 4294967296)
    /\ skipn 44 (blob_bytes blob) = pcmData.
Proof.
  eexists. split; [apply createWavBlob_bytes|].
  unfold blob_size. cbn [blob_bytes blob_type].
  destruct (headerTable_variable_fields (length pcmData) sampleRate pcmData)
    as (H4 & H24 & H28 & H40).
  rewrite H4, H24, H28, H40.
  split; [reflexivity|].
  split; [rewrite length_app, headerTable_length; reflexivity|].
  rewrite headerTable_bytes. cbv zeta.
  unfold slice, DataView.getUint32, DataView.getUint16.
  cbn [app skipn firstn]. repeat split.
Qed.

(** With the rate below 2^31 and the payload shorter than 2^32 - 36 bytes
    the four variable fields hold the numbers themselves. *)
Lemma createWavBlob_header_exact (pcmData : list byte) (sampleRate : Z) :
  0 < sampleRate < 2147483648 ->
  Z.of_nat (length pcmData) < 4294967260 ->
  exists blob,
    createWavBlob pcmData sampleRate = Ok blob
    /\ DataView.getUint32 (blob_bytes blob) 4
       = Some (36 + Z.of_nat (length pcmData))
    /\ DataView.getUint32 (blob_bytes blob) 24 = Some sampleRate
    /\ DataView.getUint32 (blob_bytes blob) 28 = Some (sampleRate * 2)
    /\ DataView.getUint32 (blob_bytes blob) 40
       = Some (Z.of_nat (length pcmData)).
Proof.
  intros Hr Hl. eexists. split; [apply createWavBlob_bytes|].
  cbn [blob_bytes].
  destruct (headerTable_variable_fields (length pcmData) sampleRate pcmData)
    as (H4 & H24 & H28 & H40).
  rewrite H4, H24, H28, H40, !Z.mod_small by lia. auto.
Qed.

(** C1 as stated fails for a rate that does not fit the field: at the
    positive rate 2^32 and the empty payload bytes 24-27 are zero. *)
Lemma createWavBlob_rate_field_wraps :
  0 < 4294967296
  /\ exists blob,
       createWavBlob [] 4294967296 = Ok blob
       /\ slice (blob_bytes blob) 24 4 = [x00; x00; x00; x00]
       /\ DataView.getUint32 (blob_bytes blob) 24 = Some 0
       /\ DataView.getUint32 (blob_bytes blob) 24 <> Some 4294967296.
Proof.
  split; [lia|]. eexists. split; [apply createWavBlob_bytes|].
  cbn [blob_bytes]. split; [vm_compute; reflexivity|].
  assert (E : DataView.getUint32 (headerTable 0 4294967296 ++ []) 24 = Some 0)
    by (vm_compute; reflexivity).
  cbn [length]. rewrite E. split; [reflexivity | discriminate].
Qed.

(** ** The codec *)

Section Base64Facts.

Import Base64.

Lemma sextet_cases (P : Z -> Prop) :
  Forall P (map Z.of_nat (seq 0 64)) -> forall s, isSextet s -> P s.
Proof.
  intros H s Hs. unfold isSextet in Hs. rewrite Forall_forall in H.
  apply H. apply in_map_iff. exists (Z.to_nat s). split; [lia|].
  apply in_seq. lia.
Qed.

Lemma charSextet_sextetChar (s : Z) :
  isSextet s -> charSextet (sextetChar s) = Some s.
Proof.
  revert s. apply sextet_cases.
  repeat (constructor; [reflexivity|]). constructor.
Qed.

Lemma sextetChar_not_pad (s : Z) :
  isSextet s -> Ascii.eqb (sextetChar s) pad = false.
Proof.
  revert s. apply sextet_cases.
  repeat (constructor; [reflexivity|]). constructor.
Qed.

Lemma sextetChar_not_whitespace (s : Z) :
  isSextet s -> isAsciiWhitespace (sextetChar s) = false.
Proof.
  revert s. apply sextet_cases.
  repeat (constructor; [reflexivity|]). constructor.
Qed.

Lemma list_ind3 {A : Type} (P : list A -> Prop) :
  P [] ->
  (forall a, P [a]) ->
  (forall a b, P [a; b]) ->
  (forall a b c rest, P rest -> P (a :: b :: c :: rest)) ->
  forall l, P l.
Proof.
  intros H0 H1 H2 H3.
  assert (H : forall l, P l /\ (forall a, P (a :: l))
                        /\ (forall a b, P (a :: b :: l))).
  { induction l as [|x l (IH0 & IH1 & IH2)].
    - auto.
    - repeat split; auto. }
  intro l. apply H.
Qed.

Lemma mod4_step (n : nat) : (S (S (S (S n))) mod 4 = n mod 4)%nat.
Proof.
  replace (S (S (S (S n)))) with (n + 1 * 4)%nat by lia.
  apply Nat.Div0.mod_add.
Qed.

(** The characters produced for a binary string: sextet characters that
    decode back to the string, followed by at most two pads. *)
Lemma encodeBytes_shape (bin : list Z) :
  Forall isOctet bin ->
  exists ss padding,
    encodeBytes bin = map sextetChar ss ++ padding
    /\ Forall isSextet ss
    /\ (padding = [] \/ padding = [pad] \/ padding = [pad; pad])
    /\ (length (map sextetChar ss ++ padding) mod 4 = 0)%nat
    /\ (length ss mod 4 <> 1)%nat
    /\ decodeSextets ss = bin.
Proof.
  induction bin as [|a|a b|a b c rest IH] using list_ind3; intro Hoct.
  - exists [], []. repeat split; auto.
  - inversion_clear Hoct as [|? ? Ha _]. unfold isOctet in Ha.
    exists [a / 4; (a mod 4) * 16], [pad; pad].
    split; [reflexivity|].
    split; [repeat constructor; unfold isSextet; lia|].
    split; [auto|]. split; [reflexivity|]. split; [cbn; lia|].
    cbn [decodeSextets]. f_equal. lia.
  - inversion_clear Hoct as [|? ? Ha Hr].
    inversion_clear Hr as [|? ? Hb _]. unfold isOctet in Ha, Hb.
    exists [a / 4; (a mod 4) * 16 + b / 16; (b mod 16) * 4], [pad].
    split; [reflexivity|].
    split; [repeat constructor; unfold isSextet; lia|].
    split; [auto|]. split; [reflexivity|]. split; [cbn; lia|].
    cbn [decodeSextets]. f_equal; [lia|]. f_equal. lia.
  - inversion_clear Hoct as [|? ? Ha Hr].
    inversion_clear Hr as [|? ? Hb Hr'].
    inversion_clear Hr' as [|? ? Hc Hrest].
    unfold isOctet in Ha, Hb, Hc.
    destruct (IH Hrest) as (ss & padding & He & Hss & Hp & Hlen & Hn1 & Hd).
    exists (a / 4 :: (a mod 4) * 16 + b / 16
            :: (b mod 16) * 4 + c / 64 :: c mod 64 :: ss), padding.
    split; [cbn [encodeBytes map app]; rewrite He; reflexivity|].
    split; [repeat (constructor; [unfold isSextet; lia|]); exact Hss|].
    split; [exact Hp|].
    split.
    { cbn [map app length]. rewrite mod4_step. exact Hlen. }
    split.
    { cbn [length]. rewrite mod4_step. exact Hn1. }
    cbn [decodeSextets]. rewrite Hd.
    f_equal; [lia|]. f_equal; [lia|]. f_equal. lia.
Qed.

Lemma sextets_sextetChar (ss : list Z) :
  Forall isSextet ss -> sextets (map sextetChar ss) = Some ss.
Proof.
  induction 1 as [|s ss Hs _ IH]; [reflexivity|].
  cbn [map sextets]. rewrite (charSextet_sextetChar s Hs), IH. reflexivity.
Qed.

Lemma no_whitespace_in_output (ss : list Z) (padding : list ascii) :
  Forall isSextet ss ->
  padding = [] \/ padding = [pad] \/ padding = [pad; pad] ->
  filter (fun c => negb (isAsciiWhitespace c)) (map sextetChar ss ++ padding)
  = map sextetChar ss ++ padding.
Proof.
  intros Hss Hp. apply forallb_filter_id. rewrite forallb_app.
  apply andb_true_intro. split.
  - rewrite forallb_forall. intros c Hc.
    apply in_map_iff in Hc. destruct Hc as (s & <- & Hin).
    rewrite Forall_forall in Hss.
    rewrite (sextetChar_not_whitespace s (Hss s Hin)). reflexivity.
  - destruct Hp as [-> | [-> | ->]]; reflexivity.
Qed.

Lemma stripPadding_output (ss : list Z) (padding : list ascii) :
  Forall isSextet ss ->
  padding = [] \/ padding = [pad] \/ padding = [pad; pad] ->
  stripPadding (map sextetChar ss ++ padding) = map sextetChar ss.
Proof.
  intros Hss Hp.
  assert (Hbody : forall c, In c (rev (map sextetChar ss)) ->
                            Ascii.eqb c pad = false).
  { intros c Hc. apply in_rev in Hc. apply in_map_iff in Hc.
    destruct Hc as (s & <- & Hin). rewrite Forall_forall in Hss.
    apply sextetChar_not_pad, Hss, Hin. }
  unfold stripPadding.
  destruct Hp as [-> | [-> | ->]].
  - rewrite app_nil_r.
    destruct (rev (map sextetChar ss)) as [|p1 [|p2 rest]] eqn:E;
      [reflexivity | |]; rewrite (Hbody p1) by (left; reflexivity);
      reflexivity.
  - rewrite rev_app_distr. cbn [rev app].
    destruct (rev (map sextetChar ss)) as [|p2 rest] eqn:E.
    + cbn. apply (f_equal (@rev ascii)) in E.
      rewrite rev_involutive in E. symmetry. exact E.
    + rewrite (Hbody p2) by (left; reflexivity).
      change (Ascii.eqb pad pad) with true. cbv match.
      change (rev rest ++ [p2]) with (rev (p2 :: rest)).
      rewrite <- E. apply rev_involutive.
  - rewrite rev_app_distr. cbn [rev app].
    change (Ascii.eqb pad pad) with true. cbv match.
    apply rev_involutive.
Qed.

(** [atob] undoes [btoa] on every binary string of octets. *)
Lemma atob_btoa (bin : list Z) :
  Forall isOctet bin ->
  exists text, btoa bin = Ok text /\ atob text = Ok bin.
Proof.
  intro Hoct.
  destruct (encodeBytes_shape bin Hoct)
    as (ss & padding & He & Hss & Hp & Hlen & Hn1 & Hd).
  exists (string_of_list_ascii (encodeBytes bin)). split.
  - unfold btoa.
    replace (forallb (fun c => c <=? 255) bin) with true; [reflexivity|].
    symmetry. apply forallb_forall. intros c Hc.
    rewrite Forall_forall in Hoct. specialize (Hoct c Hc).
    unfold isOctet in Hoct. lia.
  - unfold atob. rewrite list_ascii_of_string_of_list_ascii, He.
    rewrite (no_whitespace_in_output ss padding Hss Hp).
    rewrite Hlen. cbn [Nat.eqb].
    rewrite (stripPadding_output ss padding Hss Hp).
    rewrite length_map.
    destruct (length ss mod 4 =? 1)%nat eqn:E1.
    + apply Nat.eqb_eq in E1. contradiction.
    + rewrite (sextets_sextetChar ss Hss), Hd. reflexivity.
Qed.

Lemma binary_of_bytes (bytes : list byte) (acc : list Z) :
  fold_left (fun acc b => acc ++ [byteval b]) bytes acc
  = acc ++ map byteval bytes.
Proof.
  revert acc. induction bytes as [|b bytes IH]; intro acc; cbn [fold_left map].
  - symmetry. apply app_nil_r.
  - rewrite IH, <- app_assoc. reflexivity.
Qed.

End Base64Facts.

(** C3. For every byte buffer [b], the empty one and those holding any of
    the 256 byte values included, [encode] returns a text and [decode]
    of that text returns [b]. *)
Theorem decode_encode_roundtrip (b : list byte) :
  exists text, encode b = Ok text /\ decode text = Ok b.
Proof.
  assert (Hoct : Forall isOctet (map byteval b)).
  { apply Forall_forall. intros z Hz. apply in_map_iff in Hz.
    destruct Hz as (x & <- & _). apply byteval_range. }
  destruct (atob_btoa (map byteval b) Hoct) as (text & Hen & Hde).
  exists text. split.
  - unfold encode. rewrite binary_of_bytes. exact Hen.
  - unfold decode. rewrite Hde. cbn [bind]. rewrite map_map. f_equal.
    rewrite <- (map_id b) at 2. apply map_ext. exact u8_byteval.
Qed.

(** ** The sample decoder *)

Section Decoder.

Lemma list_ind2 {A : Type} (P : list A -> Prop) :
  P [] ->
  (forall a, P [a]) ->
  (forall a b rest, P rest -> P (a :: b :: rest)) ->
  forall l, P l.
Proof.
  intros H0 H1 H2.
  assert (H : forall l, P l /\ forall a, P (a :: l)).
  { induction l as [|x l (IH0 & IH1)]; split; auto. }
  intro l. apply H.
Qed.

Lemma int16Elements_length (data : list byte) :
  length (int16Elements data) = (length data / 2)%nat.
Proof.
  induction data as [|a|a b rest IH] using list_ind2; try reflexivity.
  cbn [int16Elements length]. rewrite IH.
  replace (S (S (length rest))) with (length rest + 1 * 2)%nat by lia.
  rewrite Nat.div_add by discriminate. lia.
Qed.

Lemma int16Elements_nth (data : list byte) (k : nat) :
  nth_error (int16Elements data) k = int16At data k.
Proof.
  revert k.
  induction data as [|a|a b rest IH] using list_ind2; intro k.
  - unfold int16At. destruct k; reflexivity.
  - unfold int16At. destruct k as [|k]; [reflexivity|].
    cbn [int16Elements nth_error].
    replace (2 * S k)%nat with (S (S (2 * k))) by lia.
    cbn [nth_error]. destruct (2 * k)%nat; reflexivity.
  - destruct k as [|k]; [reflexivity|].
    cbn [int16Elements nth_error]. rewrite IH. unfold int16At.
    replace (2 * S k)%nat with (S (S (2 * k))) by lia.
    replace (S (S (2 * k)) + 1)%nat with (S (S (2 * k + 1))) by lia.
    reflexivity.
Qed.

Lemma int16At_range (data : list byte) (k : nat) (v : Z) :
  int16At data k = Some v -> -32768 <= v <= 32767.
Proof.
  unfold int16At.
  destruct (nth_error data (2 * k)) as [lo|]; [|discriminate].
  destruct (nth_error data (2 * k + 1)) as [hi|]; [|discriminate].
  cbv zeta.
  pose proof (byteval_range lo). pose proof (byteval_range hi).
  destruct (byteval lo + 256 * byteval hi <? 32768) eqn:E; intro Hv.
  - assert (v = byteval lo + 256 * byteval hi) by congruence. lia.
  - assert (v = byteval lo + 256 * byteval hi - 65536) by congruence. lia.
Qed.

Lemma setIndex_app {A : Type} (pre post : list A) (x v : A) :
  setIndex (pre ++ x :: post) (length pre) v = pre ++ v :: post.
Proof.
  induction pre as [|p pre IH]; [reflexivity|].
  cbn [app length setIndex]. rewrite IH. reflexivity.
Qed.

Lemma setIndex_beyond {A : Type} (l : list A) (i : nat) (v : A) :
  (length l <= i)%nat -> setIndex l i v = l.
Proof.
  revert i. induction l as [|x l IH]; intros i Hi; [reflexivity|].
  destruct i as [|i]; cbn [length] in Hi; [lia|].
  cbn [setIndex]. rewrite IH by lia. reflexivity.
Qed.

Lemma fill_beyond {A : Type} (f : nat -> A) (m : nat) :
  forall (l : list A) (k : nat),
    (length l <= k)%nat ->
    fold_left (fun cd i => setIndex cd i (f i)) (seq k m) l = l.
Proof.
  induction m as [|m IHm]; intros l k Hk; [reflexivity|].
  cbn [seq fold_left]. rewrite setIndex_beyond by exact Hk.
  apply IHm. lia.
Qed.

(** A loop that assigns [f i] at every index [i] of a range covering the
    array leaves [f] tabulated. *)
Lemma fill_from {A : Type} (f : nat -> A) (n : nat) :
  forall (post pre : list A),
    (length post <= n)%nat ->
    fold_left (fun cd i => setIndex cd i (f i)) (seq (length pre) n)
      (pre ++ post)
    = pre ++ map f (seq (length pre) (length post)).
Proof.
  induction n as [|n IH]; intros post pre Hn.
  - destruct post; [reflexivity | cbn [length] in Hn; lia].
  - destruct post as [|x post].
    + rewrite app_nil_r, fill_beyond by lia.
      cbn [length seq map]. rewrite app_nil_r. reflexivity.
    + cbn [seq fold_left]. rewrite setIndex_app.
      replace (pre ++ f (length pre) :: post)
        with ((pre ++ [f (length pre)]) ++ post)
        by (rewrite <- app_assoc; reflexivity).
      replace (S (length pre)) with (length (pre ++ [f (length pre)]))
        by (rewrite length_app; cbn; lia).
      rewrite IH by (cbn [length] in Hn; lia).
      rewrite <- app_assoc. cbn [length seq map app].
      replace (length (pre ++ [f (length pre)])) with (S (length pre))
        by (rewrite length_app; cbn; lia).
      reflexivity.
Qed.

Lemma fillChannel_tabulates (dataInt16 : list Z) (nch channel n : nat)
    (channelData : list JsNumber) :
  (length channelData <= n)%nat ->
  fillChannel dataInt16 nch channel (seq 0 n) channelData
  = map (fun i => normalized dataInt16 (i * nch + channel))
      (seq 0 (length channelData)).
Proof.
  intro Hn. unfold fillChannel.
  exact (fill_from (fun i => normalized dataInt16 (i * nch + channel))
           n channelData [] Hn).
Qed.

(** The loop over the channels replaces each channel by its filled
    version. *)
Lemma channels_from {A : Type} (g : nat -> A -> A) :
  forall (post pre : list A),
    fold_left
      (fun chans c =>
         match nth_error chans c with
         | Some cd => setIndex chans c (g c cd)
         | None => chans
         end)
      (seq (length pre) (length post)) (pre ++ post)
    = pre ++ map (fun p => g (fst p) (snd p))
               (combine (seq (length pre) (length post)) post).
Proof.
  induction post as [|x post IH]; intro pre; [reflexivity|].
  cbn [length seq fold_left combine map fst snd].
  rewrite nth_error_app2 by lia. rewrite Nat.sub_diag. cbn [nth_error].
  rewrite setIndex_app.
  replace (pre ++ g (length pre) x :: post)
    with ((pre ++ [g (length pre) x]) ++ post)
    by (rewrite <- app_assoc; reflexivity).
  replace (S (length pre)) with (length (pre ++ [g (length pre) x]))
    by (rewrite length_app; cbn; lia).
  rewrite IH, <- app_assoc. reflexivity.
Qed.

Lemma combine_seq_repeat {A B : Type} (h : nat -> A -> B) (x : A) (n a : nat) :
  map (fun p => h (fst p) (snd p)) (combine (seq a n) (repeat x n))
  = map (fun c => h c x) (seq a n).
Proof.
  revert a. induction n as [|n IH]; intro a; [reflexivity|].
  cbn [seq repeat combine map fst snd]. rewrite IH. reflexivity.
Qed.

Lemma createBuffer_supported (ctx : AudioContext) (nch len : nat) (rate : Z) :
  supports ctx nch rate -> (1 <= len)%nat ->
  createBuffer ctx nch len rate
  = Ok (mkAudioBuffer nch len rate (repeat (repeat (Num 0) len) nch)).
Proof.
  intros ((H1 & H2) & H3 & H4) Hlen. unfold createBuffer.
  replace (1 <=? nch)%nat with true by (symmetry; apply Nat.leb_le; lia).
  replace (nch <=? maxChannelCount ctx)%nat with true
    by (symmetry; apply Nat.leb_le; lia).
  replace (1 <=? len)%nat with true by (symmetry; apply Nat.leb_le; lia).
  replace (minSampleRate ctx <=? rate) with true by (symmetry; lia).
  replace (rate <=? maxSampleRate ctx) with true by (symmetry; lia).
  reflexivity.
Qed.

(** The decoded buffer in closed form. *)
Lemma decodeAudioToBuffer_even (data : list byte) (ctx : AudioContext)
    (rate : Z) (nch : nat) :
  Nat.even (length data) = true ->
  supports ctx nch rate ->
  (1 <= length data / 2 / nch)%nat ->
  decodeAudioToBuffer data ctx rate nch
  = Ok (mkAudioBuffer nch (length data / 2 / nch) rate
          (map (fun c =>
                  map (fun i => normalized (int16Elements data) (i * nch + c))
                    (seq 0 (length data / 2 / nch)))
             (seq 0 nch))).
Proof.
  intros Heven Hsup Hframes.
  unfold decodeAudioToBuffer, newInt16Array. rewrite Heven. cbn [bind].
  rewrite int16Elements_length.
  rewrite (createBuffer_supported ctx nch _ rate Hsup Hframes). cbn [bind].
  cbn [numberOfChannels frames bufferRate channels]. do 2 f_equal.
  set (F := (length data / 2 / nch)%nat).
  set (n := ((length data / 2 + nch - 1) / nch)%nat).
  assert (HFn : (F <= n)%nat).
  { subst F n. apply Nat.Div0.div_le_mono. destruct Hsup as ((? & _) & _). lia. }
  pose proof (channels_from
    (fun c cd => fillChannel (int16Elements data) nch c (seq 0 n) cd)
    (repeat (repeat (Num 0) F) nch) []) as Hc.
  rewrite repeat_length in Hc. cbn [app length] in Hc. rewrite Hc.
  rewrite (combine_seq_repeat
    (fun c cd => fillChannel (int16Elements data) nch c (seq 0 n) cd)).
  apply map_ext. intro c.
  rewrite fillChannel_tabulates by (rewrite repeat_length; exact HFn).
  rewrite repeat_length. reflexivity.
Qed.

End Decoder.

Lemma nth_error_tabulate {A : Type} (f : nat -> A) (n k : nat) :
  (k < n)%nat -> nth_error (map f (seq 0 n)) k = Some (f k).
Proof.
  intro Hk. rewrite nth_error_map, nth_error_seq.
  destruct (Nat.ltb_spec k n) as [_|Hge]; [reflexivity | lia].
Qed.

(** C2, as the code has it. For every [n], decoding a buffer of odd byte
    length [2n+1] fails: [new Int16Array(data.buffer)] throws a
    [RangeError], the promise is rejected and no frame is produced; the
    trailing byte is not dropped. *)
Theorem decodeAudioToBuffer_odd_length_rejected
    (n : nat) (data : list byte) (ctx : AudioContext) (rate : Z) (nch : nat) :
  length data = (2 * n + 1)%nat ->
  decodeAudioToBuffer data ctx rate nch = Throw RangeError.
Proof.
  intro Hlen. unfold decodeAudioToBuffer, newInt16Array.
  replace (Nat.even (length data)) with false; [reflexivity|].
  symmetry. rewrite Hlen, Nat.add_comm, Nat.even_add_mul_2. reflexivity.
Qed.

Lemma decodeAudioToBuffer_odd_length_rejected_witness :
  length [x01; x02; x03] = (2 * 1 + 1)%nat
  /\ decodeAudioToBuffer [x01; x02; x03] (mkAudioContext 32 8000 96000)
       defaultSampleRate 1 = Throw RangeError.
Proof.
  split; [reflexivity|].
  apply (decodeAudioToBuffer_odd_length_rejected 1). reflexivity.
Defined.

(** C2 as stated fails: the three-byte buffer (n = 1), decoded mono with the
    default rate, gives no buffer of one frame but a [RangeError]. *)
Lemma decodeAudioToBuffer_three_bytes_fail :
  length [x01; x02; x03] = (2 * 1 + 1)%nat
  /\ decodeAudioToBuffer [x01; x02; x03] (mkAudioContext 32 8000 96000)
       defaultSampleRate 1 = Throw RangeError
  /\ ~ exists buffer,
         decodeAudioToBuffer [x01; x02; x03] (mkAudioContext 32 8000 96000)
           defaultSampleRate 1 = Ok buffer
         /\ frames buffer = 1%nat.
Proof.
  split; [reflexivity|]. split; [reflexivity|].
  intros (buffer & H & _). discriminate H.
Qed.

(** An even length of [2n] bytes, [n] positive, decodes mono to [n]
    frames. *)
Lemma decodeAudioToBuffer_even_frames
    (n : nat) (data : list byte) (ctx : AudioContext) (rate : Z) :
  length data = (2 * n)%nat -> (1 <= n)%nat -> supports ctx 1 rate ->
  exists buffer,
    decodeAudioToBuffer data ctx rate 1 = Ok buffer /\ frames buffer = n.
Proof.
  intros Hlen Hn Hsup.
  assert (Hdiv : (length data / 2 / 1 = n)%nat).
  { rewrite Nat.div_1_r, Hlen, Nat.mul_comm. apply Nat.div_mul. discriminate. }
  eexists. split.
  - apply decodeAudioToBuffer_even; [|exact Hsup|lia].
    rewrite Hlen. apply Nat.even_spec. exists n. reflexivity.
  - cbn [frames]. exact Hdiv.
Qed.

(** C4. For an even-length PCM buffer and a context that accepts the
    channel count and the rate, the decoder returns a buffer of
    [floor(samples / channels)] frames in which the sample of frame [i] and
    channel [c] is the quotient by 32768 of the signed 16-bit little-endian
    integer number [i * channelCount + c] of the buffer; and the buffer
    holding 0, 32767, -32768, -1 decodes to 0, 32767/32768, -1,
    -1/32768. *)
Theorem decodeAudioToBuffer_normalizes
    (data : list byte) (ctx : AudioContext) (rate : Z) (nch i c : nat) :
  Nat.even (length data) = true ->
  supports ctx nch rate ->
  (c < nch)%nat ->
  (i < length data / 2 / nch)%nat ->
  (exists buffer channelData v,
     decodeAudioToBuffer data ctx rate nch = Ok buffer
     /\ numberOfChannels buffer = nch
     /\ frames buffer = (length data / 2 / nch)%nat
     /\ bufferRate buffer = rate
     /\ nth_error (channels buffer) c = Some channelData
     /\ length channelData = frames buffer
     /\ int16At data (i * nch + c) = Some v
     /\ -32768 <= v <= 32767
     /\ nth_error channelData i = Some (Num (v # 32768)))
  /\ decodeAudioToBuffer [x00; x00; xff; x7f; x00; x80; xff; xff] ctx rate 1
     = Ok (mkAudioBuffer 1 4 rate
             [[Num (0 # 32768); Num (32767 # 32768);
               Num (-32768 # 32768); Num (-1 # 32768)]])
  /\ (0 # 32768 == 0)%Q
  /\ (-32768 # 32768 == -1)%Q.
Proof.
  intros Heven Hsup Hc Hi. split.
  - set (F := (length data / 2 / nch)%nat) in *.
    assert (Hk : (i * nch + c < length (int16Elements data))%nat).
    { rewrite int16Elements_length.
      pose proof (Nat.Div0.mul_div_le (length data / 2) nch) as Hle.
      fold F in Hle. nia. }
    destruct (nth_error (int16Elements data) (i * nch + c)) as [v|] eqn:Ev;
      [|apply nth_error_None in Ev; lia].
    eexists. exists (map (fun j => normalized (int16Elements data) (j * nch + c))
                       (seq 0 F)), v.
    split; [apply decodeAudioToBuffer_even; [exact Heven|exact Hsup|fold F; lia]|].
    cbn [numberOfChannels frames bufferRate channels]. fold F.
    split; [reflexivity|]. split; [reflexivity|]. split; [reflexivity|].
    split;
      [exact (nth_error_tabulate
                (fun c' => map (fun j => normalized (int16Elements data)
                                           (j * nch + c')) (seq 0 F))
                nch c Hc)|].
    split; [rewrite length_map, length_seq; reflexivity|].
    rewrite <- int16Elements_nth.
    split; [exact Ev|].
    split; [apply (int16At_range data (i * nch + c));
            rewrite <- int16Elements_nth; exact Ev|].
    rewrite (nth_error_tabulate
               (fun j => normalized (int16Elements data) (j * nch + c)) F i Hi).
    unfold normalized. rewrite Ev. reflexivity.
  - split; [|split; reflexivity].
    assert (Hsup1 : supports ctx 1 rate).
    { destruct Hsup as ((H1 & H2) & H3). repeat split; lia. }
    rewrite (decodeAudioToBuffer_even
               [x00; x00; xff; x7f; x00; x80; xff; xff] ctx rate 1
               eq_refl Hsup1);
      [reflexivity | cbn; lia].
Qed.

Lemma decodeAudioToBuffer_normalizes_witness :
  Nat.even (length [x00; x00; xff; x7f; x00; x80; xff; xff]) = true
  /\ supports (mkAudioContext 32 8000 96000) 1 24000
  /\ (0 < 1)%nat
  /\ (2 < length [x00; x00; xff; x7f; x00; x80; xff; xff] / 2 / 1)%nat
  /\ exists buffer channelData,
       decodeAudioToBuffer [x00; x00; xff; x7f; x00; x80; xff; xff]
         (mkAudioContext 32 8000 96000) 24000 1 = Ok buffer
       /\ nth_error (channels buffer) 0 = Some channelData
       /\ nth_error channelData 2 = Some (Num (-32768 # 32768)).
Proof.
  assert (H1 : Nat.even (length [x00; x00; xff; x7f; x00; x80; xff; xff]) = true)
    by reflexivity.
  assert (H2 : supports (mkAudioContext 32 8000 96000) 1 24000)
    by (unfold supports; cbn; lia).
  assert (H3 : (0 < 1)%nat) by lia.
  assert (H4 : (2 < length [x00; x00; xff; x7f; x00; x80; xff; xff] / 2 / 1)%nat)
    by (cbn; lia).
  repeat (split; [assumption|]).
  destruct (decodeAudioToBuffer_normalizes
              [x00; x00; xff; x7f; x00; x80; xff; xff]
              (mkAudioContext 32 8000 96000) 24000 1 2 0 H1 H2 H3 H4)
    as ((buffer & channelData & v & Hd & _ & _ & _ & Hch & _ & Hv & _ & Hs) & _).
  exists buffer, channelData. split; [exact Hd|]. split; [exact Hch|].
  vm_compute in Hv. injection Hv as <-. exact Hs.
Defined.

(** ** The track concatenator *)

Section Concatenator.

Lemma presentBuffers_app (pre post : list AudioBlock) :
  presentBuffers (pre ++ post) = presentBuffers pre ++ presentBuffers post.
Proof.
  apply flat_map_app.
Qed.

Lemma totalLength_sum (blocks : list AudioBlock) (acc : nat) :
  fold_left addLength blocks acc
  = (acc + length (concat (presentBuffers blocks)))%nat.
Proof.
  revert acc. induction blocks as [|b blocks IH]; intro acc.
  - cbn. lia.
  - cbn [fold_left]. rewrite IH. unfold addLength, presentBuffers.
    cbn [flat_map]. fold (presentBuffers blocks).
    destruct (audioData b) as [d|]; cbn [app concat].
    + rewrite length_app. lia.
    + lia.
Qed.

Lemma typedArraySet_at (done room source : list byte) :
  (length source <= length room)%nat ->
  typedArraySet (done ++ room) source (length done)
  = Ok (done ++ source ++ skipn (length source) room).
Proof.
  intro Hfit. unfold typedArraySet, DataView.store.
  replace (length done + length source <=? length (done ++ room))%nat
    with true by (symmetry; apply Nat.leb_le; rewrite length_app; lia).
  rewrite firstn_app, firstn_all, Nat.sub_diag, firstn_O, app_nil_r.
  rewrite skipn_app, skipn_all2 by lia.
  replace (length done + length source - length done)%nat
    with (length source) by lia.
  reflexivity.
Qed.

(** The loop invariant: what has been copied so far is a prefix, and the
    room left is enough for the buffers still to come. *)
Lemma copyBlocks_from (blocks : list AudioBlock) :
  forall (done room : list byte),
    (length (concat (presentBuffers blocks)) <= length room)%nat ->
    fold_left copyBlock blocks (Ok (done ++ room, length done))
    = Ok (done ++ concat (presentBuffers blocks)
            ++ skipn (length (concat (presentBuffers blocks))) room,
          (length done + length (concat (presentBuffers blocks)))%nat).
Proof.
  induction blocks as [|b blocks IH]; intros done room Hroom.
  - cbn. rewrite Nat.add_0_r. reflexivity.
  - cbn [fold_left]. unfold copyBlock at 2. cbn [bind fst snd].
    unfold presentBuffers in *. cbn [flat_map] in *.
    fold (presentBuffers blocks) in *.
    destruct (audioData b) as [d|]; cbn [app concat] in *.
    + rewrite length_app in Hroom.
      rewrite typedArraySet_at by lia. cbn [bind].
      rewrite (app_assoc done d), <- (length_app done d).
      rewrite IH by (rewrite length_skipn; lia).
      rewrite skipn_skipn, !length_app, <- !app_assoc.
      rewrite (Nat.add_comm (length (concat (presentBuffers blocks)))).
      rewrite Nat.add_assoc. reflexivity.
    + apply IH. exact Hroom.
Qed.

Lemma concatenateToSingleWav_payload (blocks : list AudioBlock) :
  concatenateToSingleWav blocks
  = createWavBlob (concat (presentBuffers blocks)) defaultSampleRate.
Proof.
  unfold concatenateToSingleWav. cbv zeta.
  rewrite totalLength_sum. cbn [Nat.add].
  pose proof (copyBlocks_from blocks []
                (zeroed (length (concat (presentBuffers blocks))))) as H.
  cbn [app length] in H. rewrite H by (unfold zeroed; rewrite repeat_length; lia).
  cbn [bind fst].
  rewrite skipn_all2 by (unfold zeroed; rewrite repeat_length; lia).
  rewrite app_nil_r. reflexivity.
Qed.

End Concatenator.

(** C5. For every list of segments [concatenateToSingleWav] returns the
    container framed from the concatenation, in the order of the segments,
    of the buffers that are present: segments without buffer contribute
    nothing, the payload length is the sum of the buffer lengths, and byte
    [j] of the buffer of a segment sits at payload offset (total length of
    the buffers before that segment) + [j]. *)
Theorem concatenateToSingleWav_concatenates (blocks : list AudioBlock) :
  exists blob,
    concatenateToSingleWav blocks = Ok blob
    /\ createWavBlob (concat (presentBuffers blocks)) defaultSampleRate
       = Ok blob
    /\ firstn 44 (blob_bytes blob)
       = headerTable (length (concat (presentBuffers blocks)))
           defaultSampleRate
    /\ skipn 44 (blob_bytes blob) = concat (presentBuffers blocks)
    /\ length (skipn 44 (blob_bytes blob))
       = list_sum (map (@length byte) (presentBuffers blocks))
    /\ forall pre b post d j x,
         blocks = pre ++ b :: post ->
         audioData b = Some d ->
         nth_error d j = Some x ->
         nth_error (skipn 44 (blob_bytes blob))
           (length (concat (presentBuffers pre)) + j) = Some x.
Proof.
  eexists. split.
  { rewrite concatenateToSingleWav_payload. apply createWavBlob_bytes. }
  split; [apply createWavBlob_bytes|].
  cbn [blob_bytes].
  set (payload := concat (presentBuffers blocks)).
  assert (Hskip : skipn 44 (headerTable (length payload) defaultSampleRate
                            ++ payload) = payload).
  { rewrite skipn_app, headerTable_length, Nat.sub_diag.
    rewrite skipn_all2 by (rewrite headerTable_length; lia). reflexivity. }
  split.
  { rewrite firstn_app, headerTable_length, Nat.sub_diag, firstn_O, app_nil_r.
    apply firstn_all2. rewrite headerTable_length. lia. }
  rewrite Hskip. split; [reflexivity|]. split.
  { subst payload. apply length_concat. }
  intros pre b post d j x -> Hd Hx. subst payload.
  rewrite presentBuffers_app, concat_app.
  rewrite nth_error_app2 by lia.
  replace (length (concat (presentBuffers pre)) + j
           - length (concat (presentBuffers pre)))%nat with j by lia.
  unfold presentBuffers at 1. cbn [flat_map]. rewrite Hd. cbn [app concat].
  rewrite nth_error_app1 by (apply nth_error_Some; congruence).
  exact Hx.
Qed.

Lemma concatenateToSingleWav_concatenates_witness :
  exists blob,
    concatenateToSingleWav
      [mkAudioBlock "a" "" (Some [x01; x02; x03]) None false false None;
       mkAudioBlock "b" "" None None false false None;
       mkAudioBlock "c" "" (Some [x04; x05; x06; x07; x08]) None false false None]
    = Ok blob
    /\ skipn 44 (blob_bytes blob) = [x01; x02; x03; x04; x05; x06; x07; x08]
    /\ nth_error (skipn 44 (blob_bytes blob)) (3 + 1) = Some x05.
Proof.
  destruct (concatenateToSingleWav_concatenates
    [mkAudioBlock "a" "" (Some [x01; x02; x03]) None false false None;
     mkAudioBlock "b" "" None None false false None;
     mkAudioBlock "c" "" (Some [x04; x05; x06; x07; x08]) None false false None])
    as (blob & Hb & _ & _ & Hp & _ & Hk).
  exists blob. split; [exact Hb|]. split; [exact Hp|].
  exact (Hk [mkAudioBlock "a" "" (Some [x01; x02; x03]) None false false None;
             mkAudioBlock "b" "" None None false false None]
            (mkAudioBlock "c" "" (Some [x04; x05; x06; x07; x08]) None false
               false None)
            [] [x04; x05; x06; x07; x08] 1%nat x05
            eq_refl eq_refl eq_refl).
Defined.

(** ** The end-to-end scenario *)

(** C6. Three segments whose buffers have 100 bytes, none, and 200 bytes:
    [concatenateToSingleWav] returns a container of 344 bytes whose payload
    is the first buffer followed by the third, and [generateZip] hands the
    archiver exactly two entries, [audio_1.wav] and [audio_3.wav], the
    framed containers of the first and the third buffer. *)
Theorem three_segments_scenario (a c : list byte) (b1 b2 b3 : AudioBlock) :
  audioData b1 = Some a -> length a = 100%nat ->
  audioData b2 = None ->
  audioData b3 = Some c -> length c = 200%nat ->
  (exists blob,
     concatenateToSingleWav [b1; b2; b3] = Ok blob
     /\ blob_size blob = 344%nat
     /\ skipn 44 (blob_bytes blob) = a ++ c)
  /\ (exists wav1 wav3,
        createWavBlob a defaultSampleRate = Ok wav1
        /\ createWavBlob c defaultSampleRate = Ok wav3
        /\ generateZip [b1; b2; b3]
           = Ok [("audio_1.wav"%string, wav1); ("audio_3.wav"%string, wav3)]).
Proof.
  intros H1 Ha H2 H3 Hc. split.
  - assert (Hp : concat (presentBuffers [b1; b2; b3]) = a ++ c).
    { unfold presentBuffers. cbn [flat_map]. rewrite H1, H2, H3.
      cbn [app concat]. rewrite app_nil_r. reflexivity. }
    eexists. split.
    { rewrite concatenateToSingleWav_payload, Hp. apply createWavBlob_bytes. }
    unfold blob_size. cbn [blob_bytes]. split.
    + rewrite !length_app, headerTable_length, Ha, Hc. reflexivity.
    + rewrite skipn_app, headerTable_length, Nat.sub_diag.
      rewrite skipn_all2 by (rewrite headerTable_length; lia). reflexivity.
  - eexists. eexists.
    split; [apply createWavBlob_bytes|]. split; [apply createWavBlob_bytes|].
    unfold generateZip. cbn [fold_left]. unfold zipBlock.
    rewrite H1, H2, H3, !createWavBlob_bytes. reflexivity.
Qed.

Lemma three_segments_scenario_witness :
  let b1 := mkAudioBlock "s1" "um" (Some (repeat x01 100)) None false false None in
  let b2 := mkAudioBlock "s2" "dois" None None false false None in
  let b3 := mkAudioBlock "s3" "tres" (Some (repeat x03 200)) None false false None in
  length (repeat x01 100) = 100%nat
  /\ length (repeat x03 200) = 200%nat
  /\ (exists blob,
        concatenateToSingleWav [b1; b2; b3] = Ok blob
        /\ blob_size blob = 344%nat)
  /\ (exists wav1 wav3,
        generateZip [b1; b2; b3]
        = Ok [("audio_1.wav"%string, wav1); ("audio_3.wav"%string, wav3)]).
Proof.
  intros b1 b2 b3.
  split; [reflexivity|]. split; [reflexivity|].
  destruct (three_segments_scenario (repeat x01 100) (repeat x03 200) b1 b2 b3
              eq_refl eq_refl eq_refl eq_refl eq_refl)
    as ((blob & Hb & Hs & _) & (wav1 & wav3 & _ & _ & Hz)).
  split.
  - exists blob. split; [exact Hb | exact Hs].
  - exists wav1, wav3. exact Hz.
Defined.

(** A middle segment that carries a buffer of length zero is not a segment
    without buffer: an empty [Uint8Array] is truthy, and the archive gets a
    third entry. *)
Lemma generateZip_keeps_empty_buffer (a c : list byte) (b1 b2 b3 : AudioBlock) :
  audioData b1 = Some a -> audioData b2 = Some [] -> audioData b3 = Some c ->
  exists wav1 wav2 wav3,
    generateZip [b1; b2; b3]
    = Ok [("audio_1.wav"%string, wav1); ("audio_2.wav"%string, wav2);
          ("audio_3.wav"%string, wav3)]
    /\ blob_size wav2 = 44%nat.
Proof.
  intros H1 H2 H3. do 3 eexists. split.
  - unfold generateZip. cbn [fold_left]. unfold zipBlock.
    rewrite H1, H2, H3, !createWavBlob_bytes. reflexivity.
  - reflexivity.
Qed.

(** ** The playback sequencer *)

Section Sequencer.

Variable ctx : AudioContext.

Lemma clip_setIndex (nodes : list SourceNode) (s : nat) (n : SourceNode)
    (h : OnEnded) (t : SourceStatus) :
  nth_error nodes s = Some n ->
  map clip (setIndex nodes s (mkSource (clip n) h t)) = map clip nodes.
Proof.
  revert s. induction nodes as [|x nodes IH]; intros s Hs.
  - destruct s; discriminate.
  - destruct s as [|s]; cbn [nth_error] in Hs; cbn [setIndex map].
    + injection Hs as ->. reflexivity.
    + rewrite IH by exact Hs. reflexivity.
Qed.

Lemma clip_stopSource (s : nat) (nodes : list SourceNode) :
  map clip (stopSource s nodes) = map clip nodes.
Proof.
  unfold stopSource. destruct (nth_error nodes s) as [n|] eqn:E; [|reflexivity].
  destruct (status n); try reflexivity. apply clip_setIndex. exact E.
Qed.

Lemma markPlaying_false_quiet (blockId : string) (l : list AudioBlock) :
  Forall (fun b => isPlaying b = false) l ->
  Forall (fun b => isPlaying b = false) (markPlaying blockId false l).
Proof.
  intro H. unfold markPlaying. apply Forall_map.
  eapply Forall_impl; [|exact H]. intros b Hb. cbv beta.
  destruct (String.eqb (id b) blockId); [reflexivity | exact Hb].
Qed.

Lemma filter_quiet (p : AudioBlock -> bool) (l : list AudioBlock) :
  Forall (fun b => isPlaying b = false) l ->
  Forall (fun b => isPlaying b = false) (filter p l).
Proof.
  rewrite !Forall_forall. intros H b Hb. apply filter_In in Hb. apply H, Hb.
Qed.

Lemma Forall_split_at {A : Type} (P : A -> Prop) (n : nat) (l : list A) :
  Forall P l -> Forall P (firstn n l) /\ Forall P (skipn n l).
Proof.
  intro H. rewrite <- (firstn_skipn n l) in H. apply Forall_app in H. exact H.
Qed.

Lemma stopAllPlayback_silent (st : State) : silent (stopAllPlayback st).
Proof.
  unfold silent, stopAllPlayback. cbn [currentAudioSource isPlayingAll blocks].
  repeat split. apply Forall_map, Forall_forall. reflexivity.
Qed.

Lemma stopAllPlayback_clips (st : State) :
  clipsStarted (stopAllPlayback st) = clipsStarted st.
Proof.
  unfold clipsStarted, stopAllPlayback. cbn [sources].
  destruct (currentAudioSource st); [apply clip_stopSource | reflexivity].
Qed.

Lemma withIsPlaying_false_id (l : list AudioBlock) :
  Forall (fun b => isPlaying b = false) l -> map (withIsPlaying false) l = l.
Proof.
  induction 1 as [|b l Hb _ IH]; [reflexivity|].
  cbn [map]. rewrite IH. f_equal. destruct b. cbn in Hb. subst. reflexivity.
Qed.

Lemma stopAllPlayback_idempotent (st : State) :
  stopAllPlayback (stopAllPlayback st) = stopAllPlayback st.
Proof.
  unfold stopAllPlayback at 1.
  destruct (stopAllPlayback_silent st) as (Href & _ & Hq).
  rewrite Href, (withIsPlaying_false_id _ Hq).
  unfold stopAllPlayback. reflexivity.
Qed.

(** An event that requests no playback keeps a silent component silent
    and starts no clip. *)
Lemma step_silent (st : State) (ev : Event) :
  silent st -> startsPlayback ev = false ->
  silent (step ctx st ev) /\ clipsStarted (step ctx st ev) = clipsStarted st.
Proof.
  intros (Href & Hall & Hq) Hev.
  destruct ev; try discriminate Hev; cbn [step].
  - (* Ended *)
    unfold ended. destruct (nth_error (sources st) s) as [n|] eqn:En;
      [|split; [repeat split; assumption | reflexivity]].
    assert (Hclip : forall t, map clip (setIndex (sources st) s
                      (mkSource (clip n) (onended n) t)) = map clip (sources st))
      by (intro t; apply clip_setIndex; exact En).
    destruct (status n); try (split; [repeat split; assumption | reflexivity]);
      destruct (onended n); unfold setBlocks, setIsPlayingAll, silent, clipsStarted;
      cbn [currentAudioSource isPlayingAll blocks sources];
      rewrite ?Href; cbn [currentAudioSource isPlayingAll blocks sources];
      (split; [repeat split; try assumption;
               try (apply markPlaying_false_quiet; assumption)
              | apply Hclip]).
  - (* StopAll *)
    split; [apply stopAllPlayback_silent | apply stopAllPlayback_clips].
  - (* AddBlock *)
    assert (Hnew : isPlaying (newBlock newId) = false) by reflexivity.
    unfold addBlock. destruct afterId as [a|];
      [destruct (String.eqb a "")|];
      unfold setBlocks, silent, clipsStarted;
      cbn [currentAudioSource isPlayingAll blocks sources];
      (split; [repeat split; try assumption | reflexivity]).
    + apply Forall_app. split; [exact Hq | constructor; [exact Hnew | constructor]].
    + match goal with
      | |- Forall _ (firstn ?k _ ++ _) =>
          destruct (Forall_split_at _ k _ Hq) as (Hf & Hk)
      end.
      apply Forall_app. split; [exact Hf | constructor; [exact Hnew | exact Hk]].
    + apply Forall_app. split; [exact Hq | constructor; [exact Hnew | constructor]].
  - (* RemoveBlock *)
    unfold removeBlock, setBlocks, silent, clipsStarted.
    cbn [currentAudioSource isPlayingAll blocks sources].
    split; [repeat split; try assumption | reflexivity].
    destruct (1 <? length (blocks st))%nat; [apply filter_quiet|]; exact Hq.
  - (* UpdateBlockText *)
    unfold updateBlockText, setBlocks, silent, clipsStarted.
    cbn [currentAudioSource isPlayingAll blocks sources].
    split; [repeat split; try assumption | reflexivity].
    apply Forall_map. eapply Forall_impl; [|exact Hq]. intros b Hb. cbv beta.
    destruct (String.eqb (id b) blockId); [exact Hb | exact Hb].
  - (* ClearAll *)
    unfold clearAll, setBlocks, silent.
    destruct (stopAllPlayback_silent st) as (Hr & Ha & _).
    cbn [currentAudioSource isPlayingAll blocks sources].
    split; [repeat split; try assumption|].
    + constructor; [reflexivity | constructor].
    + unfold clipsStarted. cbn [sources]. apply stopAllPlayback_clips.
  - (* GenerationStarted *)
    unfold generationStarted, setBlocks, silent, clipsStarted.
    cbn [currentAudioSource isPlayingAll blocks sources].
    split; [repeat split; try assumption | reflexivity].
    apply Forall_map. eapply Forall_impl; [|exact Hq]. intros b Hb. cbv beta.
    destruct (String.eqb (id b) blockId); exact Hb.
  - (* GenerationSucceeded *)
    unfold generationSucceeded, setBlocks, silent, clipsStarted.
    cbn [currentAudioSource isPlayingAll blocks sources].
    split; [repeat split; try assumption | reflexivity].
    apply Forall_map. eapply Forall_impl; [|exact Hq]. intros b Hb. cbv beta.
    destruct (String.eqb (id b) blockId); exact Hb.
  - (* GenerationFailed *)
    unfold generationFailed, setBlocks, silent, clipsStarted.
    cbn [currentAudioSource isPlayingAll blocks sources].
    split; [repeat split; try assumption | reflexivity].
    apply Forall_map. eapply Forall_impl; [|exact Hq]. intros b Hb. cbv beta.
    destruct (String.eqb (id b) blockId); exact Hb.
  - (* PreviewStarted *)
    unfold previewStarted, setBlocks, silent, clipsStarted.
    cbn [currentAudioSource isPlayingAll blocks sources].
    split; [repeat split; try assumption | reflexivity].
    apply Forall_app. split; [exact Hq | constructor; [reflexivity | constructor]].
Qed.

Lemma run_silent (evs : list Event) :
  forall st,
    silent st -> Forall (fun ev => startsPlayback ev = false) evs ->
    silent (run ctx st evs) /\ clipsStarted (run ctx st evs) = clipsStarted st.
Proof.
  induction evs as [|ev evs IH]; intros st Hs Hevs.
  - split; [exact Hs | reflexivity].
  - inversion_clear Hevs as [|? ? Hev Hrest].
    destruct (step_silent st ev Hs Hev) as (Hs1 & Hc1).
    destruct (IH (step ctx st ev) Hs1 Hrest) as (Hs2 & Hc2).
    unfold run in *. cbn [fold_left]. split; [exact Hs2|].
    rewrite Hc2. exact Hc1.
Qed.

Lemma playLoop_next (b : AudioBlock) (rest : list AudioBlock) (st : State) :
  playable ctx b ->
  playLoop ctx (b :: rest) st
  = startSource (id b) (PlayAllEnded (id b) rest) true
      (setBlocks (markPlaying (id b) true) st).
Proof.
  intros (Ha & Hd). cbn [playLoop]. unfold hasAudio in Ha.
  destruct (audioData b) as [pcm|] eqn:E; [|discriminate].
  destruct (Hd pcm E) as (buffer & ->). reflexivity.
Qed.

Lemma filter_finished (done : list SourceNode) :
  forallb isFinished done = true -> filter isFinished done = done.
Proof.
  apply forallb_filter_id.
Qed.

(** A node that has finished is deaf to a second [ended]. *)
Lemma ended_finished (s : nat) (n : SourceNode) (st : State) :
  nth_error (sources st) s = Some n -> isFinished n = true ->
  ended ctx s st = st.
Proof.
  intros Hn Hf. unfold ended. rewrite Hn. unfold isFinished in Hf.
  destruct (status n); try discriminate. reflexivity.
Qed.

Lemma ended_absent (s : nat) (st : State) :
  nth_error (sources st) s = None -> ended ctx s st = st.
Proof.
  intro Hn. unfold ended. rewrite Hn. reflexivity.
Qed.

(** [sequencing] only looks at the nodes, the ref and [isPlayingAll]. *)
Lemma sequencing_same (base : nat) (target : list string) (st st' : State) :
  sources st' = sources st ->
  currentAudioSource st' = currentAudioSource st ->
  isPlayingAll st' = isPlayingAll st ->
  sequencing ctx base target st -> sequencing ctx base target st'.
Proof.
  intros Hs Hr Ha [done c rest H1 H2 H3 H4 H5 H6 H7 | H1 H2 H3 H4].
  - apply (Running ctx base target st' done c rest); congruence.
  - apply Complete; unfold clipsStarted in *; congruence.
Qed.

Lemma ended_sequencing (base : nat) (target : list string) (s : nat)
    (st : State) :
  sequencing ctx base target st -> sequencing ctx base target (ended ctx s st).
Proof.
  intros [done c rest H1 H2 H3 H4 H5 H6 H7 | H1 H2 H3 H4].
  - destruct (Nat.lt_trichotomy s (length done)) as [Hlt | [-> | Hgt]].
    + (* an earlier node *)
      destruct (nth_error done s) as [n|] eqn:En;
        [|apply nth_error_None in En; lia].
      rewrite (ended_finished s n).
      * apply (Running ctx base target st done c rest); assumption.
      * rewrite H1, nth_error_app1 by exact Hlt. exact En.
      * rewrite forallb_forall in H2. apply H2. eapply nth_error_In, En.
    + (* the clip that is playing *)
      unfold ended. rewrite H1, nth_error_app2 by lia.
      rewrite Nat.sub_diag. cbn [nth_error status onended clip].
      rewrite setIndex_app.
      unfold setBlocks at 1. cbn [currentAudioSource]. rewrite H3.
      assert (Hdone' : forallb isFinished
                         (done ++ [mkSource c (PlayAllEnded c rest) Finished])
                       = true).
      { rewrite forallb_app, H2. reflexivity. }
      destruct rest as [|b rest'].
      * (* the queue is exhausted *)
        cbn [playLoop]. apply Complete.
        -- exact Hdone'.
        -- reflexivity.
        -- unfold clipsStarted. cbn [sources setIsPlayingAll setBlocks].
           rewrite map_app. exact H6.
        -- cbn [sources setIsPlayingAll setBlocks]. rewrite length_app. lia.
      * (* the next clip starts *)
        inversion_clear H5 as [|? ? Hb Hrest'].
        rewrite (playLoop_next b rest' _ Hb).
        apply (Running ctx base target _
                 (done ++ [mkSource c (PlayAllEnded c (b :: rest')) Finished])
                 (id b) rest').
        -- reflexivity.
        -- exact Hdone'.
        -- reflexivity.
        -- exact H4.
        -- exact Hrest'.
        -- rewrite map_app, <- app_assoc. exact H6.
        -- rewrite length_app. lia.
    + (* no such node *)
      rewrite ended_absent.
      * apply (Running ctx base target st done c rest); assumption.
      * apply nth_error_None. rewrite H1, length_app. cbn [length]. lia.
  - destruct (nth_error (sources st) s) as [n|] eqn:En.
    + rewrite (ended_finished s n st En).
      * apply Complete; assumption.
      * rewrite forallb_forall in H1. apply H1. eapply nth_error_In, En.
    + rewrite (ended_absent s st En). apply Complete; assumption.
Qed.

Lemma step_sequencing (base : nat) (target : list string) (st : State)
    (ev : Event) :
  bystander ev = true ->
  sequencing ctx base target st -> sequencing ctx base target (step ctx st ev).
Proof.
  intros Hev Hseq.
  destruct ev; try discriminate Hev; cbn [step];
    try (apply ended_sequencing; exact Hseq);
    try (apply (sequencing_same base target st); [reflexivity .. | exact Hseq]).
  unfold addBlock.
  destruct afterId as [a|]; [destruct (String.eqb a "")|];
    apply (sequencing_same base target st); try reflexivity; exact Hseq.
Qed.

Lemma run_sequencing (base : nat) (target : list string) (evs : list Event) :
  forall st,
    Forall (fun ev => bystander ev = true) evs ->
    sequencing ctx base target st ->
    sequencing ctx base target (run ctx st evs).
Proof.
  induction evs as [|ev evs IH]; intros st Hevs Hseq; [exact Hseq|].
  inversion_clear Hevs as [|? ? Hev Hrest].
  unfold run. cbn [fold_left]. apply IH; [exact Hrest|].
  apply step_sequencing; assumption.
Qed.

Lemma filter_playable (l : list AudioBlock) :
  Forall (decodable ctx) l -> Forall (playable ctx) (filter hasAudio l).
Proof.
  intro H. apply Forall_forall. intros b Hb. apply filter_In in Hb.
  destruct Hb as (Hin & Ha). split; [exact Ha|].
  rewrite Forall_forall in H. apply H, Hin.
Qed.

(** The call itself: it starts the first clip of the snapshot, or
    returns at once when no block carries a buffer. *)
Lemma playAllSequentially_sequencing (st0 : State) :
  isPlayingAll st0 = false ->
  forallb isFinished (sources st0) = true ->
  Forall (decodable ctx) (blocks st0) ->
  sequencing ctx (length (sources st0))
    (clipsStarted st0 ++ map id (filter hasAudio (blocks st0)))
    (playAllSequentially ctx st0).
Proof.
  intros Hidle Hfin Hdec. unfold playAllSequentially. rewrite Hidle.
  pose proof (filter_playable (blocks st0) Hdec) as Hplay.
  destruct (filter hasAudio (blocks st0)) as [|b rest] eqn:E.
  - apply Complete; try assumption.
    + cbn [map]. symmetry. apply app_nil_r.
    + lia.
  - inversion_clear Hplay as [|? ? Hb Hrest].
    rewrite (playLoop_next b rest _ Hb).
    apply (Running ctx _ _ _ (sources st0) (id b) rest);
      first [reflexivity | assumption | lia].
Qed.

(** What [sequencing] says about the clips started so far. *)
Lemma sequencing_clips (old : list string) (snapshot : list string)
    (st : State) :
  sequencing ctx (length old) (old ++ snapshot) st ->
  clipsStarted st
  = old ++ firstn (S (finishedCount st - length old)) snapshot
  /\ (length (sources st) <= S (finishedCount st))%nat
  /\ (finishedCount st = length (sources st) ->
      clipsStarted st = old ++ snapshot /\ isPlayingAll st = false).
Proof.
  intros [done c rest H1 H2 H3 H4 H5 H6 H7 | H1 H2 H3 H4].
  - assert (Hcount : finishedCount st = length done).
    { unfold finishedCount. rewrite H1, filter_app, (filter_finished done H2).
      cbn [filter isFinished status]. rewrite app_nil_r. reflexivity. }
    assert (Hclips : clipsStarted st = map clip done ++ [c]).
    { unfold clipsStarted. rewrite H1, map_app. reflexivity. }
    rewrite Hcount. split; [|split].
    + rewrite Hclips.
      assert (Hpre : map clip done ++ [c]
                     = firstn (S (length done)) (old ++ snapshot)).
      { rewrite <- H6.
        replace (map clip done ++ c :: map id rest)
          with ((map clip done ++ [c]) ++ map id rest)
          by (rewrite <- app_assoc; reflexivity).
        rewrite firstn_app.
        replace (S (length done) - length (map clip done ++ [c]))%nat with O
          by (rewrite length_app, length_map; cbn [length]; lia).
        rewrite firstn_O, app_nil_r. symmetry. apply firstn_all2.
        rewrite length_app, length_map. cbn [length]. lia. }
      rewrite Hpre, firstn_app, firstn_all2 by lia.
      replace (S (length done) - length old)%nat
        with (S (length done - length old)) by lia.
      reflexivity.
    + rewrite H1, length_app. cbn [length]. lia.
    + rewrite H1, length_app. cbn [length]. lia.
  - assert (Hcount : finishedCount st = length (sources st)).
    { unfold finishedCount. rewrite (filter_finished _ H1). reflexivity. }
    rewrite Hcount. split; [|split].
    + rewrite H3. f_equal. symmetry. apply firstn_all2.
      apply (f_equal (@length string)) in H3.
      unfold clipsStarted in H3. rewrite length_map, length_app in H3. lia.
    + lia.
    + intros _. split; assumption.
Qed.

End Sequencer.

(** Whatever the state in which [stopAllPlayback] is invoked, a sequence
    under way included, and whatever follows among [ended] events, edits
    and further stops, as long as no new playback is requested: no clip is
    started any more and no segment is flagged as playing, because the
    loop of [playAllSequentially] finds the ref empty and leaves. The call
    itself is total, clears every playing flag and the ref, and calling it
    again changes nothing. *)
Lemma stopAllPlayback_sticks
    (ctx : AudioContext) (st : State) (evs : list Event) :
  Forall (fun ev => startsPlayback ev = false) evs ->
  (clipsStarted (run ctx (stopAllPlayback st) evs) = clipsStarted st
   /\ Forall (fun b => isPlaying b = false)
        (blocks (run ctx (stopAllPlayback st) evs))
   /\ currentAudioSource (run ctx (stopAllPlayback st) evs) = None
   /\ isPlayingAll (run ctx (stopAllPlayback st) evs) = false)
  /\ stopAllPlayback (stopAllPlayback st) = stopAllPlayback st
  /\ Forall (fun b => isPlaying b = false) (blocks (stopAllPlayback st))
  /\ currentAudioSource (stopAllPlayback st) = None
  /\ isPlayingAll (stopAllPlayback st) = false.
Proof.
  intro Hevs.
  destruct (run_silent ctx evs (stopAllPlayback st)
              (stopAllPlayback_silent st) Hevs) as ((Hr & Ha & Hq) & Hc).
  split.
  - rewrite Hc, stopAllPlayback_clips. auto.
  - split; [apply stopAllPlayback_idempotent|].
    destruct (stopAllPlayback_silent st) as (Hr' & Ha' & Hq'). auto.
Qed.

(** The stop taken alone on three clips: the second and third clip never
    start; without the stop the second starts when the first has ended. *)
Lemma stopAllPlayback_sticks_example :
  Forall (fun ev => startsPlayback ev = false)
    [UpdateBlockText "b" "novo"; Ended 0; StopAll; Ended 0; Ended 1]
  /\ clipsStarted (playAllSequentially standardContext threeClips) = ["a"%string]
  /\ clipsStarted
       (run standardContext
          (stopAllPlayback (playAllSequentially standardContext threeClips))
          [UpdateBlockText "b" "novo"; Ended 0; StopAll; Ended 0; Ended 1])
     = ["a"%string]
  /\ clipsStarted
       (run standardContext (playAllSequentially standardContext threeClips)
          [UpdateBlockText "b" "novo"; Ended 0])
     = ["a"%string; "b"%string].
Proof.
  assert (H : Forall (fun ev => startsPlayback ev = false)
                [UpdateBlockText "b" "novo"; Ended 0; StopAll; Ended 0; Ended 1])
    by (repeat constructor).
  split; [exact H|]. split; [reflexivity|]. split; [|reflexivity].
  destruct (stopAllPlayback_sticks standardContext
              (playAllSequentially standardContext threeClips) _ H)
    as ((Hc & _) & _).
  rewrite Hc. reflexivity.
Defined.

(** [playBlock] begins with [stopAllPlayback]. *)
Lemma playBlock_stops_first (ctx : AudioContext) (blockId : string)
    (st : State) :
  playBlock ctx blockId st = stopAllPlayback st
  \/ playBlock ctx blockId st
     = startSource blockId (PlayBlockEnded blockId) true
         (setBlocks (markPlaying blockId true) (stopAllPlayback st)).
Proof.
  unfold playBlock.
  destruct (find _ (blocks st)) as [block|]; [|left; reflexivity].
  destruct (audioData block) as [pcm|]; [|left; reflexivity].
  destruct (decodeAudioToBuffer pcm ctx defaultSampleRate 1);
    [right | left]; reflexivity.
Qed.

(** C7 fails on the code when the stop comes from [playBlock]. Three clips
    are played in sequence; while the first plays, the third is played on
    its own: [playBlock] calls [stopAllPlayback] (node 0 is stopping, the
    flags are cleared) and then stores its own node in the ref. When the
    [ended] event of node 0 arrives, the loop of [playAllSequentially]
    finds the ref set, does not leave, and starts the second clip: a
    segment after the one that was playing enters the playing state, on
    top of the clip requested. *)
Theorem playBlock_revives_stopped_sequence :
  clipsStarted (run standardContext threeClips [PlayAll]) = ["a"%string]
  /\ map status (sources (run standardContext threeClips
                            [PlayAll; PlayBlock "c"]))
     = [Stopping; Playing]
  /\ clipsStarted (run standardContext threeClips [PlayAll; PlayBlock "c"])
     = ["a"%string; "c"%string]
  /\ clipsStarted
       (run standardContext threeClips [PlayAll; PlayBlock "c"; Ended 0])
     = ["a"%string; "c"%string; "b"%string]
  /\ map status (sources (run standardContext threeClips
                            [PlayAll; PlayBlock "c"; Ended 0]))
     = [Finished; Playing; Playing]
  /\ map isPlaying (blocks (run standardContext threeClips
                              [PlayAll; PlayBlock "c"; Ended 0]))
     = [false; true; true].
Proof.
  repeat split.
Qed.

(** C8, as the code has it. Let [playAllSequentially] be called when it is
    not running and no earlier node is pending, on segments whose buffers
    all decode. Whatever follows among [ended] events, edits of the segment
    list and progress of generations (no stop, no other playback request),
    the clips started by the call are the first [k] segments that carried
    a buffer when the call started, in their order, where [k - 1] is the
    number of clips of the call that have ended: the next clip starts when,
    and only when, the current one has ended, at most one clip is pending
    at any time, and once all have ended the clips are exactly the
    snapshot and [isPlayingAll] is false again. *)
Theorem playAllSequentially_plays_snapshot
    (ctx : AudioContext) (st0 : State) (evs : list Event) :
  isPlayingAll st0 = false ->
  forallb isFinished (sources st0) = true ->
  Forall (decodable ctx) (blocks st0) ->
  Forall (fun ev => bystander ev = true) evs ->
  clipsStarted (run ctx (playAllSequentially ctx st0) evs)
  = clipsStarted st0
    ++ firstn (S (finishedCount (run ctx (playAllSequentially ctx st0) evs)
                  - finishedCount st0))
         (map id (filter hasAudio (blocks st0)))
  /\ (length (sources (run ctx (playAllSequentially ctx st0) evs))
      <= S (finishedCount (run ctx (playAllSequentially ctx st0) evs)))%nat
  /\ (finishedCount (run ctx (playAllSequentially ctx st0) evs)
      = length (sources (run ctx (playAllSequentially ctx st0) evs)) ->
      clipsStarted (run ctx (playAllSequentially ctx st0) evs)
      = clipsStarted st0 ++ map id (filter hasAudio (blocks st0))
      /\ isPlayingAll (run ctx (playAllSequentially ctx st0) evs) = false).
Proof.
  intros Hidle Hfin Hdec Hevs.
  assert (Hbase : finishedCount st0 = length (clipsStarted st0)).
  { unfold finishedCount, clipsStarted.
    rewrite (filter_finished _ Hfin), length_map. reflexivity. }
  rewrite Hbase. apply (sequencing_clips ctx).
  apply run_sequencing; [exact Hevs|].
  unfold clipsStarted at 1. rewrite length_map.
  apply playAllSequentially_sequencing; assumption.
Qed.

Lemma threeClips_decodable :
  Forall (decodable standardContext) (blocks threeClips).
Proof.
  repeat constructor; intros pcm Hpcm; injection Hpcm as <-;
    eexists; vm_compute; reflexivity.
Defined.

Lemma playAllSequentially_plays_snapshot_witness :
  isPlayingAll threeClips = false
  /\ forallb isFinished (sources threeClips) = true
  /\ Forall (decodable standardContext) (blocks threeClips)
  /\ Forall (fun ev => bystander ev = true)
       [Ended 0; UpdateBlockText "c" "novo"; RemoveBlock "b"; Ended 1; Ended 2]
  /\ clipsStarted
       (run standardContext (playAllSequentially standardContext threeClips)
          [Ended 0; UpdateBlockText "c" "novo"; RemoveBlock "b"; Ended 1;
           Ended 2])
     = ["a"%string; "b"%string; "c"%string].
Proof.
  assert (H : Forall (fun ev => bystander ev = true)
                [Ended 0; UpdateBlockText "c" "novo"; RemoveBlock "b"; Ended 1;
                 Ended 2])
    by (repeat constructor).
  split; [reflexivity|]. split; [reflexivity|].
  split; [exact threeClips_decodable|]. split; [exact H|].
  destruct (playAllSequentially_plays_snapshot standardContext threeClips _
              eq_refl eq_refl threeClips_decodable H) as (Hc & _).
  rewrite Hc. reflexivity.
Defined.

(** C8 as stated fails when a buffer does not decode: with a first segment
    of one byte the call is rejected before any clip starts, the second
    segment is never played although it carried a buffer when the call
    started, and [isPlayingAll] stays set. *)
Lemma playAllSequentially_truncated_clip :
  isPlayingAll truncatedClip = false
  /\ sources truncatedClip = []
  /\ map id (filter hasAudio (blocks truncatedClip)) = ["a"%string; "b"%string]
  /\ clipsStarted (playAllSequentially standardContext truncatedClip) = []
  /\ clipsStarted
       (run standardContext (playAllSequentially standardContext truncatedClip)
          [Ended 0; Ended 1]) = []
  /\ isPlayingAll (playAllSequentially standardContext truncatedClip) = true.
Proof.
  repeat split.
Qed.

(** ** The segment list *)

(** C9. [updateBlockText] changes nothing but the block list, keeps its
    length and order, and at every position: a block with another id is
    unchanged; a block with the edited id gets the new text, loses its
    buffer and its container url, and keeps its id and its other fields. *)
Theorem updateBlockText_frame (blockId newText : string) (st : State) :
  settings (updateBlockText blockId newText st) = settings st
  /\ isPlayingAll (updateBlockText blockId newText st) = isPlayingAll st
  /\ currentAudioSource (updateBlockText blockId newText st)
     = currentAudioSource st
  /\ sources (updateBlockText blockId newText st) = sources st
  /\ length (blocks (updateBlockText blockId newText st)) = length (blocks st)
  /\ map id (blocks (updateBlockText blockId newText st)) = map id (blocks st)
  /\ forall i b,
       nth_error (blocks st) i = Some b ->
       exists b',
         nth_error (blocks (updateBlockText blockId newText st)) i = Some b'
         /\ id b' = id b
         /\ isGenerating b' = isGenerating b
         /\ isPlaying b' = isPlaying b
         /\ error b' = error b
         /\ (id b = blockId ->
             text b' = newText /\ audioData b' = None /\ audioUrl b' = None)
         /\ (id b <> blockId -> b' = b).
Proof.
  unfold updateBlockText, setBlocks.
  cbn [settings isPlayingAll currentAudioSource sources blocks].
  split; [reflexivity|]. split; [reflexivity|]. split; [reflexivity|].
  split; [reflexivity|]. split; [apply length_map|]. split.
  - rewrite map_map. apply map_ext. intro b.
    destruct (String.eqb (id b) blockId); reflexivity.
  - intros i b Hb. rewrite nth_error_map, Hb. cbn [option_map].
    eexists. split; [reflexivity|].
    destruct (String.eqb_spec (id b) blockId) as [Heq | Hne];
      cbn [id text audioData audioUrl isGenerating isPlaying error];
      (split; [reflexivity|]); (split; [reflexivity|]);
      (split; [reflexivity|]); (split; [reflexivity|]); split.
    + intros _. repeat split.
    + intro Hne. contradiction.
    + intro Heq. contradiction.
    + intros _. reflexivity.
Qed.

Lemma updateBlockText_frame_witness :
  exists b',
    nth_error
      (blocks (updateBlockText "b" "novo"
                 (stateOf [segment "a" (Some [x00; x00]);
                           mkAudioBlock "b" "velho" (Some [x01; x02])
                             (Some "blob:1"%string) false true None])))
      1 = Some b'
    /\ id b' = "b"%string /\ text b' = "novo"%string
    /\ audioData b' = None /\ audioUrl b' = None /\ isPlaying b' = true.
Proof.
  destruct (updateBlockText_frame "b" "novo"
              (stateOf [segment "a" (Some [x00; x00]);
                        mkAudioBlock "b" "velho" (Some [x01; x02])
                          (Some "blob:1"%string) false true None]))
    as (_ & _ & _ & _ & _ & _ & H).
  destruct (H 1%nat (mkAudioBlock "b" "velho" (Some [x01; x02])
                       (Some "blob:1"%string) false true None) eq_refl)
    as (b' & Hn & Hid & _ & Hp & _ & Hsame & _).
  destruct (Hsame eq_refl) as (Ht & Ha & Hu).
  exists b'. repeat split; assumption.
Defined.

(** What holds of C10: the list starts with one segment, [removeBlock]
    leaves a list of one segment alone, and on a list without repeated id
    it leaves at least one segment. *)
Lemma initialState_one_segment (id0 : string) :
  length (blocks (initialState id0)) = 1%nat.
Proof.
  reflexivity.
Qed.

Lemma removeBlock_single (blockId : string) (st : State) :
  length (blocks st) = 1%nat -> removeBlock blockId st = st.
Proof.
  intro H. unfold removeBlock, setBlocks. rewrite H. cbn [Nat.ltb Nat.leb].
  destruct st. reflexivity.
Qed.

Lemma removeBlock_distinct_ids (blockId : string) (st : State) :
  NoDup (map id (blocks st)) -> blocks st <> [] ->
  blocks (removeBlock blockId st) <> [].
Proof.
  intros Hnd Hne. unfold removeBlock, setBlocks. cbn [blocks].
  destruct (blocks st) as [|b1 [|b2 rest]]; [contradiction | discriminate |].
  cbn [length Nat.ltb Nat.leb filter].
  destruct (String.eqb_spec (id b1) blockId) as [H1 | H1];
    [|cbn [negb]; discriminate].
  destruct (String.eqb_spec (id b2) blockId) as [H2 | H2];
    [|cbn [negb]; discriminate].
  exfalso. inversion_clear Hnd as [|? ? Hnotin _]. apply Hnotin.
  left. congruence.
Qed.

(** C10 fails on the code. From the first render: the preview is
    requested (a block with id preview is appended), the user deletes the
    original block (two blocks are present, so the guard of [removeBlock]
    lets it go), the preview request settles and its cleanup drops the
    preview block: the segment list is empty. *)
Theorem preview_cleanup_empties_list :
  blocks
    (run standardContext (initialState "u1")
       [PreviewStarted; RemoveBlock "u1"; PreviewSettled (Ok [x00; x00])])
  = []
  /\ length (blocks (run standardContext (initialState "u1") [PreviewStarted]))
     = 2%nat
  /\ map id (blocks (run standardContext (initialState "u1")
                       [PreviewStarted; RemoveBlock "u1"]))
     = ["preview"%string].
Proof.
  repeat split.
Qed.

(** * Further properties of the code *)

(** ** The codec: lengths, whitespace, padding, failures *)

Section CodecMore.

Import Base64.

Lemma string_length_of_list (l : list ascii) :
  String.length (string_of_list_ascii l) = length l.
Proof.
  induction l as [|c l IH]; [reflexivity|]. cbn. rewrite IH. reflexivity.
Qed.

Lemma list_ascii_of_append (s1 s2 : string) :
  list_ascii_of_string (s1 ++ s2)
  = list_ascii_of_string s1 ++ list_ascii_of_string s2.
Proof.
  induction s1 as [|c s1 IH]; [reflexivity|]. cbn. rewrite IH. reflexivity.
Qed.

Lemma string_of_list_append (l1 l2 : list ascii) :
  string_of_list_ascii (l1 ++ l2)
  = (string_of_list_ascii l1 ++ string_of_list_ascii l2)%string.
Proof.
  induction l1 as [|c l1 IH]; [reflexivity|]. cbn. rewrite IH. reflexivity.
Qed.

Lemma encodeBytes_length (bin : list Z) :
  length (encodeBytes bin) = (4 * ((length bin + 2) / 3))%nat.
Proof.
  induction bin as [|a|a b|a b c rest IH] using list_ind3; try reflexivity.
  cbn [encodeBytes length]. rewrite IH.
  replace (S (S (S (length rest))) + 2)%nat with ((length rest + 2) + 1 * 3)%nat
    by lia.
  rewrite Nat.div_add by discriminate. lia.
Qed.

Lemma sextetChar_in_alphabet (s : Z) : isSextet s -> In (sextetChar s) alphabet.
Proof.
  intros Hs. unfold sextetChar. apply nth_In.
  unfold isSextet in Hs. change (length alphabet) with 64%nat. lia.
Qed.

Lemma bytes_are_octets (b : list byte) : Forall isOctet (map byteval b).
Proof.
  apply Forall_forall. intros z Hz. apply in_map_iff in Hz.
  destruct Hz as (x & <- & _). apply byteval_range.
Qed.

Lemma encode_btoa (b : list byte) : encode b = btoa (map byteval b).
Proof.
  unfold encode. rewrite binary_of_bytes. reflexivity.
Qed.

Lemma btoa_octets (bin : list Z) :
  Forall isOctet bin -> btoa bin = Ok (string_of_list_ascii (encodeBytes bin)).
Proof.
  intro Hoct. unfold btoa.
  replace (forallb (fun c => c <=? 255) bin) with true; [reflexivity|].
  symmetry. apply forallb_forall. intros c Hc.
  rewrite Forall_forall in Hoct. specialize (Hoct c Hc).
  unfold isOctet in Hoct. lia.
Qed.

End CodecMore.

(** X1. [encode] never throws; its text has four characters for every
    started group of three bytes and consists of characters of the
    transport alphabet and of the pad. *)
Theorem encode_length_alphabet (b : list byte) :
  exists text,
    encode b = Ok text
    /\ String.length text = (4 * ((length b + 2) / 3))%nat
    /\ Forall (fun c => In c Base64.alphabet \/ c = Base64.pad)
         (list_ascii_of_string text).
Proof.
  pose proof (bytes_are_octets b) as Hoct.
  exists (string_of_list_ascii (Base64.encodeBytes (map byteval b))).
  split; [rewrite encode_btoa; apply btoa_octets, Hoct|].
  split.
  - rewrite string_length_of_list, encodeBytes_length, length_map. reflexivity.
  - rewrite list_ascii_of_string_of_list_ascii.
    destruct (encodeBytes_shape (map byteval b) Hoct)
      as (ss & padding & He & Hss & Hp & _).
    rewrite He. apply Forall_app. split.
    + apply Forall_forall. intros c Hc. apply in_map_iff in Hc.
      destruct Hc as (s & <- & Hin). left.
      rewrite Forall_forall in Hss. apply sextetChar_in_alphabet, Hss, Hin.
    + apply Forall_forall. intros c Hc. right.
      destruct Hp as [-> | [-> | ->]]; cbn [In] in Hc; intuition.
Qed.

(** X2. [decode] ignores ASCII whitespace wherever it stands in the
    text. *)
Theorem decode_ignores_whitespace (s1 w s2 : string) :
  forallb Base64.isAsciiWhitespace (list_ascii_of_string w) = true ->
  decode (s1 ++ w ++ s2) = decode (s1 ++ s2).
Proof.
  intro Hw. unfold decode, Base64.atob.
  rewrite !list_ascii_of_append, !filter_app.
  replace (filter (fun c => negb (Base64.isAsciiWhitespace c))
             (list_ascii_of_string w)) with (@nil ascii); [reflexivity|].
  symmetry. induction (list_ascii_of_string w) as [|c l IH]; [reflexivity|].
  cbn [forallb] in Hw. apply andb_prop in Hw. destruct Hw as (Hc & Hl).
  cbn [filter]. rewrite Hc. cbn [negb]. apply IH, Hl.
Qed.

Lemma decode_ignores_whitespace_witness :
  forallb Base64.isAsciiWhitespace
    (list_ascii_of_string (String (ascii_of_nat 10) " ")) = true
  /\ decode ("SG" ++ String (ascii_of_nat 10) " " ++ "k=") = decode "SGk="
  /\ decode "SGk=" = Ok [x48; x69].
Proof.
  split; [reflexivity|]. split; [|reflexivity].
  apply (decode_ignores_whitespace "SG" (String (ascii_of_nat 10) " ") "k=").
  reflexivity.
Defined.

Section CodecFailures.

Import Base64.

Lemma stripPadding_keeps (c : ascii) (l : list ascii) :
  Ascii.eqb c pad = false -> In c l -> In c (stripPadding l).
Proof.
  intros Hc Hin. unfold stripPadding.
  assert (Hrev : In c (rev l)) by (apply in_rev; rewrite rev_involutive; exact Hin).
  assert (Hne : forall p, Ascii.eqb p pad = true -> c <> p).
  { intros p Hp ->. congruence. }
  destruct (rev l) as [|p1 [|p2 rest]] eqn:E.
  - exact Hin.
  - destruct (Ascii.eqb p1 pad) eqn:E1; [|exact Hin].
    destruct Hrev as [<- | []]. congruence.
  - destruct (Ascii.eqb p1 pad) eqn:E1; [|exact Hin].
    destruct Hrev as [Heq | Hrev]; [exfalso; apply (Hne p1 E1); auto|].
    destruct (Ascii.eqb p2 pad) eqn:E2.
    + destruct Hrev as [Heq | Hrev]; [exfalso; apply (Hne p2 E2); auto|].
      apply in_rev in Hrev. exact Hrev.
    + apply in_rev. rewrite rev_involutive. exact Hrev.
Qed.

Lemma sextets_foreign (c : ascii) (l : list ascii) :
  charSextet c = None -> In c l -> sextets l = None.
Proof.
  intros Hc. induction l as [|x l IH]; intro Hin; [contradiction|].
  cbn [sextets]. destruct Hin as [-> | Hin].
  - rewrite Hc. reflexivity.
  - rewrite (IH Hin). destruct (charSextet x); reflexivity.
Qed.

End CodecFailures.

(** X3. [decode] throws as soon as the text holds one character that is
    neither whitespace, nor the pad, nor of the transport alphabet. *)
Theorem decode_rejects_foreign_character (text : string) (c : ascii) :
  In c (list_ascii_of_string text) ->
  Base64.isAsciiWhitespace c = false ->
  Ascii.eqb c Base64.pad = false ->
  Base64.charSextet c = None ->
  decode text = Throw InvalidCharacterError.
Proof.
  intros Hin Hws Hpad Hc. unfold decode, Base64.atob.
  set (d0 := filter (fun c => negb (Base64.isAsciiWhitespace c))
               (list_ascii_of_string text)).
  assert (H0 : In c d0).
  { apply filter_In. split; [exact Hin|]. rewrite Hws. reflexivity. }
  set (d := if (length d0 mod 4 =? 0)%nat then Base64.stripPadding d0 else d0).
  assert (Hd : In c d).
  { subst d. destruct (length d0 mod 4 =? 0)%nat;
      [apply stripPadding_keeps; assumption | exact H0]. }
  destruct (length d mod 4 =? 1)%nat; [reflexivity|].
  rewrite (sextets_foreign c d Hc Hd). reflexivity.
Qed.

Lemma decode_rejects_foreign_character_witness :
  In "-"%char (list_ascii_of_string "SG-k")
  /\ Base64.isAsciiWhitespace "-" = false
  /\ Ascii.eqb "-" Base64.pad = false
  /\ Base64.charSextet "-" = None
  /\ decode "SG-k" = Throw InvalidCharacterError.
Proof.
  assert (H : In "-"%char (list_ascii_of_string "SG-k"))
    by (cbn; right; right; left; reflexivity).
  split; [exact H|]. repeat (split; [reflexivity|]).
  exact (decode_rejects_foreign_character "SG-k" "-" H eq_refl eq_refl eq_refl).
Defined.

(** X4. The pads are optional for [decode]: the text of [encode] is a
    body followed by at most two pads, and the body alone decodes to the
    same bytes. *)
Theorem decode_accepts_unpadded (b : list byte) :
  exists body padding,
    encode b = Ok (body ++ padding)%string
    /\ (padding = "" \/ padding = "=" \/ padding = "==")%string
    /\ decode body = Ok b.
Proof.
  pose proof (bytes_are_octets b) as Hoct.
  destruct (encodeBytes_shape (map byteval b) Hoct)
    as (ss & padding & He & Hss & Hp & Hlen & Hn1 & Hd).
  exists (string_of_list_ascii (map Base64.sextetChar ss)),
         (string_of_list_ascii padding).
  split.
  { rewrite encode_btoa, btoa_octets by exact Hoct.
    rewrite He, string_of_list_append. reflexivity. }
  split; [destruct Hp as [-> | [-> | ->]]; auto|].
  unfold decode, Base64.atob. rewrite list_ascii_of_string_of_list_ascii.
  rewrite <- (app_nil_r (map Base64.sextetChar ss)).
  rewrite (no_whitespace_in_output ss [] Hss (or_introl eq_refl)).
  rewrite (stripPadding_output ss [] Hss (or_introl eq_refl)).
  rewrite !app_nil_r, length_map.
  assert (Hnot1 : (length ss mod 4 =? 1)%nat = false)
    by (apply Nat.eqb_neq; exact Hn1).
  destruct (length ss mod 4 =? 0)%nat; rewrite ?length_map, Hnot1;
    rewrite (sextets_sextetChar ss Hss), Hd; cbn [bind];
    rewrite map_map; f_equal; rewrite <- (map_id b) at 2;
    apply map_ext; exact u8_byteval.
Qed.

(** X5. What the service can deliver through [generateTTS]: a recording
    that is not empty, sent as the text of [encode], comes back unchanged;
    the empty recording has the empty text and is reported as missing voice
    data. *)
Theorem generateTTS_delivers (b : list byte) :
  exists text,
    encode b = Ok text
    /\ generateTTS (Some text)
       = match b with
         | [] => inl NoVoiceData
         | _ => inr b
         end.
Proof.
  destruct (atob_btoa (map byteval b) (bytes_are_octets b))
    as (text & Hen & Hde).
  exists text. split; [rewrite encode_btoa; exact Hen|].
  assert (Hlen : String.length text = (4 * ((length b + 2) / 3))%nat).
  { rewrite btoa_octets in Hen by apply bytes_are_octets.
    assert (Ht : text = string_of_list_ascii
                          (Base64.encodeBytes (map byteval b)))
      by congruence.
    rewrite Ht, string_length_of_list, encodeBytes_length, length_map.
    reflexivity. }
  destruct b as [|x b].
  - destruct text; [reflexivity | discriminate Hlen].
  - unfold generateTTS.
    assert (Hpos : String.length text <> 0%nat).
    { rewrite Hlen. cbn [length].
      pose proof (Nat.div_str_pos (S (length b) + 2) 3). lia. }
    clear Hlen. rename Hpos into Hlen.
    destruct (String.eqb_spec text "") as [-> | _]; [contradiction Hlen; reflexivity|].
    unfold decode. rewrite Hde. cbn [bind]. f_equal.
    rewrite map_map. rewrite <- (map_id (x :: b)) at 2.
    apply map_ext. exact u8_byteval.
Qed.

(** ** The framer: [writeString] *)

Lemma u8_charCode (c : ascii) : u8 (Z.of_N (N_of_ascii c)) = byte_of_ascii c.
Proof.
  destruct c as [[] [] [] [] [] [] [] []]; reflexivity.
Qed.

Lemma writeCodes_fits (codes : list Z) :
  forall (pre room : list byte),
    (length codes <= length room)%nat ->
    writeCodes (pre ++ room) (length pre) codes
    = Ok (pre ++ map u8 codes ++ skipn (length codes) room).
Proof.
  induction codes as [|c codes IH]; intros pre room Hfit.
  - reflexivity.
  - destruct room as [|x room]; [cbn [length] in Hfit; lia|].
    cbn [writeCodes]. unfold DataView.setUint8, DataView.store.
    replace (length pre + length [u8 c] <=? length (pre ++ x :: room))%nat
      with true
      by (symmetry; apply Nat.leb_le; rewrite length_app; cbn [length]; lia).
    rewrite firstn_app, firstn_all, Nat.sub_diag, firstn_O, app_nil_r.
    rewrite skipn_app, skipn_all2 by lia.
    replace (length pre + length [u8 c] - length pre)%nat with 1%nat
      by (cbn [length]; lia).
    cbn [skipn app bind].
    replace (S (length pre)) with (length (pre ++ [u8 c]))
      by (rewrite length_app; cbn [length]; lia).
    replace (pre ++ u8 c :: room) with ((pre ++ [u8 c]) ++ room)
      by (rewrite <- app_assoc; reflexivity).
    rewrite IH by (cbn [length] in Hfit; lia).
    rewrite <- app_assoc. reflexivity.
Qed.

Lemma writeCodes_overflow (codes : list Z) :
  forall (view : list byte) (offset : nat),
    codes <> [] ->
    (length view < offset + length codes)%nat ->
    writeCodes view offset codes = Throw RangeError.
Proof.
  induction codes as [|c codes IH]; intros view offset Hne Hover;
    [contradiction|].
  cbn [writeCodes]. unfold DataView.setUint8, DataView.store.
  cbn [length] in *.
  destruct (offset + 1 <=? length view)%nat eqn:E; [|reflexivity].
  apply Nat.leb_le in E. cbn [bind].
  apply IH.
  - destruct codes; [exfalso; cbn [length] in Hover; lia | discriminate].
  - rewrite !length_app, length_firstn, length_skipn. cbn [length]. lia.
Qed.

(** X6. [writeString] overwrites exactly the bytes from [offset] on with
    the characters of the string and leaves the others alone; a string that
    is not empty and does not fit into the view raises a [RangeError]; the
    empty string is written anywhere without error. *)
Theorem writeString_overwrites (view : list byte) (offset : nat) (s : string) :
  ((offset + String.length s <= length view)%nat ->
   writeString view offset s
   = Ok (firstn offset view ++ asciiBytes s
         ++ skipn (offset + String.length s) view))
  /\ (s <> ""%string -> (length view < offset + String.length s)%nat ->
      writeString view offset s = Throw RangeError)
  /\ writeString view offset "" = Ok view.
Proof.
  assert (Hlen : length (charCodes s) = String.length s).
  { unfold charCodes. rewrite length_map.
    induction s as [|c s IH]; [reflexivity|]. cbn. rewrite IH. reflexivity. }
  split; [|split; [|reflexivity]].
  - intro Hfit. unfold writeString.
    assert (Hpre : length (firstn offset view) = offset)
      by (rewrite length_firstn; lia).
    pose proof (writeCodes_fits (charCodes s) (firstn offset view)
                  (skipn offset view)) as H.
    rewrite firstn_skipn, Hpre in H.
    rewrite H by (rewrite length_skipn, Hlen; lia).
    rewrite skipn_skipn, Hlen, (Nat.add_comm (String.length s)).
    unfold charCodes, asciiBytes. rewrite map_map.
    rewrite (map_ext _ byte_of_ascii u8_charCode). reflexivity.
  - intros Hne Hover. unfold writeString. apply writeCodes_overflow.
    + destruct s; [contradiction | discriminate].
    + rewrite Hlen. exact Hover.
Qed.

Lemma writeString_overwrites_witness :
  writeString [x00; x01; x02; x03; x04; x05] 1 "fmt "
  = Ok [x00; x66; x6d; x74; x20; x05]
  /\ writeString [x00; x01; x02; x03; x04; x05] 3 "fmt " = Throw RangeError.
Proof.
  destruct (writeString_overwrites [x00; x01; x02; x03; x04; x05] 1 "fmt ")
    as (Hfit & _ & _).
  destruct (writeString_overwrites [x00; x01; x02; x03; x04; x05] 3 "fmt ")
    as (_ & Hover & _).
  split.
  - rewrite Hfit by (cbn; lia). reflexivity.
  - apply Hover; [discriminate | cbn; lia].
Defined.

(** ** The decoder: too few samples, range of the samples *)

(** X7. A buffer of even length that holds fewer samples than channels,
    the empty buffer first of all, is refused by [createBuffer]: the
    decoder fails with [NotSupportedError]. *)
Theorem decodeAudioToBuffer_too_short
    (data : list byte) (ctx : AudioContext) (rate : Z) (nch : nat) :
  Nat.even (length data) = true ->
  (length data / 2 < nch)%nat ->
  decodeAudioToBuffer data ctx rate nch = Throw NotSupportedError.
Proof.
  intros Heven Hshort. unfold decodeAudioToBuffer, newInt16Array.
  rewrite Heven. cbn [bind]. rewrite int16Elements_length.
  rewrite Nat.div_small by exact Hshort.
  unfold createBuffer. cbn [Nat.leb].
  rewrite !andb_false_r. reflexivity.
Qed.

Lemma decodeAudioToBuffer_too_short_witness :
  Nat.even (length (@nil byte)) = true
  /\ (length (@nil byte) / 2 < 1)%nat
  /\ decodeAudioToBuffer [] standardContext defaultSampleRate 1
     = Throw NotSupportedError.
Proof.
  split; [reflexivity|]. split; [cbn; lia|].
  apply decodeAudioToBuffer_too_short; [reflexivity | cbn; lia].
Defined.

Lemma createBuffer_Ok_inv (ctx : AudioContext) (nch len : nat) (rate : Z)
    (buffer : AudioBuffer) :
  createBuffer ctx nch len rate = Ok buffer ->
  supports ctx nch rate /\ (1 <= len)%nat.
Proof.
  unfold createBuffer, supports.
  destruct (1 <=? nch)%nat eqn:E1; [|discriminate].
  destruct (nch <=? maxChannelCount ctx)%nat eqn:E2; [|discriminate].
  destruct (1 <=? len)%nat eqn:E3; [|discriminate].
  destruct (minSampleRate ctx <=? rate) eqn:E4; [|discriminate].
  destruct (rate <=? maxSampleRate ctx) eqn:E5; [|discriminate].
  intros _. apply Nat.leb_le in E1, E2, E3. lia.
Qed.

(** When the decoder succeeds: the length is even, the context accepts
    the request, and there is at least one frame. *)
Lemma decodeAudioToBuffer_Ok_inv (data : list byte) (ctx : AudioContext)
    (rate : Z) (nch : nat) (buffer : AudioBuffer) :
  decodeAudioToBuffer data ctx rate nch = Ok buffer ->
  Nat.even (length data) = true
  /\ supports ctx nch rate
  /\ (1 <= length data / 2 / nch)%nat.
Proof.
  unfold decodeAudioToBuffer, newInt16Array.
  destruct (Nat.even (length data)); [|discriminate]. cbn [bind].
  rewrite int16Elements_length.
  destruct (createBuffer ctx nch (length data / 2 / nch) rate) as [b|e] eqn:E;
    [|discriminate].
  intros _. split; [reflexivity|]. eapply createBuffer_Ok_inv, E.
Qed.

Lemma normalized_in_range (data : list byte) (k : nat) :
  (k < length data / 2)%nat -> inUnitRange (normalized (int16Elements data) k).
Proof.
  intro Hk. unfold normalized.
  destruct (nth_error (int16Elements data) k) as [v|] eqn:E.
  - rewrite int16Elements_nth in E. apply int16At_range in E.
    unfold inUnitRange, Qle, Qlt. cbn [Qnum Qden]. lia.
  - apply nth_error_None in E. rewrite int16Elements_length in E. lia.
Qed.

(** X8. Whenever the decoder returns a buffer, the buffer has as many
    channels as asked for, every channel has [frames] samples, and every
    sample is a number between -1 (included) and 1 (excluded): none is
    [NaN], none needs clamping. *)
Theorem decodeAudioToBuffer_samples_in_range
    (data : list byte) (ctx : AudioContext) (rate : Z) (nch : nat)
    (buffer : AudioBuffer) :
  decodeAudioToBuffer data ctx rate nch = Ok buffer ->
  length (channels buffer) = nch
  /\ frames buffer = (length data / 2 / nch)%nat
  /\ Forall (fun channelData =>
               length channelData = frames buffer
               /\ Forall inUnitRange channelData)
       (channels buffer).
Proof.
  intro Hok.
  destruct (decodeAudioToBuffer_Ok_inv _ _ _ _ _ Hok) as (Heven & Hsup & Hfr).
  rewrite (decodeAudioToBuffer_even data ctx rate nch Heven Hsup Hfr) in Hok.
  match type of Hok with
  | Ok ?b = _ => assert (Hb : buffer = b) by congruence
  end.
  rewrite Hb. clear Hok Hb. cbn [channels frames].
  split; [rewrite length_map, length_seq; reflexivity|].
  split; [reflexivity|].
  apply Forall_forall. intros channelData Hin.
  apply in_map_iff in Hin. destruct Hin as (c & <- & Hc).
  apply in_seq in Hc.
  split; [rewrite length_map, length_seq; reflexivity|].
  apply Forall_forall. intros x Hx.
  apply in_map_iff in Hx. destruct Hx as (i & <- & Hi).
  apply in_seq in Hi. apply normalized_in_range.
  pose proof (Nat.Div0.mul_div_le (length data / 2) nch) as Hle.
  generalize dependent (length data / 2 / nch)%nat.
  generalize (length data / 2)%nat. intros. nia.
Qed.

Lemma decodeAudioToBuffer_samples_in_range_witness :
  exists buffer,
    decodeAudioToBuffer [x00; x80; xff; x7f] standardContext 24000 1 = Ok buffer
    /\ Forall (fun channelData => length channelData = frames buffer
                                  /\ Forall inUnitRange channelData)
         (channels buffer).
Proof.
  assert (H : decodeAudioToBuffer [x00; x80; xff; x7f] standardContext 24000 1
              = Ok (mkAudioBuffer 1 2 24000
                      [[Num (-32768 # 32768); Num (32767 # 32768)]]))
    by (vm_compute; reflexivity).
  eexists. split; [exact H|].
  apply (decodeAudioToBuffer_samples_in_range _ _ _ _ _ H).
Defined.

(** ** Concatenation seen by the decoder *)

Lemma int16Elements_app (a b : list byte) :
  Nat.even (length a) = true ->
  int16Elements (a ++ b) = int16Elements a ++ int16Elements b.
Proof.
  induction a as [|x|x y rest IH] using list_ind2; intro Heven.
  - reflexivity.
  - discriminate.
  - cbn [app int16Elements]. rewrite IH; [reflexivity|].
    cbn [length] in Heven. exact Heven.
Qed.

Lemma int16Elements_concat (buffers : list (list byte)) :
  Forall (fun d => Nat.even (length d) = true) buffers ->
  int16Elements (concat buffers) = concat (map int16Elements buffers).
Proof.
  induction 1 as [|d ds Hd _ IH]; [reflexivity|].
  cbn [concat map]. rewrite int16Elements_app by exact Hd. rewrite IH.
  reflexivity.
Qed.

(** X9. When every buffer has an even number of bytes, the samples of
    the single track are the samples of the clips one after the other: no
    sample is split or shifted at a seam. *)
Theorem concatenateToSingleWav_samples (blocks : list AudioBlock) :
  Forall (fun d => Nat.even (length d) = true) (presentBuffers blocks) ->
  exists blob,
    concatenateToSingleWav blocks = Ok blob
    /\ int16Elements (skipn 44 (blob_bytes blob))
       = concat (map int16Elements (presentBuffers blocks)).
Proof.
  intro Heven. eexists. split.
  { rewrite concatenateToSingleWav_payload. apply createWavBlob_bytes. }
  cbn [blob_bytes].
  rewrite skipn_app, headerTable_length, Nat.sub_diag.
  rewrite skipn_all2 by (rewrite headerTable_length; lia).
  cbn [skipn app]. apply int16Elements_concat, Heven.
Qed.

Lemma concatenateToSingleWav_samples_witness :
  exists blob,
    concatenateToSingleWav (blocks threeClips) = Ok blob
    /\ int16Elements (skipn 44 (blob_bytes blob)) = [0; 32767; -32768].
Proof.
  destruct (concatenateToSingleWav_samples (blocks threeClips))
    as (blob & Hb & Hs).
  - repeat constructor.
  - exists blob. split; [exact Hb|]. rewrite Hs. reflexivity.
Defined.

(** ** The archive in general *)

Section Archive.

Lemma append_length (s1 s2 : string) :
  String.length (s1 ++ s2) = (String.length s1 + String.length s2)%nat.
Proof.
  induction s1 as [|c s1 IH]; [reflexivity|]. cbn. rewrite IH. reflexivity.
Qed.

Lemma append_cancel_r (s : string) :
  forall x y : string, (x ++ s = y ++ s)%string -> x = y.
Proof.
  induction x as [|c x IH]; intros y H.
  - destruct y as [|d y]; [reflexivity|].
    apply (f_equal String.length) in H. rewrite !append_length in H.
    cbn [String.length] in H. lia.
  - destruct y as [|d y].
    + apply (f_equal String.length) in H. rewrite !append_length in H.
      cbn [String.length] in H. lia.
    + cbn in H. injection H as -> H. f_equal. apply IH, H.
Qed.

Lemma to_uint_not_nil (n : nat) : Nat.to_uint n <> Decimal.Nil.
Proof.
  intro H. pose proof (DecimalNat.Unsigned.of_to n) as Hn.
  rewrite H in Hn. cbn in Hn. subst n. discriminate H.
Qed.

Lemma numberToString_inj (n m : nat) :
  numberToString n = numberToString m -> n = m.
Proof.
  unfold numberToString. intro H.
  apply DecimalNat.Unsigned.to_uint_inj.
  pose proof (NilZero.usu (Nat.to_uint n) (to_uint_not_nil n)) as Hn.
  pose proof (NilZero.usu (Nat.to_uint m) (to_uint_not_nil m)) as Hm.
  rewrite H in Hn. congruence.
Qed.

Lemma entryName_inj (i j : nat) : entryName i = entryName j -> i = j.
Proof.
  unfold entryName. intro H. cbn in H.
  injection H as H. apply append_cancel_r in H.
  apply numberToString_inj in H. lia.
Qed.

Lemma zipFile_fresh (zip : Zip) (name : string) (data : Blob) :
  ~ In name (map fst zip) -> zipFile zip name data = zip ++ [(name, data)].
Proof.
  induction zip as [|[n d] zip IH]; intro Hfresh; [reflexivity|].
  cbn [zipFile]. cbn [map fst In] in Hfresh.
  destruct (String.eqb_spec n name) as [-> | _]; [tauto|].
  rewrite IH by tauto. reflexivity.
Qed.

Lemma audioAt_bounds (blocks : list AudioBlock) :
  forall index i pcm,
    In (i, pcm) (audioAt index blocks) ->
    (index <= i)%nat
    /\ exists b, nth_error blocks (i - index) = Some b /\ audioData b = Some pcm.
Proof.
  induction blocks as [|b blocks IH]; intros index i pcm Hin; [contradiction|].
  cbn [audioAt] in Hin.
  assert (Hrest : In (i, pcm) (audioAt (S index) blocks) ->
                  (index <= i)%nat
                  /\ exists b', nth_error (b :: blocks) (i - index) = Some b'
                                /\ audioData b' = Some pcm).
  { intro H. destruct (IH _ _ _ H) as (Hle & b' & Hn & Ha).
    split; [lia|]. exists b'. split; [|exact Ha].
    replace (i - index)%nat with (S (i - S index)) by lia. exact Hn. }
  destruct (audioData b) as [d|] eqn:E; [|exact (Hrest Hin)].
  destruct Hin as [Heq | Hin]; [|exact (Hrest Hin)].
  injection Heq as <- <-. split; [lia|]. exists b.
  rewrite Nat.sub_diag. split; [reflexivity | exact E].
Qed.

Lemma audioAt_complete (blocks : list AudioBlock) :
  forall index k b pcm,
    nth_error blocks k = Some b -> audioData b = Some pcm ->
    In ((index + k)%nat, pcm) (audioAt index blocks).
Proof.
  induction blocks as [|x blocks IH]; intros index k b pcm Hn Ha.
  - destruct k; discriminate.
  - cbn [audioAt]. destruct k as [|k]; cbn [nth_error] in Hn.
    + injection Hn as ->. rewrite Ha, Nat.add_0_r. left. reflexivity.
    + replace (index + S k)%nat with (S index + k)%nat by lia.
      destruct (audioData x); [right|]; eapply IH; eassumption.
Qed.

Lemma audioAt_NoDup (blocks : list AudioBlock) :
  forall index, NoDup (map fst (audioAt index blocks)).
Proof.
  induction blocks as [|b blocks IH]; intro index; [constructor|].
  cbn [audioAt]. destruct (audioData b); [|apply IH].
  cbn [map fst]. constructor; [|apply IH].
  intro Hin. apply in_map_iff in Hin. destruct Hin as ([i pcm] & Hi & Hin).
  cbn [fst] in Hi. subst i. apply audioAt_bounds in Hin. lia.
Qed.

Lemma audioAt_count (blocks : list AudioBlock) :
  forall index, length (audioAt index blocks) = length (filter hasAudio blocks).
Proof.
  induction blocks as [|b blocks IH]; intro index; [reflexivity|].
  cbn [audioAt filter]. unfold hasAudio at 1.
  destruct (audioData b); cbn [length]; rewrite IH; reflexivity.
Qed.

(** The loop of [generateZip]: no name is met twice, so every call of
    [zip.file] appends. *)
Lemma zipBlocks_from (blocks : list AudioBlock) :
  forall (zip : Zip) (index : nat),
    (forall name, In name (map fst zip) ->
                  exists j, (j < index)%nat /\ name = entryName j) ->
    fst (fold_left zipBlock blocks (Ok zip, index))
    = Ok (zip ++ map (fun p => (entryName (fst p),
                                mkBlob (headerTable (length (snd p))
                                          defaultSampleRate ++ snd p)
                                  "audio/wav"))
                   (audioAt index blocks)).
Proof.
  induction blocks as [|b blocks IH]; intros zip index Hold.
  - cbn. rewrite app_nil_r. reflexivity.
  - cbn [fold_left audioAt]. unfold zipBlock at 2.
    destruct (audioData b) as [pcm|].
    + cbn [bind]. rewrite createWavBlob_bytes. cbn [bind].
      change ("audio_" ++ numberToString (index + 1) ++ ".wav")%string
        with (entryName index).
      rewrite zipFile_fresh.
      * rewrite IH.
        -- cbn [map fst snd]. rewrite <- app_assoc. reflexivity.
        -- intros name Hin. rewrite map_app in Hin. apply in_app_or in Hin.
           destruct Hin as [Hin | [<- | []]].
           ++ destruct (Hold name Hin) as (j & Hj & ->). exists j. split; [lia|reflexivity].
           ++ exists index. split; [lia | reflexivity].
      * intro Hin. destruct (Hold _ Hin) as (j & Hj & Heq).
        apply entryName_inj in Heq. lia.
    + apply IH. intros name Hin. destruct (Hold name Hin) as (j & Hj & ->).
      exists j. split; [lia | reflexivity].
Qed.

Lemma audioAt_all_present (blocks : list AudioBlock) :
  forall index,
    Forall (fun b => hasAudio b = true) blocks ->
    map fst (audioAt index blocks) = seq index (length blocks)
    /\ map snd (audioAt index blocks) = presentBuffers blocks.
Proof.
  induction blocks as [|b blocks IH]; intros index Hall; [split; reflexivity|].
  inversion_clear Hall as [|? ? Hb Hrest].
  unfold hasAudio in Hb. cbn [audioAt]. unfold presentBuffers. cbn [flat_map].
  destruct (audioData b) as [pcm|]; [|discriminate].
  destruct (IH (S index) Hrest) as (H1 & H2).
  cbn [map fst snd length seq app]. rewrite H1.
  unfold presentBuffers in H2. rewrite H2. split; reflexivity.
Qed.

Lemma presentBuffers_filter (blocks : list AudioBlock) :
  presentBuffers (filter hasAudio blocks) = presentBuffers blocks.
Proof.
  induction blocks as [|b blocks IH]; [reflexivity|].
  unfold presentBuffers in *. cbn [filter flat_map]. unfold hasAudio at 1.
  destruct (audioData b) as [pcm|] eqn:E; cbn [flat_map]; rewrite ?E, IH;
    reflexivity.
Qed.

Lemma filter_hasAudio_all (blocks : list AudioBlock) :
  Forall (fun b => hasAudio b = true) (filter hasAudio blocks).
Proof.
  apply Forall_forall. intros b Hb. apply filter_In in Hb. apply Hb.
Qed.

End Archive.

(** X10. [generateZip] never fails. The archive gets one entry for every
    block that carries a buffer and no other: the entry of the block at
    position [i] (from 0) is named audio_(i+1).wav and holds the container
    framed from its buffer; the entries come in the order of the blocks and
    no name occurs twice, so no entry replaces another. *)
Theorem generateZip_entries (blocks : list AudioBlock) :
  exists zip,
    generateZip blocks = Ok zip
    /\ map fst zip = map (fun p => entryName (fst p)) (audioAt 0 blocks)
    /\ NoDup (map fst zip)
    /\ length zip = length (filter hasAudio blocks)
    /\ (forall i b pcm,
          nth_error blocks i = Some b -> audioData b = Some pcm ->
          exists wav,
            createWavBlob pcm defaultSampleRate = Ok wav
            /\ In (entryName i, wav) zip)
    /\ (forall name wav,
          In (name, wav) zip ->
          exists i b pcm,
            nth_error blocks i = Some b /\ audioData b = Some pcm
            /\ name = entryName i
            /\ createWavBlob pcm defaultSampleRate = Ok wav).
Proof.
  eexists. split.
  { unfold generateZip. apply (zipBlocks_from blocks [] 0).
    intros name []. }
  cbn [app]. split; [rewrite map_map; reflexivity|].
  split.
  { rewrite map_map. cbn [fst].
    rewrite <- (map_map fst entryName).
    apply Finite.Injective_map_NoDup; [|apply audioAt_NoDup].
    intros i j. apply entryName_inj. }
  split; [rewrite length_map; apply audioAt_count|].
  split.
  - intros i b pcm Hn Ha. eexists. split; [apply createWavBlob_bytes|].
    apply in_map_iff. exists (i, pcm). split; [reflexivity|].
    exact (audioAt_complete blocks 0 i b pcm Hn Ha).
  - intros name wav Hin. apply in_map_iff in Hin.
    destruct Hin as ([i pcm] & Heq & Hin). cbn [fst snd] in Heq.
    destruct (audioAt_bounds _ _ _ _ Hin) as (_ & b & Hn & Ha).
    rewrite Nat.sub_0_r in Hn. exists i, b, pcm.
    split; [exact Hn|]. split; [exact Ha|].
    split; [congruence|]. rewrite createWavBlob_bytes. congruence.
Qed.

Lemma generateZip_entries_witness :
  exists zip wav,
    generateZip [segment "a" None; segment "b" (Some [x01; x02])] = Ok zip
    /\ In ("audio_2.wav"%string, wav) zip
    /\ length zip = 1%nat.
Proof.
  destruct (generateZip_entries
              [segment "a" None; segment "b" (Some [x01; x02])])
    as (zip & Hz & _ & _ & Hlen & Hin & _).
  destruct (Hin 1%nat (segment "b" (Some [x01; x02])) [x01; x02]
              eq_refl eq_refl) as (wav & _ & Hw).
  exists zip, wav. split; [exact Hz|]. split; [exact Hw | exact Hlen].
Defined.

(** X11. [downloadZip] does nothing when no block carries a buffer.
    Otherwise, because it filters before it packs, the entries are
    numbered 1, 2, ... without gap in the order of the generated blocks,
    whatever the positions of these blocks in the composition, and hold
    their framed buffers. *)
Theorem downloadZip_numbering (st : State) :
  (filter hasAudio (blocks st) = [] -> downloadZip st = None)
  /\ (filter hasAudio (blocks st) <> [] ->
      exists zip,
        downloadZip st = Some (Ok zip)
        /\ map fst zip
           = map entryName (seq 0 (length (filter hasAudio (blocks st))))
        /\ Forall2 (fun pcm entry =>
                      createWavBlob pcm defaultSampleRate = Ok (snd entry))
             (presentBuffers (blocks st)) zip).
Proof.
  unfold downloadZip. cbv zeta. split.
  - intros ->. reflexivity.
  - intro Hne.
    destruct (audioAt_all_present (filter hasAudio (blocks st)) 0
                (filter_hasAudio_all (blocks st))) as (Hidx & Hbuf).
    rewrite presentBuffers_filter in Hbuf.
    pose proof (zipBlocks_from (filter hasAudio (blocks st)) [] 0) as Hz.
    cbn [app] in Hz. specialize (Hz (fun name (H : In name []) =>
                                       match H with end)).
    match type of Hz with
    | _ = Ok ?z =>
        assert (Hg : generateZip (filter hasAudio (blocks st)) = Ok z)
          by exact Hz
    end.
    eexists. split.
    { replace (match filter hasAudio (blocks st) with
               | [] => None
               | _ :: _ => Some (generateZip (filter hasAudio (blocks st)))
               end)
        with (Some (generateZip (filter hasAudio (blocks st))))
        by (destruct (filter hasAudio (blocks st));
            [contradiction | reflexivity]).
      rewrite Hg. reflexivity. }
    split.
    + rewrite map_map. cbn [fst]. rewrite <- (map_map fst entryName), Hidx.
      reflexivity.
    + rewrite <- Hbuf. clear.
      induction (audioAt 0 (filter hasAudio (blocks st))) as [|[i pcm] l IH];
        cbn [map snd]; constructor; [apply createWavBlob_bytes | exact IH].
Qed.

Lemma downloadZip_numbering_witness :
  exists zip,
    downloadZip (stateOf [segment "a" None; segment "b" (Some [x01; x02]);
                          segment "c" None; segment "d" (Some [x03; x04])])
    = Some (Ok zip)
    /\ map fst zip = ["audio_1.wav"%string; "audio_2.wav"%string].
Proof.
  destruct (downloadZip_numbering
              (stateOf [segment "a" None; segment "b" (Some [x01; x02]);
                        segment "c" None; segment "d" (Some [x03; x04])]))
    as (_ & H).
  destruct H as (zip & Hz & Hn & _); [discriminate|].
  exists zip. split; [exact Hz | exact Hn].
Defined.

(** X12. [downloadSingleTrack] does nothing when no block carries a
    buffer. Otherwise it never fails, its filter changes nothing for the
    concatenator, and the track is the container of the present buffers
    in the order of the composition. *)
Theorem downloadSingleTrack_track (st : State) :
  (filter hasAudio (blocks st) = [] -> downloadSingleTrack st = None)
  /\ (filter hasAudio (blocks st) <> [] ->
      exists blob,
        downloadSingleTrack st = Some (Ok blob)
        /\ concatenateToSingleWav (blocks st) = Ok blob
        /\ skipn 44 (blob_bytes blob) = concat (presentBuffers (blocks st))
        /\ blob_size blob
           = (44 + length (concat (presentBuffers (blocks st))))%nat).
Proof.
  unfold downloadSingleTrack. cbv zeta. split.
  - intros ->. reflexivity.
  - intro Hne.
    assert (Hsame : concatenateToSingleWav (filter hasAudio (blocks st))
                    = concatenateToSingleWav (blocks st)).
    { rewrite !concatenateToSingleWav_payload, presentBuffers_filter.
      reflexivity. }
    eexists. split.
    { destruct (filter hasAudio (blocks st)) eqn:E; [contradiction|].
      rewrite Hsame, concatenateToSingleWav_payload, createWavBlob_bytes.
      reflexivity. }
    split; [rewrite concatenateToSingleWav_payload; apply createWavBlob_bytes|].
    unfold blob_size. cbn [blob_bytes]. split.
    + rewrite skipn_app, headerTable_length, Nat.sub_diag.
      rewrite skipn_all2 by (rewrite headerTable_length; lia). reflexivity.
    + rewrite length_app, headerTable_length. reflexivity.
Qed.

Lemma downloadSingleTrack_track_witness :
  exists blob,
    downloadSingleTrack
      (stateOf [segment "a" None; segment "b" (Some [x01; x02]);
                segment "c" None; segment "d" (Some [x03; x04])])
    = Some (Ok blob)
    /\ skipn 44 (blob_bytes blob) = [x01; x02; x03; x04].
Proof.
  destruct (downloadSingleTrack_track
              (stateOf [segment "a" None; segment "b" (Some [x01; x02]);
                        segment "c" None; segment "d" (Some [x03; x04])]))
    as (_ & H).
  destruct H as (blob & Hb & _ & Hp & _); [discriminate|].
  exists blob. split; [exact Hb | exact Hp].
Defined.

(** ** Editing the composition *)

Lemma findIndex_first {A : Type} (p : A -> bool) (pre post : list A) (x : A) :
  forallb (fun y => negb (p y)) pre = true -> p x = true ->
  findIndex p (pre ++ x :: post) = Some (length pre).
Proof.
  intros Hpre Hx. induction pre as [|y pre IH]; cbn [app findIndex length].
  - rewrite Hx. reflexivity.
  - cbn [forallb] in Hpre. apply andb_prop in Hpre. destruct Hpre as (Hy & Hpre).
    apply negb_true_iff in Hy. rewrite Hy, (IH Hpre). reflexivity.
Qed.

Lemma findIndex_none {A : Type} (p : A -> bool) (l : list A) :
  forallb (fun y => negb (p y)) l = true -> findIndex p l = None.
Proof.
  induction l as [|y l IH]; intro H; [reflexivity|].
  cbn [forallb] in H. apply andb_prop in H. destruct H as (Hy & Hl).
  apply negb_true_iff in Hy. cbn [findIndex]. rewrite Hy, (IH Hl). reflexivity.
Qed.

(** X13. [addBlock] adds exactly one empty block and touches nothing
    else. Without id, or with the empty id, the block goes to the end;
    with the id of a block it goes right after the first block that has
    this id; with an id that no block has it goes to the front, because
    [findIndex] answers -1 and [splice] inserts at [index + 1]. *)
Theorem addBlock_position (afterId : option string) (newId : string)
    (st : State) :
  settings (addBlock afterId newId st) = settings st
  /\ isPlayingAll (addBlock afterId newId st) = isPlayingAll st
  /\ currentAudioSource (addBlock afterId newId st) = currentAudioSource st
  /\ sources (addBlock afterId newId st) = sources st
  /\ length (blocks (addBlock afterId newId st)) = S (length (blocks st))
  /\ ((afterId = None \/ afterId = Some ""%string) ->
      blocks (addBlock afterId newId st) = blocks st ++ [newBlock newId])
  /\ (forall a pre b post,
        afterId = Some a -> a <> ""%string ->
        blocks st = pre ++ b :: post -> id b = a ->
        forallb (fun x => negb (String.eqb (id x) a)) pre = true ->
        blocks (addBlock afterId newId st)
        = pre ++ b :: newBlock newId :: post)
  /\ (forall a,
        afterId = Some a -> a <> ""%string ->
        forallb (fun x => negb (String.eqb (id x) a)) (blocks st) = true ->
        blocks (addBlock afterId newId st) = newBlock newId :: blocks st).
Proof.
  assert (Hshape :
    (exists k, blocks (addBlock afterId newId st)
               = firstn k (blocks st) ++ newBlock newId :: skipn k (blocks st))
    /\ settings (addBlock afterId newId st) = settings st
    /\ isPlayingAll (addBlock afterId newId st) = isPlayingAll st
    /\ currentAudioSource (addBlock afterId newId st) = currentAudioSource st
    /\ sources (addBlock afterId newId st) = sources st).
  { unfold addBlock.
    destruct afterId as [a|]; [destruct (String.eqb a "")|];
      unfold setBlocks; cbn [blocks settings isPlayingAll currentAudioSource sources];
      (split; [|repeat split]).
    - exists (length (blocks st)). rewrite firstn_all, skipn_all. reflexivity.
    - eexists. reflexivity.
    - exists (length (blocks st)). rewrite firstn_all, skipn_all. reflexivity. }
  destruct Hshape as ((k & Hk) & Hs & Ha & Hr & Hn).
  repeat (split; [assumption|]).
  split.
  { rewrite Hk, length_app. cbn [length].
    rewrite <- (firstn_skipn k (blocks st)) at 3. rewrite length_app. lia. }
  split; [|split].
  - intros [-> | ->]; reflexivity.
  - intros a pre b post -> Hne Hsplit Hid Hpre. unfold addBlock.
    destruct (String.eqb_spec a "") as [-> | _]; [contradiction|].
    unfold setBlocks. cbn [blocks]. rewrite Hsplit.
    rewrite (findIndex_first _ pre post b Hpre)
      by (rewrite Hid; apply String.eqb_refl).
    replace (pre ++ b :: post) with ((pre ++ [b]) ++ post)
      by (rewrite <- app_assoc; reflexivity).
    replace (S (length pre)) with (length (pre ++ [b]))
      by (rewrite length_app; cbn [length]; lia).
    rewrite firstn_app, firstn_all, Nat.sub_diag, firstn_O, app_nil_r.
    rewrite skipn_app, skipn_all, Nat.sub_diag. cbn [skipn app].
    rewrite <- app_assoc. reflexivity.
  - intros a -> Hne Hnone. unfold addBlock.
    destruct (String.eqb_spec a "") as [-> | _]; [contradiction|].
    unfold setBlocks. cbn [blocks].
    rewrite (findIndex_none _ _ Hnone). reflexivity.
Qed.

Lemma addBlock_position_witness :
  blocks (addBlock (Some "a"%string) "n"
            (stateOf [segment "a" None; segment "b" None]))
  = [segment "a" None; newBlock "n"; segment "b" None]
  /\ blocks (addBlock (Some "zz"%string) "n"
               (stateOf [segment "a" None; segment "b" None]))
     = [newBlock "n"; segment "a" None; segment "b" None].
Proof.
  split.
  - destruct (addBlock_position (Some "a"%string) "n"
                (stateOf [segment "a" None; segment "b" None]))
      as (_ & _ & _ & _ & _ & _ & Hafter & _).
    apply (Hafter "a"%string [] (segment "a" None) [segment "b" None]);
      first [reflexivity | discriminate].
  - destruct (addBlock_position (Some "zz"%string) "n"
                (stateOf [segment "a" None; segment "b" None]))
      as (_ & _ & _ & _ & _ & _ & _ & Hfront).
    apply (Hfront "zz"%string); first [reflexivity | discriminate].
Defined.

Lemma filter_filter_same {A : Type} (p : A -> bool) (l : list A) :
  filter p (filter p l) = filter p l.
Proof.
  apply forallb_filter_id. apply forallb_forall. intros x Hx.
  apply filter_In in Hx. apply Hx.
Qed.

(** X14. [removeBlock] on a list of two or more blocks removes every
    block that has the id, not only one, and keeps the others in their
    order; it changes nothing else, and doing it twice is doing it
    once. *)
Theorem removeBlock_removes_all (blockId : string) (st : State) :
  removeBlock blockId (removeBlock blockId st) = removeBlock blockId st
  /\ ((1 < length (blocks st))%nat ->
      Forall (fun b => id b <> blockId) (blocks (removeBlock blockId st)))
  /\ filter (fun b => negb (String.eqb (id b) blockId))
       (blocks (removeBlock blockId st))
     = filter (fun b => negb (String.eqb (id b) blockId)) (blocks st)
  /\ settings (removeBlock blockId st) = settings st
  /\ isPlayingAll (removeBlock blockId st) = isPlayingAll st
  /\ currentAudioSource (removeBlock blockId st) = currentAudioSource st
  /\ sources (removeBlock blockId st) = sources st.
Proof.
  unfold removeBlock, setBlocks.
  cbn [blocks settings isPlayingAll currentAudioSource sources].
  set (p := fun b => negb (String.eqb (id b) blockId)).
  split; [|split; [|split; [|repeat split]]].
  - f_equal. destruct (1 <? length (blocks st))%nat eqn:E.
    + rewrite filter_filter_same.
      destruct (1 <? length (filter p (blocks st)))%nat; reflexivity.
    + rewrite E. reflexivity.
  - intro Hlen. apply Nat.ltb_lt in Hlen. rewrite Hlen.
    apply Forall_forall. intros b Hb. apply filter_In in Hb.
    destruct Hb as (_ & Hb). subst p. cbv beta in Hb.
    apply negb_true_iff in Hb. apply String.eqb_neq. exact Hb.
  - destruct (1 <? length (blocks st))%nat; [apply filter_filter_same|reflexivity].
Qed.

Lemma removeBlock_removes_all_witness :
  (1 < length [segment "p" None; segment "a" None; segment "p" None])%nat
  /\ blocks (removeBlock "p"
               (stateOf [segment "p" None; segment "a" None; segment "p" None]))
     = [segment "a" None]
  /\ Forall (fun b => id b <> "p"%string)
       (blocks (removeBlock "p"
                  (stateOf [segment "p" None; segment "a" None;
                            segment "p" None]))).
Proof.
  split; [cbn; lia|]. split; [reflexivity|].
  destruct (removeBlock_removes_all "p"
              (stateOf [segment "p" None; segment "a" None; segment "p" None]))
    as (_ & H & _).
  apply H. cbn. lia.
Defined.

(** ** What an event does to the audio nodes *)

Section Nodes.

Variable ctx : AudioContext.

Lemma nth_error_setIndex_same {A : Type} (l : list A) (i : nat) (x v : A) :
  nth_error l i = Some x -> nth_error (setIndex l i v) i = Some v.
Proof.
  revert i. induction l as [|y l IH]; intros i H; [destruct i; discriminate|].
  destruct i as [|i]; [reflexivity|]. cbn [setIndex nth_error] in *.
  apply IH, H.
Qed.

Lemma nth_error_setIndex_other {A : Type} (l : list A) (i j : nat) (v : A) :
  i <> j -> nth_error (setIndex l i v) j = nth_error l j.
Proof.
  revert i j. induction l as [|y l IH]; intros i j Hij; [reflexivity|].
  destruct i as [|i], j as [|j]; cbn [setIndex nth_error];
    try reflexivity; try contradiction.
  apply IH. congruence.
Qed.

Lemma length_setIndex {A : Type} (l : list A) (i : nat) (v : A) :
  length (setIndex l i v) = length l.
Proof.
  revert i. induction l as [|y l IH]; intro i; [reflexivity|].
  destruct i; cbn [setIndex length]; [reflexivity|]. rewrite IH. reflexivity.
Qed.

(** The three ways the loop of [playAllSequentially] can go on: the queue
    holds no further buffer and the call returns; a buffer does not decode
    and the call is rejected; the next clip starts. *)
Lemma playLoop_cases (queue : list AudioBlock) (st : State) :
  playLoop ctx queue st = setIsPlayingAll false st
  \/ playLoop ctx queue st = st
  \/ exists b rest,
       In b queue
       /\ playLoop ctx queue st
          = startSource (id b) (PlayAllEnded (id b) rest) true
              (setBlocks (markPlaying (id b) true) st).
Proof.
  induction queue as [|b queue IH]; [left; reflexivity|].
  cbn [playLoop]. destruct (audioData b) as [pcm|].
  - destruct (decodeAudioToBuffer pcm ctx defaultSampleRate 1).
    + right. right. exists b, queue. split; [left|]; reflexivity.
    + right. left. reflexivity.
  - destruct IH as [H | [H | (b' & rest & Hin & H)]]; auto.
    right. right. exists b', rest. split; [right; exact Hin | exact H].
Qed.

(** The ways the [ended] event of node [s] can go: nothing happens (no
    such node, or it has finished before), or the node finishes and its
    handler runs. *)
Lemma ended_cases (s : nat) (st : State) :
  ended ctx s st = st
  \/ exists n,
       nth_error (sources st) s = Some n /\ status n <> Finished
       /\ (ended ctx s st = finishNode s n st
           \/ (exists blockId,
                 (onended n = PlayBlockEnded blockId
                  \/ exists rest, onended n = PlayAllEnded blockId rest)
                 /\ (ended ctx s st
                     = setBlocks (markPlaying blockId false) (finishNode s n st)
                     \/ ended ctx s st
                        = setIsPlayingAll false
                            (setBlocks (markPlaying blockId false)
                               (finishNode s n st))
                     \/ exists rest,
                          ended ctx s st
                          = playLoop ctx rest
                              (setBlocks (markPlaying blockId false)
                                 (finishNode s n st))))).
Proof.
  unfold ended. destruct (nth_error (sources st) s) as [n|] eqn:En;
    [|left; reflexivity].
  cbv zeta. fold (finishNode s n st).
  destruct (status n) eqn:Es; [right | right | left; reflexivity];
    (exists n; split; [reflexivity|]; split; [rewrite Es; discriminate|];
     generalize (finishNode s n st); intro st1;
     destruct (onended n) as [|blockId|blockId rest];
     [ left; reflexivity
     | right; exists blockId; split; [left; reflexivity|]; left; reflexivity
     | right; exists blockId; split; [right; exists rest; reflexivity|];
       destruct (currentAudioSource _);
       [ right; right; exists rest; reflexivity
       | right; left; reflexivity ] ]).
Qed.

End Nodes.

Section NodeShape.

Variable ctx : AudioContext.

Lemma stopSource_length (r : nat) (nodes : list SourceNode) :
  length (stopSource r nodes) = length nodes.
Proof.
  unfold stopSource. destruct (nth_error nodes r) as [n|]; [|reflexivity].
  destruct (status n); try reflexivity. apply length_setIndex.
Qed.

Lemma stopSource_other (r s : nat) (nodes : list SourceNode) :
  r <> s -> nth_error (stopSource r nodes) s = nth_error nodes s.
Proof.
  intro Hrs. unfold stopSource.
  destruct (nth_error nodes r) as [n|]; [|reflexivity].
  destruct (status n); try reflexivity.
  apply nth_error_setIndex_other. exact Hrs.
Qed.

(** After [stop()] the node is no longer playing. *)
Lemma stopSource_at (r : nat) (nodes : list SourceNode) (n : SourceNode) :
  nth_error nodes r = Some n ->
  exists n',
    nth_error (stopSource r nodes) r = Some n'
    /\ status n' <> Playing /\ clip n' = clip n /\ onended n' = onended n.
Proof.
  intro Hn. unfold stopSource. rewrite Hn.
  destruct (status n) eqn:Es.
  - eexists. split; [eapply nth_error_setIndex_same, Hn|].
    cbn [status clip onended]. repeat split. discriminate.
  - exists n. rewrite Es. repeat split; [exact Hn | discriminate].
  - exists n. rewrite Es. repeat split; [exact Hn | discriminate].
Qed.

Lemma stopAllPlayback_sources_length (st : State) :
  length (sources (stopAllPlayback st)) = length (sources st).
Proof.
  unfold stopAllPlayback. cbn [sources].
  destruct (currentAudioSource st); [apply stopSource_length | reflexivity].
Qed.

Lemma stopAllPlayback_other (st : State) (s : nat) :
  currentAudioSource st <> Some s ->
  nth_error (sources (stopAllPlayback st)) s = nth_error (sources st) s.
Proof.
  intro Hs. unfold stopAllPlayback. cbn [sources].
  destruct (currentAudioSource st) as [r|]; [|reflexivity].
  apply stopSource_other. congruence.
Qed.

(** The nodes after an event: the nodes before, of which at most one
    changed its status (the one in the ref was stopped, or the one whose
    [ended] event this is has finished), followed by at most one node that
    was started; the ref keeps its value, is emptied, or names the node
    just started. *)
Lemma step_shape (st : State) (ev : Event) :
  exists base extra,
    sources (step ctx st ev) = base ++ extra
    /\ (base = sources st
        \/ (base = sources (stopAllPlayback st) /\ stopsPlayback ev = true)
        \/ (base = sources (stopAllPlayback st) /\ startsPlayback ev = true)
        \/ exists s n,
             ev = Ended s /\ nth_error (sources st) s = Some n
             /\ status n <> Finished /\ base = sources (finishNode s n st))
    /\ ((extra = []
         /\ (currentAudioSource (step ctx st ev) = currentAudioSource st
             \/ currentAudioSource (step ctx st ev) = None))
        \/ exists node,
             extra = [node] /\ status node = Playing
             /\ (currentAudioSource (step ctx st ev) = Some (length base)
                 \/ (currentAudioSource (step ctx st ev) = currentAudioSource st
                     /\ onended node = NoHandler))).
Proof.
  assert (Hsame : forall st', sources st' = sources st ->
            currentAudioSource st' = currentAudioSource st ->
            exists base extra,
              sources st' = base ++ extra
              /\ (base = sources st
                  \/ (base = sources (stopAllPlayback st)
                      /\ stopsPlayback ev = true)
                  \/ (base = sources (stopAllPlayback st)
                      /\ startsPlayback ev = true)
                  \/ exists s n,
                       ev = Ended s /\ nth_error (sources st) s = Some n
                       /\ status n <> Finished
                       /\ base = sources (finishNode s n st))
              /\ ((extra = []
                   /\ (currentAudioSource st' = currentAudioSource st
                       \/ currentAudioSource st' = None))
                  \/ exists node,
                       extra = [node] /\ status node = Playing
                       /\ (currentAudioSource st' = Some (length base)
                           \/ (currentAudioSource st' = currentAudioSource st
                               /\ onended node = NoHandler)))).
  { intros st' Hs Hr. exists (sources st), []. rewrite app_nil_r.
    split; [exact Hs|]. split; [left; reflexivity|]. left. auto. }
  destruct ev; cbn [step].
  - (* Ended *)
    destruct (ended_cases ctx s st) as [-> | (n & Hn & Hlive & Hcase)];
      [apply Hsame; reflexivity|].
    assert (Hbase : exists s0 n0,
              Ended s = Ended s0 /\ nth_error (sources st) s0 = Some n0
              /\ status n0 <> Finished
              /\ sources (finishNode s n st) = sources (finishNode s0 n0 st))
      by (exists s, n; auto).
    destruct Hcase as [-> | (blockId & _ & [-> | [-> | (rest & ->)]])].
    + exists (sources (finishNode s n st)), []. rewrite app_nil_r.
      split; [reflexivity|]. split; [right; right; right; exact Hbase|].
      left. auto.
    + exists (sources (finishNode s n st)), []. rewrite app_nil_r.
      split; [reflexivity|]. split; [right; right; right; exact Hbase|].
      left. auto.
    + exists (sources (finishNode s n st)), []. rewrite app_nil_r.
      split; [reflexivity|]. split; [right; right; right; exact Hbase|].
      left. auto.
    + destruct (playLoop_cases ctx rest
                  (setBlocks (markPlaying blockId false) (finishNode s n st)))
        as [-> | [-> | (b & rest' & _ & ->)]].
      * exists (sources (finishNode s n st)), []. rewrite app_nil_r.
        split; [reflexivity|]. split; [right; right; right; exact Hbase|].
        left. auto.
      * exists (sources (finishNode s n st)), []. rewrite app_nil_r.
        split; [reflexivity|]. split; [right; right; right; exact Hbase|].
        left. auto.
      * exists (sources (finishNode s n st)), [mkSource (id b) (PlayAllEnded (id b) rest') Playing].
        split; [reflexivity|]. split; [right; right; right; exact Hbase|].
        right. eexists. split; [reflexivity|]. split; [reflexivity|].
        left. reflexivity.
  - (* StopAll *)
    exists (sources (stopAllPlayback st)), []. rewrite app_nil_r.
    split; [reflexivity|]. split; [right; left; auto|]. left. auto.
  - (* PlayBlock *)
    destruct (playBlock_stops_first ctx blockId st) as [-> | ->].
    + exists (sources (stopAllPlayback st)), []. rewrite app_nil_r.
      split; [reflexivity|]. split; [right; right; left; auto|]. left. auto.
    + exists (sources (stopAllPlayback st)),
             [mkSource blockId (PlayBlockEnded blockId) Playing].
      split; [reflexivity|]. split; [right; right; left; auto|].
      right. eexists. split; [reflexivity|]. split; [reflexivity|].
      left. reflexivity.
  - (* PlayAll *)
    unfold playAllSequentially. destruct (isPlayingAll st).
    + exists (sources (stopAllPlayback st)), []. rewrite app_nil_r.
      split; [reflexivity|]. split; [right; right; left; auto|]. left. auto.
    + destruct (filter hasAudio (blocks st)) as [|b0 l0];
        [apply Hsame; reflexivity|].
      destruct (playLoop_cases ctx (b0 :: l0) (setIsPlayingAll true st))
        as [-> | [-> | (b & rest' & _ & ->)]];
        try (apply Hsame; reflexivity).
      exists (sources st), [mkSource (id b) (PlayAllEnded (id b) rest') Playing].
      split; [reflexivity|]. split; [left; reflexivity|].
      right. eexists. split; [reflexivity|]. split; [reflexivity|].
      left. reflexivity.
  - (* AddBlock *)
    apply Hsame; unfold addBlock;
      destruct afterId as [a|]; [destruct (String.eqb a "")| |
                                  destruct (String.eqb a "")|]; reflexivity.
  - apply Hsame; reflexivity.
  - apply Hsame; reflexivity.
  - (* ClearAll *)
    exists (sources (stopAllPlayback st)), []. rewrite app_nil_r.
    split; [reflexivity|]. split; [right; left; auto|]. left. auto.
  - apply Hsame; reflexivity.
  - apply Hsame; reflexivity.
  - apply Hsame; reflexivity.
  - apply Hsame; reflexivity.
  - (* PreviewSettled *)
    unfold previewSettled. destruct response as [pcm|e];
      [|apply Hsame; reflexivity].
    destruct (decodeAudioToBuffer pcm ctx defaultSampleRate 1);
      [|apply Hsame; reflexivity].
    exists (sources st), [mkSource "preview" NoHandler Playing].
    split; [reflexivity|]. split; [left; reflexivity|].
    right. eexists. split; [reflexivity|]. split; [reflexivity|].
    right. split; reflexivity.
Qed.

Lemma finishNode_length (s : nat) (n : SourceNode) (st : State) :
  length (sources (finishNode s n st)) = length (sources st).
Proof.
  apply length_setIndex.
Qed.

Lemma step_base_length (st : State) (ev : Event) (base : list SourceNode) :
  (base = sources st
   \/ (base = sources (stopAllPlayback st) /\ stopsPlayback ev = true)
   \/ (base = sources (stopAllPlayback st) /\ startsPlayback ev = true)
   \/ exists s n,
        ev = Ended s /\ nth_error (sources st) s = Some n
        /\ status n <> Finished /\ base = sources (finishNode s n st)) ->
  length base = length (sources st).
Proof.
  intros [-> | [(-> & _) | [(-> & _) | (s & n & _ & _ & _ & ->)]]].
  - reflexivity.
  - apply stopAllPlayback_sources_length.
  - apply stopAllPlayback_sources_length.
  - apply finishNode_length.
Qed.

(** The ref never dangles. *)
Lemma step_refValid (st : State) (ev : Event) :
  refValid st -> refValid (step ctx st ev).
Proof.
  intros Hv r Hr.
  destruct (step_shape st ev) as (base & extra & Hs & Hbase & Hextra).
  pose proof (step_base_length st ev base Hbase) as Hlen.
  rewrite Hs, length_app, Hlen.
  destruct Hextra as [(-> & [H | H]) | (node & -> & _ & [H | (H & _)])];
    rewrite H in Hr.
  - specialize (Hv r Hr). lia.
  - discriminate.
  - injection Hr as <-. cbn [length]. lia.
  - specialize (Hv r Hr). lia.
Qed.

Lemma run_refValid (evs : list Event) :
  forall st, refValid st -> refValid (run ctx st evs).
Proof.
  induction evs as [|ev evs IH]; intros st Hv; [exact Hv|].
  unfold run. cbn [fold_left]. apply IH, step_refValid, Hv.
Qed.

(** A node that is not the one in the ref is out of reach: whatever
    happens except its own [ended] event leaves it as it is, and the ref
    will never name it. *)
Lemma step_orphan (st : State) (ev : Event) (s : nat) (n : SourceNode) :
  nth_error (sources st) s = Some n ->
  currentAudioSource st <> Some s ->
  ev <> Ended s ->
  nth_error (sources (step ctx st ev)) s = Some n
  /\ currentAudioSource (step ctx st ev) <> Some s.
Proof.
  intros Hn Href Hev.
  destruct (step_shape st ev) as (base & extra & Hs & Hbase & Hextra).
  pose proof (step_base_length st ev base Hbase) as Hlen.
  assert (Hlt : (s < length (sources st))%nat)
    by (apply nth_error_Some; congruence).
  split.
  - rewrite Hs, nth_error_app1 by lia.
    destruct Hbase as [-> | [(-> & _) | [(-> & _) | (s' & n' & -> & _ & _ & ->)]]].
    + exact Hn.
    + rewrite stopAllPlayback_other by exact Href. exact Hn.
    + rewrite stopAllPlayback_other by exact Href. exact Hn.
    + unfold finishNode. cbn [sources].
      rewrite nth_error_setIndex_other by congruence. exact Hn.
  - destruct Hextra as [(_ & [H | H]) | (node & _ & _ & [H | (H & _)])];
      rewrite H; try exact Href; try discriminate.
    intro Heq. injection Heq as Heq. lia.
Qed.

End NodeShape.

(** ** Playback: what is stopped, what is flagged, what cannot be reached *)

Lemma find_after_edit (blockId newText : string) (l : list AudioBlock) :
  match find (fun b => String.eqb (id b) blockId)
          (map (fun b =>
                  if String.eqb (id b) blockId
                  then mkAudioBlock (id b) newText None None (isGenerating b)
                         (isPlaying b) (error b)
                  else b) l)
  with
  | Some block => audioData block = None
  | None => True
  end.
Proof.
  induction l as [|b l IH]; [exact I|].
  cbn [map find]. destruct (String.eqb (id b) blockId) eqn:E.
  - cbn [id]. rewrite E. reflexivity.
  - rewrite E. exact IH.
Qed.

(** X16. Once the text of a block has been edited, [playBlock] on this
    block only stops what is playing: the buffer is gone, no node is
    created and no flag is set. *)
Theorem playBlock_after_edit (ctx : AudioContext) (blockId newText : string)
    (st : State) :
  playBlock ctx blockId (updateBlockText blockId newText st)
  = stopAllPlayback (updateBlockText blockId newText st).
Proof.
  unfold playBlock. unfold updateBlockText at 2. unfold setBlocks at 1.
  cbn [blocks].
  pose proof (find_after_edit blockId newText (blocks st)) as H.
  destruct (find _ _) as [block|]; [|reflexivity].
  rewrite H. reflexivity.
Qed.

(** X15. A successful [playBlock]: the node that was in the ref is no
    longer playing, one node is created for the block and stored in the
    ref, exactly the blocks with the id are flagged as playing, and
    [isPlayingAll] is off. *)
Theorem playBlock_exclusive (ctx : AudioContext) (blockId : string)
    (st : State) (block : AudioBlock) (pcm : list byte) (buffer : AudioBuffer) :
  find (fun b => String.eqb (id b) blockId) (blocks st) = Some block ->
  audioData block = Some pcm ->
  decodeAudioToBuffer pcm ctx defaultSampleRate 1 = Ok buffer ->
  currentAudioSource (playBlock ctx blockId st) = Some (length (sources st))
  /\ nth_error (sources (playBlock ctx blockId st)) (length (sources st))
     = Some (mkSource blockId (PlayBlockEnded blockId) Playing)
  /\ length (sources (playBlock ctx blockId st)) = S (length (sources st))
  /\ map isPlaying (blocks (playBlock ctx blockId st))
     = map (fun b => String.eqb (id b) blockId) (blocks st)
  /\ map id (blocks (playBlock ctx blockId st)) = map id (blocks st)
  /\ isPlayingAll (playBlock ctx blockId st) = false
  /\ (forall r n,
        currentAudioSource st = Some r -> nth_error (sources st) r = Some n ->
        exists n',
          nth_error (sources (playBlock ctx blockId st)) r = Some n'
          /\ status n' <> Playing /\ clip n' = clip n).
Proof.
  intros Hfind Hpcm Hdec. unfold playBlock. rewrite Hfind, Hpcm, Hdec.
  unfold startSource, setBlocks.
  cbn [currentAudioSource sources blocks isPlayingAll settings].
  pose proof (stopAllPlayback_sources_length st) as Hlen.
  split; [rewrite Hlen; reflexivity|].
  split; [rewrite nth_error_app2, Hlen, Nat.sub_diag by lia; reflexivity|].
  split; [rewrite length_app, Hlen; cbn [length]; lia|].
  split.
  { unfold stopAllPlayback, markPlaying. cbn [blocks]. rewrite !map_map.
    apply map_ext. intro b. cbn [id withIsPlaying].
    destruct (String.eqb (id b) blockId); reflexivity. }
  split.
  { unfold stopAllPlayback, markPlaying. cbn [blocks]. rewrite !map_map.
    apply map_ext. intro b. cbn [id withIsPlaying].
    destruct (String.eqb (id b) blockId); reflexivity. }
  split; [reflexivity|].
  intros r n Hr Hn.
  assert (Hlt : (r < length (sources st))%nat)
    by (apply nth_error_Some; congruence).
  rewrite nth_error_app1 by lia.
  unfold stopAllPlayback. cbn [sources]. rewrite Hr.
  destruct (stopSource_at r (sources st) n Hn) as (n' & H1 & H2 & H3 & _).
  exists n'. auto.
Qed.

Lemma playBlock_exclusive_witness :
  currentAudioSource
    (playBlock standardContext "c"
       (playBlock standardContext "a" threeClips)) = Some 1%nat
  /\ map status (sources (playBlock standardContext "c"
                            (playBlock standardContext "a" threeClips)))
     = [Stopping; Playing]
  /\ map isPlaying (blocks (playBlock standardContext "c"
                              (playBlock standardContext "a" threeClips)))
     = [false; false; true].
Proof.
  assert (Hdec : decodeAudioToBuffer [x00; x80] standardContext
                   defaultSampleRate 1
                 = Ok (mkAudioBuffer 1 1 24000 [[Num (-32768 # 32768)]]))
    by (vm_compute; reflexivity).
  destruct (playBlock_exclusive standardContext "c"
              (playBlock standardContext "a" threeClips)
              (segment "c" (Some [x00; x80])) [x00; x80] _
              eq_refl eq_refl Hdec)
    as (Hr & _ & _ & Hflags & _).
  split; [exact Hr|]. split; [reflexivity|]. rewrite Hflags. reflexivity.
Defined.

(** X19. When the first buffer of the sequence does not decode,
    [playAllSequentially] starts nothing and leaves [isPlayingAll] on; the
    next call therefore only stops, and it takes a third call to try
    again. *)
Theorem playAllSequentially_rejected_stays_on
    (ctx : AudioContext) (st : State) (b : AudioBlock)
    (rest : list AudioBlock) (pcm : list byte) (e : JsError) :
  isPlayingAll st = false ->
  filter hasAudio (blocks st) = b :: rest ->
  audioData b = Some pcm ->
  decodeAudioToBuffer pcm ctx defaultSampleRate 1 = Throw e ->
  playAllSequentially ctx st = setIsPlayingAll true st
  /\ sources (playAllSequentially ctx st) = sources st
  /\ isPlayingAll (playAllSequentially ctx st) = true
  /\ playAllSequentially ctx (playAllSequentially ctx st)
     = stopAllPlayback (setIsPlayingAll true st)
  /\ clipsStarted (playAllSequentially ctx (playAllSequentially ctx st))
     = clipsStarted st.
Proof.
  intros Hidle Hfilter Hpcm Hdec.
  assert (H1 : playAllSequentially ctx st = setIsPlayingAll true st).
  { unfold playAllSequentially. rewrite Hidle, Hfilter.
    cbn [playLoop]. rewrite Hpcm, Hdec. reflexivity. }
  rewrite H1. split; [reflexivity|]. split; [reflexivity|].
  split; [reflexivity|].
  assert (H2 : playAllSequentially ctx (setIsPlayingAll true st)
               = stopAllPlayback (setIsPlayingAll true st)) by reflexivity.
  rewrite H2. split; [reflexivity|]. rewrite stopAllPlayback_clips.
  reflexivity.
Qed.

Lemma playAllSequentially_rejected_stays_on_witness :
  isPlayingAll truncatedClip = false
  /\ isPlayingAll (playAllSequentially standardContext truncatedClip) = true
  /\ clipsStarted
       (playAllSequentially standardContext
          (playAllSequentially standardContext truncatedClip)) = [].
Proof.
  destruct (playAllSequentially_rejected_stays_on standardContext truncatedClip
              (segment "a" (Some [x01])) [segment "b" (Some [x00; x00])]
              [x01] RangeError eq_refl eq_refl eq_refl eq_refl)
    as (_ & _ & Hon & _ & Hclips).
  split; [reflexivity|]. split; [exact Hon | exact Hclips].
Defined.

(** X21. Starting a sequence stops nothing: every node that exists when
    [playAllSequentially] is called while it is not running is left as it
    is, and every block flagged as playing stays flagged. *)
Theorem playAllSequentially_stops_nothing (ctx : AudioContext) (st : State) :
  isPlayingAll st = false ->
  (forall s n, nth_error (sources st) s = Some n ->
               nth_error (sources (playAllSequentially ctx st)) s = Some n)
  /\ (forall k b, nth_error (blocks st) k = Some b -> isPlaying b = true ->
        exists b', nth_error (blocks (playAllSequentially ctx st)) k = Some b'
                   /\ id b' = id b /\ isPlaying b' = true).
Proof.
  intro Hidle. unfold playAllSequentially. rewrite Hidle.
  destruct (filter hasAudio (blocks st)) as [|b0 l0].
  { split; [auto|]. intros k b Hb Hp. exists b. auto. }
  destruct (playLoop_cases ctx (b0 :: l0) (setIsPlayingAll true st))
    as [-> | [-> | (b & rest & _ & ->)]].
  - split; [auto|]. intros k b Hb Hp. exists b. auto.
  - split; [auto|]. intros k b Hb Hp. exists b. auto.
  - unfold startSource, setBlocks, setIsPlayingAll.
    cbn [sources blocks]. split.
    + intros s n Hn. rewrite nth_error_app1; [exact Hn|].
      apply nth_error_Some. congruence.
    + intros k x Hx Hp. unfold markPlaying. rewrite nth_error_map, Hx.
      cbn [option_map]. eexists. split; [reflexivity|].
      destruct (String.eqb (id x) (id b)); cbn [withIsPlaying id isPlaying];
        auto.
Qed.

Lemma playAllSequentially_stops_nothing_witness :
  isPlayingAll (playBlock standardContext "c" threeClips) = false
  /\ nth_error
       (sources (playAllSequentially standardContext
                   (playBlock standardContext "c" threeClips))) 0
     = Some (mkSource "c" (PlayBlockEnded "c") Playing)
  /\ map status
       (sources (playAllSequentially standardContext
                   (playBlock standardContext "c" threeClips)))
     = [Playing; Playing].
Proof.
  destruct (playAllSequentially_stops_nothing standardContext
              (playBlock standardContext "c" threeClips) eq_refl)
    as (Hnodes & _).
  split; [reflexivity|]. split; [|reflexivity].
  apply Hnodes. reflexivity.
Defined.

(** A node outside the ref, over a whole run without its [ended] event. *)
Lemma run_orphan (ctx : AudioContext) (st : State) (evs : list Event)
    (s : nat) (n : SourceNode) :
  nth_error (sources st) s = Some n ->
  currentAudioSource st <> Some s ->
  Forall (fun ev => ev <> Ended s) evs ->
  nth_error (sources (run ctx st evs)) s = Some n
  /\ currentAudioSource (run ctx st evs) <> Some s.
Proof.
  revert st. induction evs as [|ev evs IH]; intros st Hn Href Hevs;
    [split; assumption|].
  inversion_clear Hevs as [|? ? Hev Hrest].
  destruct (step_orphan ctx st ev s n Hn Href Hev) as (Hn' & Href').
  unfold run. cbn [fold_left]. apply IH; assumption.
Qed.

(** X17. Only the node in the ref can be stopped. A node that is not
    the one in the ref stays exactly as it is, whatever the user does and
    whatever other nodes end, until its own [ended] event; and the ref
    never comes back to it. *)
Theorem orphan_node_out_of_reach
    (ctx : AudioContext) (st : State) (evs : list Event) (s : nat)
    (n : SourceNode) :
  nth_error (sources st) s = Some n ->
  currentAudioSource st <> Some s ->
  Forall (fun ev => ev <> Ended s) evs ->
  nth_error (sources (run ctx st evs)) s = Some n
  /\ currentAudioSource (run ctx st evs) <> Some s.
Proof.
  apply run_orphan.
Qed.

Lemma orphan_node_out_of_reach_witness :
  nth_error
    (sources
       (run standardContext
          (playAllSequentially standardContext
             (playBlock standardContext "c" threeClips))
          [StopAll; ClearAll "n"; PlayBlock "a"; StopAll]))
    0
  = Some (mkSource "c" (PlayBlockEnded "c") Playing).
Proof.
  apply (orphan_node_out_of_reach standardContext
           (playAllSequentially standardContext
              (playBlock standardContext "c" threeClips))
           [StopAll; ClearAll "n"; PlayBlock "a"; StopAll] 0).
  - reflexivity.
  - discriminate.
  - repeat constructor; discriminate.
Defined.

Lemma initialState_refValid (id0 : string) : refValid (initialState id0).
Proof.
  intros s Hs. discriminate Hs.
Qed.

(** X18. The preview cannot be stopped. From the first render on,
    whenever a preview request is answered with a buffer that decodes, a
    node is started that no handler can reach: whatever the user does
    afterwards (stop, clear, play), the node keeps playing until its
    [ended] event. *)
Theorem preview_cannot_be_stopped
    (ctx : AudioContext) (id0 : string) (before after : list Event)
    (pcm : list byte) (buffer : AudioBuffer) :
  decodeAudioToBuffer pcm ctx defaultSampleRate 1 = Ok buffer ->
  Forall (fun ev =>
            ev <> Ended (length (sources (run ctx (initialState id0) before))))
    after ->
  nth_error
    (sources (run ctx (initialState id0)
                (before ++ PreviewSettled (Ok pcm) :: after)))
    (length (sources (run ctx (initialState id0) before)))
  = Some (mkSource "preview" NoHandler Playing).
Proof.
  intros Hdec Hafter. set (st := run ctx (initialState id0) before).
  assert (Hv : refValid st)
    by (apply run_refValid, initialState_refValid).
  unfold run. rewrite fold_left_app. cbn [fold_left step].
  fold (run ctx (initialState id0) before). fold st.
  fold (run ctx (previewSettled ctx (Ok pcm) st) after).
  apply run_orphan; [| |exact Hafter].
  - unfold previewSettled. rewrite Hdec. unfold startSource, setBlocks.
    cbn [sources]. rewrite nth_error_app2, Nat.sub_diag by lia. reflexivity.
  - unfold previewSettled. rewrite Hdec. unfold startSource, setBlocks.
    cbn [currentAudioSource]. intro Hr. apply Hv in Hr. lia.
Qed.

Lemma preview_cannot_be_stopped_witness :
  nth_error
    (sources (run standardContext (initialState "u1")
                ([PreviewStarted]
                 ++ PreviewSettled (Ok [x00; x00])
                    :: [StopAll; ClearAll "u2"; PlayAll])))
    0
  = Some (mkSource "preview" NoHandler Playing).
Proof.
  assert (Hdec : decodeAudioToBuffer [x00; x00] standardContext
                   defaultSampleRate 1
                 = Ok (mkAudioBuffer 1 1 24000 [[Num (0 # 32768)]]))
    by (vm_compute; reflexivity).
  apply (preview_cannot_be_stopped standardContext "u1" [PreviewStarted]
           [StopAll; ClearAll "u2"; PlayAll] [x00; x00] _ Hdec).
  repeat constructor; discriminate.
Defined.

Lemma stopSource_node (r s : nat) (nodes : list SourceNode) (n : SourceNode) :
  nth_error nodes s = Some n ->
  exists n',
    nth_error (stopSource r nodes) s = Some n'
    /\ clip n' = clip n /\ onended n' = onended n
    /\ (status n <> Playing -> n' = n).
Proof.
  intro Hn. destruct (Nat.eq_dec r s) as [-> | Hrs].
  - unfold stopSource. rewrite Hn. destruct (status n) eqn:Es.
    + eexists. split; [eapply nth_error_setIndex_same, Hn|].
      cbn [clip onended]. repeat split. intro H. contradiction H. reflexivity.
    + exists n. auto.
    + exists n. auto.
  - exists n. rewrite stopSource_other by exact Hrs. auto.
Qed.

Lemma step_node (ctx : AudioContext) (st : State) (ev : Event) (s : nat)
    (n : SourceNode) :
  nth_error (sources st) s = Some n ->
  exists n',
    nth_error (sources (step ctx st ev)) s = Some n'
    /\ clip n' = clip n /\ onended n' = onended n
    /\ (status n = Finished -> n' = n).
Proof.
  intro Hn.
  destruct (step_shape ctx st ev) as (base & extra & Hs & Hbase & _).
  pose proof (step_base_length st ev base Hbase) as Hlen.
  assert (Hlt : (s < length (sources st))%nat)
    by (apply nth_error_Some; congruence).
  rewrite Hs, nth_error_app1 by lia.
  assert (Hstop : exists n',
            nth_error (sources (stopAllPlayback st)) s = Some n'
            /\ clip n' = clip n /\ onended n' = onended n
            /\ (status n = Finished -> n' = n)).
  { unfold stopAllPlayback. cbn [sources].
    destruct (currentAudioSource st) as [r|]; [|exists n; auto].
    destruct (stopSource_node r s (sources st) n Hn) as (n' & H1 & H2 & H3 & H4).
    exists n'. repeat split; try assumption.
    intro Hf. apply H4. rewrite Hf. discriminate. }
  destruct Hbase as [-> | [(-> & _) | [(-> & _) | (s0 & n0 & _ & Hn0 & Hlive & ->)]]].
  - exists n. auto.
  - exact Hstop.
  - exact Hstop.
  - unfold finishNode. cbn [sources].
    destruct (Nat.eq_dec s0 s) as [-> | Hne].
    + rewrite Hn in Hn0. injection Hn0 as <-.
      eexists. split; [eapply nth_error_setIndex_same, Hn|].
      cbn [clip onended]. repeat split. intro Hf. contradiction.
    + exists n. rewrite nth_error_setIndex_other by exact Hne. auto.
Qed.

(** X22. The nodes form a log: an event never removes a node, never
    moves it and never changes its clip or its handler; a node that has
    finished never changes again; and the ref, once valid, always names an
    existing node. *)
Theorem nodes_form_a_log (ctx : AudioContext) (st : State) (evs : list Event) :
  (forall s n,
     nth_error (sources st) s = Some n ->
     exists n',
       nth_error (sources (run ctx st evs)) s = Some n'
       /\ clip n' = clip n /\ onended n' = onended n
       /\ (status n = Finished -> n' = n))
  /\ (refValid st -> refValid (run ctx st evs)).
Proof.
  split; [|apply run_refValid].
  revert st. induction evs as [|ev evs IH]; intros st s n Hn.
  - exists n. auto.
  - destruct (step_node ctx st ev s n Hn) as (n1 & H1 & Hc1 & Hh1 & Hf1).
    destruct (IH (step ctx st ev) s n1 H1) as (n2 & H2 & Hc2 & Hh2 & Hf2).
    unfold run in *. cbn [fold_left]. exists n2.
    split; [exact H2|]. split; [congruence|]. split; [congruence|].
    intro Hf. specialize (Hf1 Hf). subst n1. apply Hf2, Hf.
Qed.

Lemma nodes_form_a_log_witness :
  exists n',
    nth_error
      (sources (run standardContext
                  (playBlock standardContext "a" threeClips)
                  [StopAll; PlayAll; Ended 0; ClearAll "n"]))
      0 = Some n'
    /\ clip n' = "a"%string /\ onended n' = PlayBlockEnded "a".
Proof.
  destruct (nodes_form_a_log standardContext
              (playBlock standardContext "a" threeClips)
              [StopAll; PlayAll; Ended 0; ClearAll "n"]) as (H & _).
  destruct (H 0%nat (mkSource "a" (PlayBlockEnded "a") Playing) eq_refl)
    as (n' & Hn & Hc & Hh & _).
  exists n'. auto.
Defined.

(** ** The playing flags are backed by playing nodes *)

Section Flags.

Variable ctx : AudioContext.

Lemma flagsBacked_from (st st' : State) :
  (forall b', In b' (blocks st') -> isPlaying b' = true ->
              exists b, In b (blocks st) /\ id b = id b'
                        /\ isPlaying b = true) ->
  incl (sources st) (sources st') ->
  flagsBacked st -> flagsBacked st'.
Proof.
  intros Hb Hs Hst b' Hin Hp.
  destruct (Hb b' Hin Hp) as (b & Hbin & Hid & Hbp).
  destruct (Hst b Hbin Hbp) as (n & Hn & Hpend).
  exists n. split; [apply Hs, Hn|]. rewrite <- Hid. exact Hpend.
Qed.

Lemma flagsBacked_none (st : State) :
  Forall (fun b => isPlaying b = false) (blocks st) -> flagsBacked st.
Proof.
  intros Hq b Hin Hp. rewrite Forall_forall in Hq.
  rewrite (Hq b Hin) in Hp. discriminate.
Qed.

(** Updaters that keep the id and the flag of every block. *)
Lemma flags_of_map (f : AudioBlock -> AudioBlock) (l : list AudioBlock) :
  (forall b, id (f b) = id b /\ isPlaying (f b) = isPlaying b) ->
  forall b', In b' (map f l) -> isPlaying b' = true ->
             exists b, In b l /\ id b = id b' /\ isPlaying b = true.
Proof.
  intros Hf b' Hin Hp. apply in_map_iff in Hin.
  destruct Hin as (b & <- & Hb). destruct (Hf b) as (Hi & Hpl).
  exists b. rewrite Hi, <- Hpl. auto.
Qed.

Lemma flags_of_sublist (l l' : list AudioBlock) :
  incl l' l ->
  forall b', In b' l' -> isPlaying b' = true ->
             exists b, In b l /\ id b = id b' /\ isPlaying b = true.
Proof.
  intros Hincl b' Hin Hp. exists b'. auto.
Qed.

Lemma flagsBacked_start (blockId : string) (h : OnEnded) (intoRef : bool)
    (st : State) :
  h = PlayBlockEnded blockId \/ (exists rest, h = PlayAllEnded blockId rest) ->
  flagsBacked st ->
  flagsBacked (startSource blockId h intoRef
                 (setBlocks (markPlaying blockId true) st)).
Proof.
  intros Hh Hst b' Hin Hp. unfold startSource, setBlocks in *.
  cbn [blocks sources] in *. unfold markPlaying in Hin.
  apply in_map_iff in Hin. destruct Hin as (b & Hb' & Hb).
  destruct (String.eqb_spec (id b) blockId) as [Heq | Hne].
  - exists (mkSource blockId h Playing). split.
    + apply in_or_app. right. left. reflexivity.
    + subst b'. cbn [id withIsPlaying]. rewrite Heq.
      split; [reflexivity|]. split; [reflexivity | exact Hh].
  - subst b'. destruct (Hst b Hb Hp) as (n & Hn & Hpend).
    exists n. split; [apply in_or_app; left; exact Hn | exact Hpend].
Qed.

Lemma In_setIndex_other {A : Type} (l : list A) (s : nat) (n v w : A) :
  nth_error l s = Some n -> w <> n -> In w l -> In w (setIndex l s v).
Proof.
  revert s. induction l as [|x l IH]; intros s Hn Hw Hin; [contradiction|].
  destruct s as [|s]; cbn [nth_error] in Hn; cbn [setIndex].
  - injection Hn as ->. destruct Hin as [-> | Hin]; [contradiction|].
    right. exact Hin.
  - destruct Hin as [-> | Hin]; [left; reflexivity|].
    right. apply (IH s); assumption.
Qed.

Lemma flagsBacked_finish_silent (s : nat) (n : SourceNode) (st : State) :
  nth_error (sources st) s = Some n -> onended n = NoHandler ->
  flagsBacked st -> flagsBacked (finishNode s n st).
Proof.
  intros Hn Hh Hst b Hin Hp. unfold finishNode in *. cbn [blocks sources] in *.
  destruct (Hst b Hin Hp) as (w & Hw & Hpend).
  exists w. split; [|exact Hpend].
  apply (In_setIndex_other _ s n); [exact Hn | | exact Hw].
  intros ->. destruct Hpend as (_ & _ & [H | (rest & H)]); congruence.
Qed.

Lemma flagsBacked_finish (s : nat) (n : SourceNode) (blockId : string)
    (st : State) :
  nth_error (sources st) s = Some n ->
  onended n = PlayBlockEnded blockId
  \/ (exists rest, onended n = PlayAllEnded blockId rest) ->
  flagsBacked st ->
  flagsBacked (setBlocks (markPlaying blockId false) (finishNode s n st)).
Proof.
  intros Hn Hh Hst b' Hin Hp. unfold setBlocks, finishNode in *.
  cbn [blocks sources] in *. unfold markPlaying in Hin.
  apply in_map_iff in Hin. destruct Hin as (b & Hb' & Hb).
  destruct (String.eqb_spec (id b) blockId) as [Heq | Hne].
  - subst b'. cbn [isPlaying withIsPlaying] in Hp. discriminate.
  - subst b'. destruct (Hst b Hb Hp) as (w & Hw & Hpend).
    exists w. split; [|exact Hpend].
    apply (In_setIndex_other _ s n); [exact Hn | | exact Hw].
    intros ->. destruct Hpend as (_ & _ & Hw').
    destruct Hh as [H | (rest & H)], Hw' as [H' | (rest' & H')]; congruence.
Qed.

Lemma flagsBacked_same (st st' : State) :
  blocks st' = blocks st -> sources st' = sources st ->
  flagsBacked st -> flagsBacked st'.
Proof.
  intros Hb Hs Hst b Hin Hp. rewrite Hb in Hin. rewrite Hs. apply Hst; auto.
Qed.

Lemma flagsBacked_playLoop (queue : list AudioBlock) (st : State) :
  flagsBacked st -> flagsBacked (playLoop ctx queue st).
Proof.
  intro Hst.
  destruct (playLoop_cases ctx queue st) as [-> | [-> | (b & rest & _ & ->)]].
  - apply (flagsBacked_same st); [reflexivity | reflexivity | exact Hst].
  - exact Hst.
  - apply flagsBacked_start; [right; exists rest; reflexivity | exact Hst].
Qed.

Lemma flagsBacked_stopAll (st : State) : flagsBacked (stopAllPlayback st).
Proof.
  apply flagsBacked_none. apply stopAllPlayback_silent.
Qed.

Lemma step_flagsBacked (st : State) (ev : Event) :
  flagsBacked st -> flagsBacked (step ctx st ev).
Proof.
  intro Hst. destruct ev; cbn [step].
  - (* Ended *)
    unfold ended.
    destruct (nth_error (sources st) s) as [n|] eqn:Hn; [|exact Hst].
    cbv zeta. fold (finishNode s n st).
    destruct (status n); [| |exact Hst];
      (destruct (onended n) as [|blockId|blockId rest] eqn:Eh;
       [ apply flagsBacked_finish_silent; assumption
       | apply flagsBacked_finish; auto
       | pose proof (flagsBacked_finish s n blockId st Hn
                       (or_intror (ex_intro _ rest Eh)) Hst) as Hfin;
         destruct (currentAudioSource _);
         [ apply flagsBacked_playLoop, Hfin
         | apply (flagsBacked_same
                    (setBlocks (markPlaying blockId false) (finishNode s n st)));
           [reflexivity | reflexivity | exact Hfin] ] ]).
  - apply flagsBacked_stopAll.
  - (* PlayBlock *)
    destruct (playBlock_stops_first ctx blockId st) as [-> | ->].
    + apply flagsBacked_stopAll.
    + apply flagsBacked_start; [left; reflexivity | apply flagsBacked_stopAll].
  - (* PlayAll *)
    unfold playAllSequentially. destruct (isPlayingAll st).
    + apply flagsBacked_stopAll.
    + destruct (filter hasAudio (blocks st)); [exact Hst|].
      apply flagsBacked_playLoop.
      apply (flagsBacked_same st); [reflexivity | reflexivity | exact Hst].
  - (* AddBlock *)
    assert (Hfresh : forall k b',
              In b' (firstn k (blocks st) ++ newBlock newId :: skipn k (blocks st)) ->
              isPlaying b' = true ->
              exists b, In b (blocks st) /\ id b = id b' /\ isPlaying b = true).
    { intros k b' Hin Hp. exists b'. split; [|auto].
      apply in_app_or in Hin. destruct Hin as [Hin | [<- | Hin]].
      - rewrite <- (firstn_skipn k (blocks st)). apply in_or_app. auto.
      - discriminate Hp.
      - rewrite <- (firstn_skipn k (blocks st)). apply in_or_app. auto. }
    unfold addBlock.
    destruct afterId as [a|]; [destruct (String.eqb a "")|];
      (apply (flagsBacked_from st); [|apply incl_refl|exact Hst]);
      unfold setBlocks; cbn [blocks].
    + intros b' Hin. apply (Hfresh (length (blocks st))).
      rewrite firstn_all, skipn_all. exact Hin.
    + apply Hfresh.
    + intros b' Hin. apply (Hfresh (length (blocks st))).
      rewrite firstn_all, skipn_all. exact Hin.
  - (* RemoveBlock *)
    apply (flagsBacked_from st); [|apply incl_refl|exact Hst].
    unfold removeBlock, setBlocks. cbn [blocks].
    apply flags_of_sublist.
    destruct (1 <? length (blocks st))%nat; [apply incl_filter|apply incl_refl].
  - (* UpdateBlockText *)
    apply (flagsBacked_from st); [|apply incl_refl|exact Hst].
    unfold updateBlockText, setBlocks. cbn [blocks].
    apply flags_of_map. intro b.
    destruct (String.eqb (id b) blockId); split; reflexivity.
  - (* ClearAll *)
    apply flagsBacked_none. unfold clearAll, setBlocks. cbn [blocks].
    repeat constructor.
  - (* GenerationStarted *)
    apply (flagsBacked_from st); [|apply incl_refl|exact Hst].
    unfold generationStarted, setBlocks. cbn [blocks].
    apply flags_of_map. intro b.
    destruct (String.eqb (id b) blockId); split; reflexivity.
  - (* GenerationSucceeded *)
    apply (flagsBacked_from st); [|apply incl_refl|exact Hst].
    unfold generationSucceeded, setBlocks. cbn [blocks].
    apply flags_of_map. intro b.
    destruct (String.eqb (id b) blockId); split; reflexivity.
  - (* GenerationFailed *)
    apply (flagsBacked_from st); [|apply incl_refl|exact Hst].
    unfold generationFailed, setBlocks. cbn [blocks].
    apply flags_of_map. intro b.
    destruct (String.eqb (id b) blockId); split; reflexivity.
  - (* PreviewStarted *)
    apply (flagsBacked_from st); [|apply incl_refl|exact Hst].
    unfold previewStarted, setBlocks. cbn [blocks].
    intros b' Hin Hp. exists b'. split; [|auto].
    apply in_app_or in Hin. destruct Hin as [Hin | [<- | []]];
      [exact Hin | discriminate Hp].
  - (* PreviewSettled *)
    apply (flagsBacked_from st); [| |exact Hst].
    + unfold previewSettled, setBlocks. cbn [blocks].
      assert (Hb : forall st1, blocks st1 = blocks st ->
                forall b', In b' (filter (fun b => negb (String.eqb (id b) "preview"))
                                    (blocks st1)) ->
                           isPlaying b' = true ->
                           exists b, In b (blocks st) /\ id b = id b'
                                     /\ isPlaying b = true).
      { intros st1 -> . apply flags_of_sublist, incl_filter. }
      apply Hb. destruct response as [pcm|e]; [|reflexivity].
      destruct (decodeAudioToBuffer pcm ctx defaultSampleRate 1); reflexivity.
    + unfold previewSettled, setBlocks. cbn [sources].
      destruct response as [pcm|e]; [|apply incl_refl].
      destruct (decodeAudioToBuffer pcm ctx defaultSampleRate 1);
        [|apply incl_refl].
      unfold startSource. cbn [sources]. apply incl_appl, incl_refl.
Qed.

End Flags.

(** X20. From the first render on and whatever happens, a segment is
    flagged as playing only while a node that [playBlock] or
    [playAllSequentially] started for its clip has neither been stopped
    nor ended: the playing indicator never outlives the audio. *)
Theorem playing_flag_has_playing_node
    (ctx : AudioContext) (id0 : string) (evs : list Event) (b : AudioBlock) :
  In b (blocks (run ctx (initialState id0) evs)) ->
  isPlaying b = true ->
  exists n,
    In n (sources (run ctx (initialState id0) evs))
    /\ status n = Playing
    /\ clip n = id b
    /\ (onended n = PlayBlockEnded (id b)
        \/ exists rest, onended n = PlayAllEnded (id b) rest).
Proof.
  assert (H : forall evs st, flagsBacked st -> flagsBacked (run ctx st evs)).
  { clear. induction evs as [|ev evs IH]; intros st Hst; [exact Hst|].
    unfold run. cbn [fold_left]. apply IH, step_flagsBacked, Hst. }
  apply (H evs (initialState id0)).
  apply flagsBacked_none. repeat constructor.
Qed.

Lemma playing_flag_has_playing_node_witness :
  exists n,
    In n (sources (run standardContext (initialState "u1")
                     [ClearAll "u2";
                      GenerationSucceeded "u2" [x00; x00] "blob:1";
                      AddBlock None "b";
                      GenerationSucceeded "b" [xff; x7f] "blob:2";
                      PlayAll; Ended 0]))
    /\ status n = Playing
    /\ clip n = "b"%string
    /\ (onended n = PlayBlockEnded "b"
        \/ exists rest, onended n = PlayAllEnded "b" rest).
Proof.
  apply (playing_flag_has_playing_node standardContext "u1"
           [ClearAll "u2"; GenerationSucceeded "u2" [x00; x00] "blob:1";
            AddBlock None "b"; GenerationSucceeded "b" [xff; x7f] "blob:2";
            PlayAll; Ended 0]
           (mkAudioBlock "b" "" (Some [xff; x7f]) (Some "blob:2"%string)
              false true None)).
  - vm_compute. right. left. reflexivity.
  - reflexivity.
Defined.

(** ** Requests in flight *)

(** X23. [generateBlockAudio] attaches the answer to whatever block has
    the id when the answer arrives. When the text is edited while the
    request is in flight, the block ends up with the new text and with
    the recording made from the old one, and is no longer marked as
    generating; the other blocks are as the edit alone leaves them. *)
Theorem generateBlockAudio_answer_after_edit
    (blockId newText url : string) (pcmData : list byte) (st : State) :
  blocks (generationSucceeded blockId pcmData url
            (updateBlockText blockId newText (generationStarted blockId st)))
  = map (fun b =>
           if String.eqb (id b) blockId
           then mkAudioBlock (id b) newText (Some pcmData) (Some url) false
                  (isPlaying b) None
           else b)
      (blocks st)
  /\ (forall b,
        In b (blocks (generationSucceeded blockId pcmData url
                        (updateBlockText blockId newText
                           (generationStarted blockId st)))) ->
        id b = blockId ->
        text b = newText /\ hasAudio b = true /\ isGenerating b = false).
Proof.
  assert (Hblocks :
    blocks (generationSucceeded blockId pcmData url
              (updateBlockText blockId newText (generationStarted blockId st)))
    = map (fun b =>
             if String.eqb (id b) blockId
             then mkAudioBlock (id b) newText (Some pcmData) (Some url) false
                    (isPlaying b) None
             else b)
        (blocks st)).
  { unfold generationSucceeded, updateBlockText, generationStarted, setBlocks.
    cbn [blocks]. rewrite !map_map. apply map_ext. intro b.
    destruct (String.eqb (id b) blockId) eqn:E; cbn [id]; rewrite E;
      cbn [id]; rewrite ?E; reflexivity. }
  split; [exact Hblocks|].
  intros b Hin Hid. rewrite Hblocks in Hin. apply in_map_iff in Hin.
  destruct Hin as (b0 & Hb & _).
  destruct (String.eqb (id b0) blockId) eqn:E.
  - subst b. repeat split.
  - subst b. apply String.eqb_neq in E. contradiction.
Qed.

Lemma generateBlockAudio_answer_after_edit_witness :
  blocks (generationSucceeded "b" [x01; x00] "blob:1"
            (updateBlockText "b" "new"
               (generationStarted "b" (stateOf [segment "a" (Some [x00; x00]);
                                            segment "b" None]))))
  = [segment "a" (Some [x00; x00]);
     mkAudioBlock "b" "new" (Some [x01; x00]) (Some "blob:1"%string)
       false false None].
Proof.
  destruct (generateBlockAudio_answer_after_edit "b" "new" "blob:1" [x01; x00]
              (stateOf [segment "a" (Some [x00; x00]); segment "b" None]))
    as (H & _).
  rewrite H. reflexivity.
Defined.
